(** * backupmail: exporters, importers and provider session state

    A shallow embedding of the parts of the TypeScript sources that the
    specification talks about: the MBOX / EML / JSON exporters, the MBOX
    importer, and the connection state machine and message normalisation of
    the IMAP, Gmail and JMAP providers.

    JavaScript strings are sequences of UTF-16 code units; they are modelled
    as lists of code-unit values.  The regular expressions of the sources are
    written in a small abstract syntax and run by a backtracking matcher that
    follows the ECMAScript matching rules for the constructs that occur. *)

From stdpp Require Import base list strings gmap.
From Stdlib Require Import ZArith NArith Lia Ascii.
From Stdlib Require Import DecimalString DecimalNat.

Set Warnings "-register-all,-clear-no-such-hyp".
Local Open Scope N_scope.

(* ================================================================== *)
(** * Part I: definitions                                              *)
(* ================================================================== *)

(** ** JavaScript strings *)
Module Js.

(** A code unit and a string. *)
Abbreviation char := N (only parsing).
Abbreviation str := (list N) (only parsing).

(** A string literal of the sources (ASCII only). *)
Definition lit (s : string) : str :=
  List.map N_of_ascii (String.list_ascii_of_string s).

Definition LF : char := 10.
Definition CR : char := 13.
Definition QUOTE : char := 34.   (* the double-quote character *)

(** ECMAScript LineTerminator: LF, CR, U+2028, U+2029. *)
Definition isLineTerminator (c : char) : bool :=
  (c =? 10) || (c =? 13) || (c =? 8232) || (c =? 8233).

(** ECMAScript WhiteSpace together with LineTerminator: the set stripped by
    [String.prototype.trim] and matched by [\s]. *)
Definition isWhiteSpace (c : char) : bool :=
  (c =? 9) || (c =? 11) || (c =? 12) || (c =? 32) || (c =? 160)
  || (c =? 5760) || ((8192 <=? c) && (c <=? 8202))
  || (c =? 8239) || (c =? 8287) || (c =? 12288) || (c =? 65279)
  || isLineTerminator c.

Fixpoint trimStart (s : str) : str :=
  match s with
  | c :: s' => if isWhiteSpace c then trimStart s' else s
  | [] => []
  end.

Definition trimEnd (s : str) : str := rev (trimStart (rev s)).

(** [s.trim()] *)
Definition trim (s : str) : str := trimEnd (trimStart s).

(** Truthiness of a string: the empty string is falsy. *)
Definition truthy (s : str) : bool :=
  match s with [] => false | _ :: _ => true end.

(** Truthiness of [string | undefined]. *)
Definition truthyOpt (o : option str) : bool :=
  match o with Some s => truthy s | None => false end.

(** [a || b] on strings. *)
Definition orStr (a b : str) : str := if truthy a then a else b.

(** [a || b] where [a : string | undefined]. *)
Definition orOpt (a : option str) (b : str) : str :=
  match a with Some s => orStr s b | None => b end.

Fixpoint startsWith (p s : str) : bool :=
  match p, s with
  | [], _ => true
  | a :: p', b :: s' => (b =? a) && startsWith p' s'
  | _ :: _, [] => false
  end.

(** [s.indexOf(c)] for a one-unit needle: [-1] when absent. *)
Fixpoint indexOfFrom (c : char) (i : Z) (s : str) : Z :=
  match s with
  | [] => (-1)%Z
  | x :: s' => if x =? c then i else indexOfFrom c (i + 1)%Z s'
  end.
Definition indexOf (c : char) (s : str) : Z := indexOfFrom c 0%Z s.

(** [s.substring(n)]: a negative start is clamped to 0. *)
Definition substring (n : Z) (s : str) : str := drop (Z.to_nat n) s.

(** [s.split(c)] for a one-unit separator.  The result is never empty:
    [''.split(c)] is [['']]. *)
Fixpoint split (sep : char) (s : str) : list str :=
  match s with
  | [] => [[]]
  | c :: s' =>
      if c =? sep then [] :: split sep s'
      else match split sep s' with
           | l :: ls => (c :: l) :: ls
           | [] => [[c]]
           end
  end.

(** [a.join(sep)] *)
Fixpoint join (sep : str) (l : list str) : str :=
  match l with
  | [] => []
  | [x] => x
  | x :: rest => x ++ sep ++ join sep rest
  end.

(** [`${n}`] for a non-negative integer. *)
Definition natToString (n : nat) : str :=
  lit (NilZero.string_of_uint (Nat.to_uint n)).

(** [`${z}`] for an integer. *)
Definition zToString (z : Z) : str :=
  lit (NilZero.string_of_int (Z.to_int z)).

(** ASCII letters, digits and the lower-casing of ASCII letters. *)
Definition isUpper (c : char) : bool := (65 <=? c) && (c <=? 90).
Definition isLower (c : char) : bool := (97 <=? c) && (c <=? 122).
Definition isDigit (c : char) : bool := (48 <=? c) && (c <=? 57).
Definition isAscii (c : char) : bool := c <? 128.
Definition lowerAscii (c : char) : char := if isUpper c then c + 32 else c.

End Js.

(** ** Regular expressions

    The fragment of ECMAScript patterns used by the sources: single code-unit
    sets (literals, classes, the dot), [?], [*] and [+] applied to such sets
    (greedy or lazy), the assertions [^] and [$] (with or without the [m]
    flag), sequencing and capture groups.  Patterns are compiled, as in the
    ECMAScript specification, to matchers that take a continuation;
    backtracking is the failure of a continuation. *)
Module RegExp.
Import Js.

Definition cset := char -> bool.

Inductive re : Type :=
| Chars (p : cset)                     (* one code unit of the set *)
| Opt (p : cset)                       (* p?  (greedy) *)
| Star (greedy : bool) (p : cset)      (* p*  or  p*? *)
| Bol (multiline : bool)               (* ^ *)
| Eol (multiline : bool)               (* $ *)
| Seq (r1 r2 : re)
| Group (n : nat) (r : re)             (* the n-th capture group *)
| Empty.

(** [p+] is [p p*], [p+?] is [p p*?]. *)
Definition Plus (greedy : bool) (p : cset) : re :=
  Seq (Chars p) (Star greedy p).

Definition only (c : char) : cset := fun x => x =? c.
Definition except (c : char) : cset := fun x => negb (x =? c).
(** The dot: any code unit except a line terminator. *)
Definition dot : cset := fun x => negb (isLineTerminator x).

(** A literal string. *)
Fixpoint Lit (s : str) : re :=
  match s with
  | [] => Empty
  | c :: s' => Seq (Chars (only c)) (Lit s')
  end.

(** Matcher state: the code unit before the current position (none at the
    start of the input), the input from the current position on, and the
    captures made so far, most recent first. *)
Record mstate : Type := MState {
  prev : option char;
  rest : str;
  caps : list (nat * str)
}.

Definition cont := mstate -> option mstate.

Definition step (p : cset) (k : cont) (x : mstate) : option mstate :=
  match rest x with
  | c :: s' => if p c then k (MState (Some c) s' (caps x)) else None
  | [] => None
  end.

(** Greedy [p*]: consume while possible, give back one unit at a time. *)
Fixpoint starGreedy (p : cset) (k : cont) (pv : option char) (s : str)
    (cs : list (nat * str)) : option mstate :=
  match s with
  | c :: s' =>
      if p c then
        match starGreedy p k (Some c) s' cs with
        | Some y => Some y
        | None => k (MState pv s cs)
        end
      else k (MState pv s cs)
  | [] => k (MState pv s cs)
  end.

(** Lazy [p*?]: try the continuation first, consume one more on failure. *)
Fixpoint starLazy (p : cset) (k : cont) (pv : option char) (s : str)
    (cs : list (nat * str)) : option mstate :=
  match k (MState pv s cs) with
  | Some y => Some y
  | None =>
      match s with
      | c :: s' => if p c then starLazy p k (Some c) s' cs else None
      | [] => None
      end
  end.

Definition atLineStart (multiline : bool) (pv : option char) : bool :=
  match pv with
  | None => true
  | Some c => multiline && isLineTerminator c
  end.

Definition atLineEnd (multiline : bool) (s : str) : bool :=
  match s with
  | [] => true
  | c :: _ => multiline && isLineTerminator c
  end.

Fixpoint run (r : re) (k : cont) (x : mstate) : option mstate :=
  match r with
  | Chars p => step p k x
  | Opt p =>
      match step p k x with
      | Some y => Some y
      | None => k x
      end
  | Star true p => starGreedy p k (prev x) (rest x) (caps x)
  | Star false p => starLazy p k (prev x) (rest x) (caps x)
  | Bol m => if atLineStart m (prev x) then k x else None
  | Eol m => if atLineEnd m (rest x) then k x else None
  | Seq r1 r2 => run r1 (run r2 k) x
  | Group n r' =>
      run r'
        (fun y =>
           k (MState (prev y) (rest y)
                ((n, take (length (rest x) - length (rest y)) (rest x))
                   :: caps y)))
        x
  | Empty => k x
  end.

(** A match attempt anchored at the current position. *)
Definition matchAt (r : re) (pv : option char) (s : str) : option mstate :=
  run r Some (MState pv s []).

(** The result of [RegExp.prototype.exec]: index, matched text, groups. *)
Record result : Type := Result {
  index : nat;
  whole : str;
  groups : list (nat * str)
}.

(** [m[n]]: the text of the n-th group, [None] for [undefined]. *)
Fixpoint group (n : nat) (cs : list (nat * str)) : option str :=
  match cs with
  | [] => None
  | (i, v) :: cs' => if Nat.eqb i n then Some v else group n cs'
  end.

(** Leftmost match, scanning start positions from left to right. *)
Fixpoint search (r : re) (i : nat) (pv : option char) (s : str)
    : option result :=
  match matchAt r pv s with
  | Some y =>
      Some (Result i (take (length s - length (rest y)) s) (caps y))
  | None =>
      match s with
      | [] => None
      | c :: s' => search r (S i) (Some c) s'
      end
  end.

(** [s.match(r)] for a pattern without the [g] flag. *)
Definition exec (r : re) (s : str) : option result := search r 0 None s.

(** [s.replace(r, by)] for a pattern with the [g] flag and a replacement
    text without [$] patterns.  After an empty match the search position
    advances by one code unit. *)
Fixpoint replaceLoop (r : re) (by_ : str) (fuel : nat)
    (pv : option char) (s : str) : str :=
  match fuel with
  | O => s
  | S fuel' =>
      let copy :=
        match s with
        | [] => []
        | c :: s' => c :: replaceLoop r by_ fuel' (Some c) s'
        end in
      match matchAt r pv s with
      | Some y =>
          if (length (rest y) <? length s)%nat
          then by_ ++ replaceLoop r by_ fuel' (prev y) (rest y)
          else by_ ++ copy
      | None => copy
      end
  end.

Definition replaceAll (r : re) (by_ : str) (s : str) : str :=
  replaceLoop r by_ (S (length s)) None s.

(** [s.split(r)] for a pattern without capture groups and no limit.
    [piece] is the text of the current piece, from its start [p] to the
    search position [q]. *)
Fixpoint splitLoop (r : re) (fuel : nat) (pv : option char)
    (piece : str) (s : str) : list str :=
  match fuel with
  | O => [piece ++ s]
  | S fuel' =>
      match s with
      | [] => [piece]
      | c :: s' =>
          let advance := splitLoop r fuel' (Some c) (piece ++ [c]) s' in
          match matchAt r pv s with
          | Some y =>
              if (length (rest y) =? length s)%nat && negb (truthy piece)
              then advance
              else piece :: splitLoop r fuel' (prev y) [] (rest y)
          | None => advance
          end
      end
  end.

Definition splitRe (r : re) (s : str) : list str :=
  match s with
  | [] => match matchAt r None [] with Some _ => [] | None => [[]] end
  | _ => splitLoop r (2 * length s + 1) None [] s
  end.

End RegExp.

(** ** The JavaScript runtime

    Built-ins whose results the sources use but do not determine: dates and
    their renderings, Unicode lower-casing, base64, integer parsing and the
    clock-and-random stamp of MIME boundaries. *)
Module Runtime.
Import Js.

(** A JavaScript number: [NaN], an integer, or any other double (a
    fraction, an infinity), which is given by its 64 bits.  The sources
    compute with integers only; other values reach them in the fields of
    a message. *)
Inductive number : Type :=
| NaN
| Int (z : Z)
| Other (bits : N).

Class t : Type := {
  Date : Type;
  (** [d.toString()], [d.toUTCString()] *)
  Date_toString : Date -> str;
  Date_toUTCString : Date -> str;
  (** [d.toISOString()]; [None] is the [RangeError] thrown for a date
      whose time value is [NaN]. *)
  Date_toISOString : Date -> option str;
  (** The message of that [RangeError], which the engine chooses:
      "Invalid time value" in V8, "Invalid Date" in JavaScriptCore. *)
  Date_rangeMessage : str;
  (** [new Date(s)], [new Date(n)], [new Date()] / [new Date(Date.now())] *)
  Date_ofString : str -> Date;
  Date_ofNumber : number -> Date;
  Date_now : Date;
  (** [s.toLowerCase()] *)
  toLowerCase : str -> str;
  (** [buf.toString('base64')] and
      [Buffer.from(s, 'base64').toString('utf8')] *)
  Buffer_toBase64 : list N -> str;
  Buffer_decodeBase64 : str -> str;
  (** [parseInt(s)] *)
  parseInt : str -> number;
  (** The text of [`${Date.now()}_${Math.random().toString(36).substring(2)}`]
      at the n-th evaluation. *)
  boundaryStamp : nat -> str;
  (** [`${n}`] for a number [n] that is not an integer of the safe range:
      the shortest digits that read back as the same double, in exponent
      form from 1e21 on. *)
  Number_toString : number -> str
}.

(** [`${n}`]: an integer of absolute value below 2^53 prints its decimal
    digits; for every other number the text is the engine's. *)
Definition numberToString `{t} (n : number) : str :=
  match n with
  | NaN => lit "NaN"
  | Int z =>
      if (Z.abs z <? 2 ^ 53)%Z then zToString z else Number_toString n
  | Other _ => Number_toString n
  end.
End Runtime.

(** ** types.ts: the canonical message model *)
Module Types.
Import Js Runtime.

Inductive ProviderType : Type := gmail | imap | jmap.

Record EmailAddress : Type := {
  name : option str;
  address : str
}.

Record Attachment : Type := {
  filename : str;
  contentType : str;
  size : Z;
  content : option (list N);      (* a Buffer; any Buffer is truthy *)
  contentId : option str
}.

(** [string | string[]] *)
Inductive HeaderValue : Type :=
| HStr (s : str)
| HArr (l : list str).

(** [`${v}`]: an array renders as its elements joined by commas. *)
Definition headerValueToString (v : HeaderValue) : str :=
  match v with
  | HStr s => s
  | HArr l => join (lit ",") l
  end.

(** A [Record<string, V>] with its properties in enumeration order:
    the array indices first, in ascending order, then the other names in
    the order of their creation. *)
Definition object (V : Type) : Type := list (str * V).

(** An array index as a property name: the canonical decimal text of an
    integer from 0 to 2^32 - 2. *)
Definition indexKey (k : str) : option N :=
  match k with
  | [] => None
  | [48] => Some 0
  | 48 :: _ => None
  | _ =>
      if forallb isDigit k then
        let n := fold_left (fun acc c => acc * 10 + (c - 48)) k 0 in
        if n <? 2 ^ 32 - 1 then Some n else None
      else None
  end.

(** [o[k]] *)
Fixpoint get {V} (k : str) (o : object V) : option V :=
  match o with
  | [] => None
  | (k', v) :: o' => if decide (k' = k) then Some v else get k o'
  end.

(** [o[k] = v] for a property that exists: its place is kept. *)
Fixpoint update {V} (k : str) (v : V) (o : object V) : object V :=
  match o with
  | [] => []
  | (k', v') :: o' =>
      if decide (k' = k) then (k', v) :: o' else (k', v') :: update k v o'
  end.

(** A new property whose name is the array index [i]: it comes before the
    greater indices and before every other name. *)
Fixpoint insertIndex {V} (i : N) (k : str) (v : V) (o : object V)
    : object V :=
  match o with
  | [] => [(k, v)]
  | (k', v') :: o' =>
      match indexKey k' with
      | Some j =>
          if j <? i then (k', v') :: insertIndex i k v o' else (k, v) :: o
      | None => (k, v) :: o
      end
  end.

(** [o[k] = v] *)
Definition put {V} (k : str) (v : V) (o : object V) : object V :=
  match get k o with
  | Some _ => update k v o
  | None =>
      match indexKey k with
      | Some i => insertIndex i k v o
      | None => o ++ [(k, v)]
      end
  end.

(** [o[k] = v] for a string [v] on an object literal: an assignment to
    [__proto__] of a value that is not an object creates no property. *)
Definition setStr (k : str) (v : str) (o : object str) : object str :=
  if decide (k = lit "__proto__") then o else put k v o.

Section WithRuntime.
Context {rt : Runtime.t}.

(** [interface EmailMessage].  [headers] holds the properties of the
    headers object that are its own and enumerable, which is what
    [Object.entries] and [JSON.stringify] read of it. *)
Record EmailMessage : Type := {
  id : str;
  uid : number;
  subject : str;
  from : EmailAddress;
  to : list EmailAddress;
  cc : option (list EmailAddress);
  bcc : option (list EmailAddress);
  date : Date;
  headers : object HeaderValue;
  text : option str;
  html : option str;
  attachments : list Attachment;
  raw : option str;
  labels : option (list str);
  folder : option str;
  flags : option (list str)
}.
End WithRuntime.

Inductive Folder : Type := {
  f_name : str;
  f_path : str;
  f_delimiter : str;
  f_flags : option (list str);
  f_messageCount : option number;
  f_unreadCount : option number;
  f_children : option (list Folder)
}.
End Types.

(** ** exporters/mbox.ts *)
Module Mbox.
Import Js RegExp Runtime Types.

(** [/^From /gm] and [/^From /m] *)
Definition reFromLine : re := Seq (Bol true) (Lit (lit "From ")).

(** The set matched by [[^a-z0-9_\-]] under the [i] flag (no [u] flag):
    case folding adds A-Z to the excluded letters and, because a code unit
    of 128 or more never folds to an ASCII one, nothing else. *)
Definition notFolderSafe : cset :=
  fun c => negb (isLower c || isUpper c || isDigit c || (c =? 95) || (c =? 45)).

(** [/[^a-z0-9_\-]/gi] and [/_+/g] *)
Definition reUnsafe : re := Chars notFolderSafe.
Definition reUnderscores : re := Plus true (only 95).

(** The header pattern of [parseMessage], written here with spaces between
    its parts: [^ ( [^:]+ ) : \s* ( .* ) $], no flags. *)
Definition reHeader : re :=
  Seq (Bol false)
    (Seq (Group 1 (Plus true (except 58)))
       (Seq (Chars (only 58))
          (Seq (Star true isWhiteSpace)
             (Seq (Group 2 (Star true dot)) (Eol false))))).

(** The address pattern of [parseAddress], with Q for the double quote and
    spaces between its parts: [Q? ( [^Q]* ) Q? \s* < ( .+ ) >], no flags. *)
Definition reAddress : re :=
  Seq (Opt (only QUOTE))
    (Seq (Group 1 (Star true (except QUOTE)))
       (Seq (Opt (only QUOTE))
          (Seq (Star true isWhiteSpace)
             (Seq (Chars (only 60))
                (Seq (Group 2 (Plus true dot)) (Chars (only 62))))))).

Section WithRuntime.
Context {rt : Runtime.t}.

(** *** MboxExporter *)

Definition createFromLine (message : EmailMessage) : str :=
  let sender := orStr (address (from message)) (lit "unknown") in
  let date := Date_toString (date message) in
  lit "From " ++ sender ++ lit " " ++ date.

Definition formatAddress (addr : EmailAddress) : str :=
  if truthyOpt (name addr)
  then [QUOTE] ++ default [] (name addr) ++ [QUOTE] ++ lit " <"
         ++ address addr ++ lit ">"
  else address addr.

(** The n-th boundary drawn; the counter stands for the clock and the
    random generator. *)
Definition generateBoundary (n : nat) : str * nat :=
  (lit "----=_Part_" ++ boundaryStamp n, S n).

Definition hasAttachments (message : EmailMessage) : bool :=
  (0 <? length (attachments message))%nat.

Definition skippedHeaders : list str :=
  [lit "from"; lit "to"; lit "cc"; lit "subject"; lit "date";
   lit "message-id"; lit "content-type"].

Definition buildHeaders (message : EmailMessage) (n : nat)
    : list str * nat :=
  let h1 :=
    [lit "From: " ++ formatAddress (from message);
     lit "To: " ++ join (lit ", ") (List.map formatAddress (to message))] in
  let h2 :=
    match cc message with
    | Some (c :: cs) =>
        [lit "Cc: " ++ join (lit ", ") (List.map formatAddress (c :: cs))]
    | _ => []
    end in
  let h3 :=
    [lit "Subject: " ++ subject message;
     lit "Date: " ++ Date_toUTCString (date message);
     lit "Message-ID: " ++ id message] in
  let '(h4, n') :=
    if hasAttachments message then
      let '(boundary, n') := generateBoundary n in
      ([lit "Content-Type: multipart/mixed; boundary=" ++ [QUOTE]
          ++ boundary ++ [QUOTE]], n')
    else if truthyOpt (html message) then
      ([lit "Content-Type: text/html; charset=utf-8"], n)
    else
      ([lit "Content-Type: text/plain; charset=utf-8"], n) in
  let h5 :=
    flat_map
      (fun '(key, value) =>
         let lowerKey := toLowerCase key in
         if bool_decide (lowerKey ∈ skippedHeaders) then []
         else [key ++ lit ": " ++ headerValueToString value])
      (headers message) in
  (h1 ++ h2 ++ h3 ++ h4 ++ h5, n').

Definition attachmentLines (boundary : str) (attachment : Attachment)
    : list str :=
  [ [];
    lit "--" ++ boundary;
    lit "Content-Type: " ++ contentType attachment;
    lit "Content-Transfer-Encoding: base64";
    lit "Content-Disposition: attachment; filename=" ++ [QUOTE]
      ++ filename attachment ++ [QUOTE];
    [];
    match content attachment with
    | Some bytes => Buffer_toBase64 bytes
    | None => lit "[Attachment content not available]"
    end ].

Definition buildMultipartBody (message : EmailMessage) (boundary : str)
    : list str :=
  [lit "--" ++ boundary]
  ++ (if truthyOpt (html message)
      then [lit "Content-Type: text/html; charset=utf-8"; [];
            default [] (html message)]
      else [lit "Content-Type: text/plain; charset=utf-8"; [];
            orOpt (text message) []])
  ++ flat_map (attachmentLines boundary) (attachments message)
  ++ [ []; lit "--" ++ boundary ++ lit "--" ].

Definition reconstructRawMessage (message : EmailMessage) (n : nat)
    : str * nat :=
  let '(hs, n1) := buildHeaders message n in
  let '(body, n2) :=
    if hasAttachments message then
      let '(boundary, n2) := generateBoundary n1 in
      (buildMultipartBody message boundary, n2)
    else
      ([orStr (orOpt (html message) []) (orOpt (text message) [])], n1) in
  (join [LF] (hs ++ [[]] ++ body), n2).

(** [message.raw || this.reconstructRawMessage(message)] *)
Definition messageContent (message : EmailMessage) (n : nat)
    : str * nat :=
  if truthyOpt (raw message) then (default [] (raw message), n)
  else reconstructRawMessage message n.

(** [messageContent.replace(/^From /gm, '>From ')] *)
Definition escapeFromLines (messageContent : str) : str :=
  replaceAll reFromLine (lit ">From ") messageContent.

Definition messageToMboxEntry (message : EmailMessage) (n : nat)
    : str * nat :=
  let fromLine := createFromLine message in
  let '(content, n') := messageContent message n in
  let escapedContent := escapeFromLines content in
  (fromLine ++ [LF] ++ escapedContent ++ [LF; LF], n').

Fixpoint messagesToMboxFrom (messages : list EmailMessage) (n : nat)
    (mbox : str) : str * nat :=
  match messages with
  | [] => (mbox, n)
  | message :: rest =>
      let '(entry, n') := messageToMboxEntry message n in
      messagesToMboxFrom rest n' (mbox ++ entry)
  end.

Definition messagesToMbox (messages : list EmailMessage) (n : nat)
    : str * nat :=
  messagesToMboxFrom messages n [].

Definition sanitizeFolderName (folder : str) : str :=
  toLowerCase
    (replaceAll reUnderscores (lit "_")
       (replaceAll reUnsafe (lit "_") folder)).

(** *** MboxImporter *)

Definition parseAddress (addr : str) : EmailAddress :=
  match exec reAddress addr with
  | Some m =>
      {| name :=
           match group 1 (groups m) with
           | Some g => if truthy (trim g) then Some (trim g) else None
           | None => None
           end;
         address :=
           match group 2 (groups m) with
           | Some g => orStr (trim g) (trim addr)
           | None => trim addr
           end |}
  | None =>
      (* [[null, null, addr.trim()]] *)
      {| name := None;
         address := orStr (trim (trim addr)) (trim addr) |}
  end.

Definition parseAddresses (addrs : str) : list EmailAddress :=
  if truthy addrs
  then List.map (fun addr => parseAddress (trim addr)) (split 44 addrs)
  else [].

(** One header line of [parseMessage]: when the pattern matches and both
    groups are non-empty, [headers[match[1]] = match[2]]. *)
Definition recordHeader (line : str) (headers : object str) : object str :=
  match exec reHeader line with
  | Some m =>
      match group 1 (groups m), group 2 (groups m) with
      | Some k, Some v =>
          if truthy k && truthy v then setStr k v headers else headers
      | _, _ => headers
      end
  | None => headers
  end.

(** The header loop of [parseMessage]: returns the header object and
    [bodyStartIndex].  An empty line is skipped by [if (!line) continue]
    before the blank-line test is reached; the loop stops only at a line
    that is not empty and consists of white space. *)
Fixpoint parseHeaderLines (lines : list str) (i : nat)
    (headers : object str) : object str * nat :=
  match lines with
  | [] => (headers, 0%nat)
  | line :: rest =>
      if negb (truthy line) then parseHeaderLines rest (S i) headers
      else if negb (truthy (trim line)) then (headers, S i)
      else parseHeaderLines rest (S i) (recordHeader line headers)
  end.

Definition parseMessage (content : str) (uid : nat) : EmailMessage :=
  let lines := split LF content in
  let '(headers, bodyStartIndex) := parseHeaderLines lines 0 [] in
  let body := join [LF] (drop bodyStartIndex lines) in
  {| id := orOpt (get (lit "Message-ID") headers) (natToString uid);
     uid := Int (Z.of_nat uid);
     subject := orOpt (get (lit "Subject") headers) (lit "(No Subject)");
     from := parseAddress (orOpt (get (lit "From") headers) (lit "unknown"));
     to := parseAddresses (orOpt (get (lit "To") headers) []);
     cc := Some (parseAddresses (orOpt (get (lit "Cc") headers) []));
     bcc := None;
     date :=
       match get (lit "Date") headers with
       | Some d => if truthy d then Date_ofString d else Date_now
       | None => Date_now
       end;
     headers := List.map (fun '(k, v) => (k, HStr v)) headers;
     text := Some body;
     html := None;
     attachments := [];
     raw := Some content;
     labels := None;
     folder := None;
     flags := None |}.

(** The loop of [parseMbox]; [parseMessage] raises no exception, so the
    [catch] branch is never taken. *)
Fixpoint parseEntries (entries : list str) (i : nat) : list EmailMessage :=
  match entries with
  | [] => []
  | entry :: rest =>
      if negb (truthy entry) then parseEntries rest (S i)
      else
        let messageContent :=
          substring (indexOf LF entry + 1) entry in
        parseMessage messageContent (i + 1) :: parseEntries rest (S i)
  end.

Definition parseMbox (content : str) : list EmailMessage :=
  let entries :=
    List.filter (fun entry => truthy (trim entry))
      (splitRe reFromLine content) in
  parseEntries entries 0.

End WithRuntime.
End Mbox.

(** ** Exceptions and instance state

    An [async] method of a provider is a state transformer on the fields of
    the instance that either returns a value (the promise is fulfilled) or
    throws (the promise is rejected).  Calls are awaited one after another,
    as the sources do. *)
Module Effect.
Import Js.

Record JsError : Type := { errName : str; errMessage : str }.

(** [new Error(message)] *)
Definition newError (message : str) : JsError :=
  {| errName := lit "Error"; errMessage := message |}.
Definition typeError (message : str) : JsError :=
  {| errName := lit "TypeError"; errMessage := message |}.
Definition rangeError (message : str) : JsError :=
  {| errName := lit "RangeError"; errMessage := message |}.

(** [`${error}`], that is [Error.prototype.toString]. *)
Definition errorToString (e : JsError) : str :=
  if negb (truthy (errName e)) then errMessage e
  else if negb (truthy (errMessage e)) then errName e
  else errName e ++ lit ": " ++ errMessage e.

Inductive outcome (A : Type) : Type :=
| Returned (a : A)
| Thrown (e : JsError).
Arguments Returned {A} a.
Arguments Thrown {A} e.

Definition M (S A : Type) : Type := S -> outcome A * S.

Definition ret {S A} (a : A) : M S A := fun s => (Returned a, s).
Definition throw {S A} (e : JsError) : M S A := fun s => (Thrown e, s).
Definition bind {S A B} (m : M S A) (k : A -> M S B) : M S B :=
  fun s =>
    match m s with
    | (Returned a, s') => k a s'
    | (Thrown e, s') => (Thrown e, s')
    end.
(** [try { m } catch (error) { h error }]: the handler runs in the state
    the body left behind. *)
Definition tryCatch {S A} (m : M S A) (h : JsError -> M S A) : M S A :=
  fun s =>
    match m s with
    | (Returned a, s') => (Returned a, s')
    | (Thrown e, s') => h e s'
    end.
Definition gets {S A} (f : S -> A) : M S A := fun s => (Returned (f s), s).
Definition modify {S} (f : S -> S) : M S unit := fun s => (Returned tt, f s).
(** The outcome of a call into a library or a remote server. *)
Definition lift {S A} (o : outcome A) : M S A := fun s => (o, s).

(** Whether a call returned. *)
Definition succeeded {A} (o : outcome A) : bool :=
  match o with Returned _ => true | Thrown _ => false end.

(** [for (const x of xs) { await body(x) }] *)
Fixpoint forEach {S A} (xs : list A) (body : A -> M S unit) : M S unit :=
  match xs with
  | [] => ret tt
  | x :: xs' => bind (body x) (fun _ => forEach xs' body)
  end.

(** [xs.map(f)] for an [f] that may throw. *)
Fixpoint mapOutcome {A B} (f : A -> outcome B) (xs : list A)
    : outcome (list B) :=
  match xs with
  | [] => Returned []
  | x :: xs' =>
      match f x with
      | Thrown e => Thrown e
      | Returned y =>
          match mapOutcome f xs' with
          | Thrown e => Thrown e
          | Returned ys => Returned (y :: ys)
          end
      end
  end.
End Effect.

Declare Scope effect_scope.
Delimit Scope effect_scope with effect.
Notation "x <- m ;; k" := (Effect.bind m (fun x => k))
  (at level 100, m at next level, right associativity) : effect_scope.
Notation "m ;; k" := (Effect.bind m (fun _ => k))
  (at level 100, right associativity) : effect_scope.

(** ** exporters/eml.ts: EmlExporter and JsonExporter *)
Module Eml.
Import Js RegExp Runtime Types.
Section WithRuntime.
Context {rt : Runtime.t}.

(** [EmlExporter.sanitizeFolderName] *)
Definition sanitizeFolderName (folder : str) : str :=
  toLowerCase
    (replaceAll (Plus true (only 95)) (lit "_")
       (replaceAll (Chars Mbox.notFolderSafe) (lit "_") folder)).
End WithRuntime.
End Eml.

Module Json.
Import Js RegExp Runtime Types Effect.

(** JavaScript values as [JSON.stringify] looks at them. *)
Inductive value : Type :=
| VUndefined
| VBool (b : bool)
| VNumber (n : number)
| VString (s : str)
| VArray (l : list value)
| VObject (props : list (str * value)).

Definition optional {A} (f : A -> value) (o : option A) : value :=
  match o with Some a => f a | None => VUndefined end.

Definition addressValue (a : EmailAddress) : value :=
  VObject [(lit "name", optional VString (name a));
           (lit "address", VString (address a))].

Definition headerValue (v : HeaderValue) : value :=
  match v with
  | HStr s => VString s
  | HArr l => VArray (List.map VString l)
  end.

Definition strings (l : list str) : value := VArray (List.map VString l).
Definition addresses (l : list EmailAddress) : value :=
  VArray (List.map addressValue l).

Section WithRuntime.
Context {rt : Runtime.t}.

(** The object built for one attachment; [!!att.content] is true for
    every Buffer. *)
Definition attachmentToJson (att : Attachment) : value :=
  VObject [(lit "filename", VString (filename att));
           (lit "contentType", VString (contentType att));
           (lit "size", VNumber (Int (size att)));
           (lit "hasContent", VBool (bool_decide (is_Some (content att))))].

(** The object built for one message; [toISOString] throws on a date
    that is not a valid time. *)
Definition messageToJson (msg : EmailMessage) : outcome value :=
  match Date_toISOString (date msg) with
  | None => Thrown (rangeError Date_rangeMessage)
  | Some iso =>
      Returned
        (VObject
           [(lit "id", VString (id msg));
            (lit "uid", VNumber (uid msg));
            (lit "subject", VString (subject msg));
            (lit "from", addressValue (from msg));
            (lit "to", addresses (to msg));
            (lit "cc", optional addresses (cc msg));
            (lit "bcc", optional addresses (bcc msg));
            (lit "date", VString iso);
            (lit "headers",
             VObject (List.map (fun '(k, v) => (k, headerValue v))
                        (headers msg)));
            (lit "text", optional VString (text msg));
            (lit "html", optional VString (html msg));
            (lit "attachments",
             VArray (List.map attachmentToJson (attachments msg)));
            (lit "labels", optional strings (labels msg));
            (lit "folder", optional VString (folder msg));
            (lit "flags", optional strings (flags msg))])
  end.

(** [JsonExporter.messagesToJson] *)
Definition messagesToJson (messages : list EmailMessage)
    : outcome (list value) :=
  mapOutcome messageToJson messages.

(** [JsonExporter.sanitizeFolderName] *)
Definition sanitizeFolderName (folder : str) : str :=
  toLowerCase
    (replaceAll (Plus true (only 95)) (lit "_")
       (replaceAll (Chars Mbox.notFolderSafe) (lit "_") folder)).
End WithRuntime.

(** [o[k]] on a value. *)
Definition field (k : str) (v : value) : option value :=
  match v with
  | VObject props => get k props
  | _ => None
  end.
Definition keys (v : value) : list str :=
  match v with
  | VObject props => List.map fst props
  | _ => []
  end.
End Json.

(** ** Writing the exports: [export], [exportByFolder], [exportMessage]

    What the exporters do to the file system.  [Bun.write] replaces the
    file at a path; [path.join], [JSON.stringify] and the failure of a
    write are the host's. *)
Module Host.
Import Js Effect.

Record t : Type := {
  (** [join(dir, name)] of the path module *)
  pathJoin : str -> str -> str;
  (** [JSON.stringify(v, null, 2)] *)
  stringify : Json.value -> str;
  (** The error of [Bun.write(path, content)] on the files as they are,
      when the write fails. *)
  writeError : gmap (list N) str -> str -> str -> option JsError
}.

(** The files, and the number of MIME boundaries drawn so far. *)
Record Disk : Type := { files : gmap (list N) str; drawn : nat }.

Definition setDrawn (n : nat) (s : Disk) : Disk :=
  {| files := files s; drawn := n |}.

(** [await Bun.write(path, content)]; a write that fails leaves the
    files as they were. *)
Definition write (h : t) (path content : str) : M Disk unit :=
  fun s =>
    match writeError h (files s) path content with
    | Some e => (Thrown e, s)
    | None =>
        (Returned tt,
         {| files := <[path := content]> (files s); drawn := drawn s |})
    end.
End Host.

(** *** MboxExporter *)
Module MboxExporter.
Import Js Runtime Types Effect Host.
Local Open Scope effect_scope.
Section WithRuntime.
Context {rt : Runtime.t}.

Definition export (h : Host.t) (messages : list EmailMessage)
    (outputPath : str) : M Disk unit :=
  n <- gets drawn ;;
  let '(mboxContent, n') := Mbox.messagesToMbox messages n in
  modify (setDrawn n') ;;
  tryCatch (write h outputPath mboxContent)
    (fun error =>
       throw (newError (lit "Failed to write MBOX file: "
                          ++ errorToString error))).

Definition exportByFolder (h : Host.t)
    (messagesByFolder : list (str * list EmailMessage)) (outputDir : str)
    : M Disk unit :=
  forEach messagesByFolder
    (fun '(folder, messages) =>
       let safeFolder := Mbox.sanitizeFolderName folder in
       let outputPath := pathJoin h outputDir (safeFolder ++ lit ".mbox") in
       export h messages outputPath).
End WithRuntime.
End MboxExporter.

(** *** EmlExporter *)
Module EmlExporter.
Import Js RegExp Runtime Types Effect Host.
Local Open Scope effect_scope.

(** The set matched by [[^a-z0-9_\-\s]] under the [i] flag. *)
Definition notFileSafe : cset :=
  fun c => negb (isLower c || isUpper c || isDigit c || (c =? 95)
                 || (c =? 45) || isWhiteSpace c).

Definition sanitizeFilename (name : str) : str :=
  replaceAll (Plus true (only 95)) (lit "_")
    (replaceAll (Plus true isWhiteSpace) (lit "_")
       (replaceAll (Chars notFileSafe) (lit "_") name)).

(** [s.padStart(targetLength, '0')] *)
Definition padStart (targetLength : nat) (s : str) : str :=
  replicate (targetLength - length s) 48 ++ s.

Section WithRuntime.
Context {rt : Runtime.t}.

Definition formatAddress (addr : EmailAddress) : str :=
  if truthyOpt (name addr)
  then [QUOTE] ++ default [] (name addr) ++ [QUOTE] ++ lit " <"
         ++ address addr ++ lit ">"
  else address addr.

Definition reconstructEml (message : EmailMessage) : str :=
  let l1 :=
    [lit "From: " ++ formatAddress (from message);
     lit "To: " ++ join (lit ", ") (List.map formatAddress (to message))] in
  let l2 :=
    match cc message with
    | Some (c :: cs) =>
        [lit "Cc: " ++ join (lit ", ") (List.map formatAddress (c :: cs))]
    | _ => []
    end in
  let l3 :=
    [lit "Subject: " ++ subject message;
     lit "Date: " ++ Date_toUTCString (date message);
     lit "Message-ID: " ++ id message] in
  let l4 :=
    if truthyOpt (html message)
    then [lit "Content-Type: text/html; charset=utf-8"]
    else [lit "Content-Type: text/plain; charset=utf-8"] in
  let l5 :=
    [ []; orStr (orOpt (html message) []) (orOpt (text message) []) ] in
  join [LF] (l1 ++ l2 ++ l3 ++ l4 ++ l5).

(** [toISOString] throws on a date that is not a valid time. *)
Definition generateFilename (message : EmailMessage) : outcome str :=
  match Date_toISOString (date message) with
  | None => Thrown (rangeError Date_rangeMessage)
  | Some iso =>
      let date := default [] (head (split 84 iso)) in
      let subject := take 50 (sanitizeFilename (subject message)) in
      let id := padStart 6 (numberToString (uid message)) in
      Returned (date ++ lit "_" ++ id ++ lit "_" ++ subject ++ lit ".eml")
  end.

(** [message.raw || this.reconstructEml(message)] *)
Definition emlContent (message : EmailMessage) : str :=
  if truthyOpt (raw message) then default [] (raw message)
  else reconstructEml message.

Definition exportMessage (h : Host.t) (message : EmailMessage)
    (outputDir : str) : M Disk unit :=
  filename <- lift (generateFilename message) ;;
  let filepath := pathJoin h outputDir filename in
  tryCatch (write h filepath (emlContent message))
    (fun error =>
       throw (newError (lit "Failed to write EML file " ++ filename
                          ++ lit ": " ++ errorToString error))).

Definition export (h : Host.t) (messages : list EmailMessage)
    (outputDir : str) : M Disk unit :=
  forEach messages (fun message => exportMessage h message outputDir).

Definition exportByFolder (h : Host.t)
    (messagesByFolder : list (str * list EmailMessage)) (outputDir : str)
    : M Disk unit :=
  forEach messagesByFolder
    (fun '(folder, messages) =>
       let safeFolder := Eml.sanitizeFolderName folder in
       let folderDir := pathJoin h outputDir safeFolder in
       export h messages folderDir).
End WithRuntime.
End EmlExporter.

(** *** JsonExporter *)
Module JsonExporter.
Import Js Runtime Types Effect Host.
Local Open Scope effect_scope.
Section WithRuntime.
Context {rt : Runtime.t}.

(** [messagesToJson] runs before the [try]: its exception is not
    wrapped. *)
Definition export (h : Host.t) (messages : list EmailMessage)
    (outputPath : str) : M Disk unit :=
  jsonData <- lift (Json.messagesToJson messages) ;;
  tryCatch (write h outputPath (stringify h (Json.VArray jsonData)))
    (fun error =>
       throw (newError (lit "Failed to write JSON file: "
                          ++ errorToString error))).

Definition exportByFolder (h : Host.t)
    (messagesByFolder : list (str * list EmailMessage)) (outputDir : str)
    : M Disk unit :=
  forEach messagesByFolder
    (fun '(folder, messages) =>
       let safeFolder := Json.sanitizeFolderName folder in
       let outputPath := pathJoin h outputDir (safeFolder ++ lit ".json") in
       export h messages outputPath).
End WithRuntime.
End JsonExporter.

(** ** utils/cli.ts

    [parsed.options] is an object used as a map from option names to
    values; the order of its properties is not modelled.  It is created as
    [{}], so that a name it does not hold itself is looked up in
    [Object.prototype]; assigning an array to the name [__proto__] makes
    that array the prototype instead.  Which names the two prototypes of
    the host provide is the host's. *)
Module Cli.
Import Js.

(** The values found under a name: a string, [true], an array, a number
    (the [length] of an array) and anything else a prototype provides (a
    function, a prototype object). *)
Inductive value : Type :=
| VStr (s : str)
| VTrue
| VArr (l : list value)
| VNum (n : nat)
| VOther.

Definition truthyValue (v : value) : bool :=
  match v with
  | VStr s => truthy s
  | VNum n => negb (n =? 0)%nat
  | _ => true
  end.

(** The names that [Object.prototype] and an array (through
    [Array.prototype] and [Object.prototype]) provide, apart from
    [__proto__], [length] and the indices. *)
Record Prototypes : Type := {
  objectHas : str -> bool;
  arrayHas : str -> bool
}.

Inductive proto : Type :=
| ObjectProto
| ArrayProto (elems : list value).

Record Options : Type := { own : gmap (list N) value; chain : proto }.

Record ParsedArgs : Type := {
  command : list str;
  options : Options;
  flags : gset (list N)
}.

Definition protoName : str := lit "__proto__".

(** The element of an array under the name of an index. *)
Definition atIndex (elems : list value) (key : str) : option value :=
  match
    list_find (fun i => bool_decide (natToString i = key))
      (seq 0 (length elems))
  with
  | Some (_, i) => elems !! i
  | None => None
  end.

Section WithPrototypes.
Context (P : Prototypes).

(** [options[key]]; [None] is [undefined]. *)
Definition get (o : Options) (key : str) : option value :=
  match own o !! key with
  | Some v => Some v
  | None =>
      match chain o with
      | ObjectProto =>
          if bool_decide (key = protoName) then Some VOther
          else if objectHas P key then Some VOther
          else None
      | ArrayProto elems =>
          if bool_decide (key = protoName) then Some (VArr elems)
          else
            match atIndex elems key with
            | Some v => Some v
            | None =>
                if bool_decide (key = lit "length")
                then Some (VNum (length elems))
                else if arrayHas P key then Some VOther
                else None
            end
      end
  end.

(** [options[key] = v]: under the name [__proto__] an array becomes the
    prototype and any other value is dropped. *)
Definition set (o : Options) (key : str) (v : value) : Options :=
  if bool_decide (key = protoName) then
    match v with
    | VArr l => {| own := own o; chain := ArrayProto l |}
    | _ => o
    end
  else {| own := <[key := v]> (own o); chain := chain o |}.

(** [existing.push(v)] for the array found under [key]: the array is a
    property of the object itself, or it is the prototype. *)
Definition push (o : Options) (key : str) (v : value) : Options :=
  match own o !! key with
  | Some (VArr l) =>
      {| own := <[key := VArr (l ++ [v])]> (own o); chain := chain o |}
  | _ =>
      match chain o with
      | ArrayProto elems =>
          {| own := own o; chain := ArrayProto (elems ++ [v]) |}
      | ObjectProto => o
      end
  end.

Definition withOptions (f : Options -> Options) (parsed : ParsedArgs)
    : ParsedArgs :=
  {| command := command parsed; options := f (options parsed);
     flags := flags parsed |}.

(** [--option=value] *)
Definition setOption (key value : str) (parsed : ParsedArgs) : ParsedArgs :=
  withOptions (fun o => set o key (VStr value)) parsed.

(** [--option value]: a second value makes an array, further values are
    pushed. *)
Definition addValue (key nextArg : str) (parsed : ParsedArgs)
    : ParsedArgs :=
  withOptions
    (fun o =>
       match get o key with
       | Some existing =>
           if truthyValue existing then
             match existing with
             | VArr _ => push o key (VStr nextArg)
             | _ => set o key (VArr [existing; VStr nextArg])
             end
           else set o key (VStr nextArg)
       | None => set o key (VStr nextArg)
       end)
    parsed.

(** [parsed.flags.add(key); parsed.options[key] = true] *)
Definition setFlag (key : str) (parsed : ParsedArgs) : ParsedArgs :=
  {| command := command parsed;
     options := set (options parsed) key VTrue;
     flags := {[ key ]} ∪ flags parsed |}.

Definition pushCommand (arg : str) (parsed : ParsedArgs) : ParsedArgs :=
  {| command := command parsed ++ [arg]; options := options parsed;
     flags := flags parsed |}.

(** The loop of [parseArgs] from the argument at hand. *)
Fixpoint parseLoop (args : list str) (parsed : ParsedArgs) : ParsedArgs :=
  match args with
  | [] => parsed
  | arg :: rest =>
      if negb (truthy arg) then parseLoop rest parsed
      else if startsWith (lit "--") arg && bool_decide (61 ∈ arg) then
        match split 61 (drop 2 arg) with
        | key :: valueParts =>
            if truthy key
            then parseLoop rest (setOption key (join [61] valueParts) parsed)
            else parseLoop rest parsed
        | [] => parseLoop rest parsed
        end
      else if startsWith (lit "--") arg then
        let key := drop 2 arg in
        match rest with
        | nextArg :: rest' =>
            if truthy nextArg && negb (startsWith (lit "-") nextArg)
            then parseLoop rest' (addValue key nextArg parsed)
            else parseLoop rest (setFlag key parsed)
        | [] => setFlag key parsed
        end
      else if startsWith (lit "-") arg && (1 <? length arg)%nat
              && negb (startsWith (lit "--") arg) then
        parseLoop rest
          (fold_left (fun p flag => setFlag [flag] p) (drop 1 arg) parsed)
      else parseLoop rest (pushCommand arg parsed)
  end.

Definition parseArgs (args : list str) : ParsedArgs :=
  parseLoop args
    {| command := [];
       options := {| own := ∅; chain := ObjectProto |};
       flags := ∅ |}.

(** [getOption]; [None] is [undefined]. *)
Definition getOption (parsed : ParsedArgs) (name : str)
    (defaultValue : option str) : option value :=
  match get (options parsed) name with
  | None => option_map VStr defaultValue
  | Some VTrue => option_map VStr defaultValue
  | Some (VArr l) => head l
  | Some v => Some v
  end.

Definition getArrayOption (parsed : ParsedArgs) (name : str) : list value :=
  match get (options parsed) name with
  | Some (VArr l) => l
  | Some (VStr s) => [VStr s]
  | _ => []
  end.

Definition hasFlag (parsed : ParsedArgs) (name : str) : bool :=
  bool_decide (name ∈ flags parsed)
  || match get (options parsed) name with
     | Some VTrue => true
     | _ => false
     end.
End WithPrototypes.
End Cli.

(** ** providers/base.ts *)
Module Base.
Import Js Runtime Types Effect.
Local Open Scope effect_scope.

(** The message of the error thrown by [ensureConnected]; the
    specification calls this error NotConnectedError. *)
Definition notConnectedError : JsError :=
  newError (lit "Provider not connected. Call connect() first.").

(** [BaseEmailProvider.ensureConnected], over the [connected] field of
    the instance. *)
Definition ensureConnected {S} (connected : S -> bool) : M S unit :=
  fun s =>
    if negb (connected s) then (Thrown notConnectedError, s)
    else (Returned tt, s).

(** [interface IEmailProvider], with [isConnected] of the base class.
    [Env] is what the remote side answers during one call; [handlers] are
    the event handlers an instance registers and that may run between two
    calls. *)
Class IEmailProvider `{rt : Runtime.t} (S Env : Type) : Type := {
  connect : Env -> M S unit;
  disconnect : Env -> M S unit;
  testConnection : Env -> M S bool;
  getFolders : Env -> M S (list Folder);
  getMessages : Env -> str -> Z -> M S (list EmailMessage);
  getMessage : Env -> str -> str -> M S EmailMessage;
  uploadMessages : Env -> str -> list EmailMessage -> M S unit;
  createFolder : Env -> str -> M S unit;
  deleteFolder : Env -> str -> M S unit;
  getTotalMessageCount : Env -> M S number;
  isConnected : S -> bool;
  handlers : list (S -> S)
}.

Section Calls.
Context `{rt : Runtime.t} {S Env : Type} `{!IEmailProvider S Env}.

(** The six data-fetching operations of the interface. *)
Inductive DataCall : Type :=
| CallGetFolders
| CallGetMessages (folder : str) (limit : Z)
| CallGetMessage (folder id : str)
| CallUploadMessages (folder : str) (messages : list EmailMessage)
| CallCreateFolder (folderPath : str)
| CallDeleteFolder (folderPath : str).

Inductive DataResult : Type :=
| GotFolders (folders : list Folder)
| GotMessages (messages : list EmailMessage)
| GotMessage (message : EmailMessage)
| Done.

Definition call (env : Env) (c : DataCall) : M S DataResult :=
  match c with
  | CallGetFolders => r <- getFolders env ;; ret (GotFolders r)
  | CallGetMessages folder limit =>
      r <- getMessages env folder limit ;; ret (GotMessages r)
  | CallGetMessage folder id =>
      r <- getMessage env folder id ;; ret (GotMessage r)
  | CallUploadMessages folder messages =>
      uploadMessages env folder messages ;; ret Done
  | CallCreateFolder path => createFolder env path ;; ret Done
  | CallDeleteFolder path => deleteFolder env path ;; ret Done
  end.

(** Data-fetching calls made one after another, each against its own
    answers of the remote side; the outcomes are collected. *)
Fixpoint calls (cs : list (Env * DataCall)) (s : S)
    : list (outcome DataResult) * S :=
  match cs with
  | [] => ([], s)
  | (env, c) :: cs' =>
      let '(o, s') := call env c s in
      let '(os, s'') := calls cs' s' in
      (o :: os, s'')
  end.

(** The states an instance created as [init] can be in. *)
Inductive Reachable (init : S) : S -> Prop :=
| reach_new : Reachable init init
| reach_connect env s :
    Reachable init s -> Reachable init (snd (connect env s))
| reach_disconnect env s :
    Reachable init s -> Reachable init (snd (disconnect env s))
| reach_testConnection env s :
    Reachable init s -> Reachable init (snd (testConnection env s))
| reach_call env c s :
    Reachable init s -> Reachable init (snd (call env c s))
| reach_count env s :
    Reachable init s -> Reachable init (snd (getTotalMessageCount env s))
| reach_event h s :
    h ∈ handlers -> Reachable init s -> Reachable init (h s).
End Calls.
End Base.

(** ** providers/imap.ts *)
Module Imap.
Import Js Runtime Types Effect Base.
Local Open Scope effect_scope.

Record ImapConfig : Type := {
  user : str; password : str; host : str; port : Z; tls : bool
}.

(** A mailbox as [getBoxes] of the IMAP library reports it. *)
Inductive Box : Type :=
  MkBox (delimiter : str) (attribs : option (list str))
        (children : option (list (str * Box))).

(** A message as the fetch stream delivers it: the body chunks
    concatenated, and the uid of the attributes event (0 when there was
    none). *)
Record Fetched : Type := { buffer : str; attrUid : number }.

Section WithRuntime.
Context {rt : Runtime.t}.

(** The result of [simpleParser] of the mail-parsing library. *)
Record AddressObject : Type := { value : option (list EmailAddress) }.
Record ParsedMail : Type := {
  p_messageId : option str;
  p_subject : option str;
  p_from : option AddressObject;
  p_to : option AddressObject;
  p_cc : option AddressObject;
  p_bcc : option AddressObject;
  p_date : option Date;
  p_headers : option (list (str * HeaderValue));   (* a [Map] *)
  p_text : option str;
  p_html : option str;
  p_attachments : option (list Attachment);
  p_raw : option str
}.

(** What the IMAP library and the server answer during one call.
    [onConnect] is [None] when the library emits 'ready' and the error
    when it emits 'error'.  A fetch delivers messages and then ends or
    fails. *)
Record Server : Type := {
  onConnect : option JsError;
  getBoxes : outcome (list (str * Box));
  openBox : str -> bool -> outcome Z;       (* [box.messages.total] *)
  seqFetch : str -> list Fetched * option JsError;
  fetchIds : list str -> list Fetched * option JsError;
  simpleParser : str -> outcome ParsedMail;
  (** Of the messages a fetch has delivered, those whose parse has settled
      when the fetch ends, in the order in which the parses settled: the
      parser is asynchronous and the end of the fetch does not wait for
      it. *)
  settled : list Fetched -> list Fetched;
  append : EmailMessage -> str -> option JsError;
  addBox : str -> option JsError;
  delBox : str -> option JsError
}.

(** Requests made to the library, kept as a trace. *)
Inductive Request : Type :=
| ReqConnect
| ReqEnd
| ReqGetBoxes
| ReqOpenBox (folder : str) (readOnly : bool)
| ReqSeqFetch (range : str)
| ReqFetch (ids : list str)
| ReqAppend (folder : str)
| ReqAddBox (path : str)
| ReqDelBox (path : str).

(** The fields of an [ImapProvider]; [trace] records the requests. *)
Record t : Type := {
  imap : option ImapConfig;
  config : ImapConfig;
  connected : bool;
  trace : list Request
}.

Definition create (cfg : ImapConfig) : t :=
  {| imap := None; config := cfg; connected := false; trace := [] |}.

Definition setImap (v : option ImapConfig) (s : t) : t :=
  {| imap := v; config := config s; connected := connected s;
     trace := trace s |}.
Definition setConnected (b : bool) (s : t) : t :=
  {| imap := imap s; config := config s; connected := b;
     trace := trace s |}.
Definition request (r : Request) : M t unit :=
  modify (fun s =>
    {| imap := imap s; config := config s; connected := connected s;
       trace := trace s ++ [r] |}).

(** [this.imap!]: using the client when the field is null is a
    TypeError. *)
Definition client : M t unit :=
  fun s =>
    match imap s with
    | Some _ => (Returned tt, s)
    | None =>
        (Thrown (typeError (lit "null is not an object")), s)
    end.

(** A callback result [(err, x)]: reject on [err]. *)
Definition rejectOn (e : option JsError) : M t unit :=
  match e with Some err => throw err | None => ret tt end.

Definition connect (sv : Server) : M t unit :=
  s <- gets config ;;
  modify (setImap (Some s)) ;;
  request ReqConnect ;;
  match onConnect sv with
  | None => modify (setConnected true) ;; ret tt
  | Some err => modify (setConnected false) ;; throw err
  end.

(** The 'end' and 'error' handlers registered by [connect]. *)
Definition onEnd (s : t) : t := setConnected false s.
Definition onError (s : t) : t := setConnected false s.

Definition disconnect (sv : Server) : M t unit :=
  c <- gets imap ;;
  match c with
  | Some _ =>
      request ReqEnd ;;
      modify (setImap None) ;;
      modify (setConnected false)
  | None => ret tt
  end.

Definition testConnection (sv : Server) : M t bool :=
  tryCatch
    (connect sv ;; disconnect sv ;; ret true)
    (fun error => ret false).

Fixpoint parseBox (parentPath : str) (name : str) (box : Box) : Folder :=
  match box with
  | MkBox delimiter attribs children =>
      let path :=
        if truthy parentPath then parentPath ++ delimiter ++ name
        else name in
      {| f_name := name;
         f_path := path;
         f_delimiter := delimiter;
         f_flags := Some (default [] attribs);
         f_messageCount := None;
         f_unreadCount := None;
         f_children :=
           match children with
           | Some cs =>
               Some (List.map (fun nb => parseBox path (fst nb) (snd nb)) cs)
           | None => None
           end |}
  end.

Definition parseBoxes (boxes : list (str * Box)) : list Folder :=
  List.map (fun nb => parseBox [] (fst nb) (snd nb)) boxes.

Definition getFolders (sv : Server) : M t (list Folder) :=
  ensureConnected connected ;;
  client ;;
  request ReqGetBoxes ;;
  boxes <- lift (getBoxes sv) ;;
  ret (parseBoxes boxes).

(** [parseMessage].  The headers of a parsed mail are a [Map]; as the
    value of the field [headers] it is an object without a property of
    its own, whatever its entries are, and so is the [{}] taken when the
    parser gives no headers. *)
Definition parseMessage (parsed : ParsedMail) (uid : number)
    (folder : str) : EmailMessage :=
  {| id := orOpt (p_messageId parsed) (numberToString uid);
     uid := uid;
     subject := orOpt (p_subject parsed) (lit "(No Subject)");
     from :=
       match p_from parsed with
       | Some {| value := Some (a :: _) |} => a
       | _ => {| name := None; address := lit "unknown" |}
       end;
     to :=
       match p_to parsed with
       | Some {| value := Some l |} => l
       | _ => []
       end;
     cc := match p_cc parsed with Some a => value a | None => None end;
     bcc := match p_bcc parsed with Some a => value a | None => None end;
     date := default Date_now (p_date parsed);
     headers := [];
     text := p_text parsed;
     html := p_html parsed;
     attachments := default [] (p_attachments parsed);
     raw := p_raw parsed;
     labels := None;
     folder := Some folder;
     flags := Some [] |}.

(** The first sequence number fetched by [getMessages]. *)
Definition fetchStart (limit totalMessages : Z) : Z :=
  if (0 <? limit)%Z && (limit <? totalMessages)%Z
  then (totalMessages - limit + 1)%Z
  else 1%Z.

Definition fetchRange (limit totalMessages : Z) : str :=
  zToString (fetchStart limit totalMessages) ++ lit ":"
    ++ zToString totalMessages.

(** The messages that the parser accepts, in order; a message that fails
    to parse is logged and left out. *)
Fixpoint parseFetched (sv : Server) (folder : str) (ms : list Fetched)
    : list EmailMessage :=
  match ms with
  | [] => []
  | m :: ms' =>
      match simpleParser sv (buffer m) with
      | Returned parsed =>
          parseMessage parsed (attrUid m) folder
            :: parseFetched sv folder ms'
      | Thrown _ => parseFetched sv folder ms'
      end
  end.

(** [getMessages]: the promise resolves when the fetch ends, with the
    messages pushed by then. *)
Definition getMessages (sv : Server) (folder : str) (limit : Z)
    : M t (list EmailMessage) :=
  ensureConnected connected ;;
  client ;;
  request (ReqOpenBox folder true) ;;
  totalMessages <- lift (openBox sv folder true) ;;
  if (totalMessages =? 0)%Z then ret []
  else
    let range := fetchRange limit totalMessages in
    client ;;
    request (ReqSeqFetch range) ;;
    let '(delivered, failure) := seqFetch sv range in
    rejectOn failure ;;
    ret (parseFetched sv folder (settled sv delivered)).

(** [getMessage]: of the messages parsed when the fetch ends the last
    one is the result; a parse failure rejects. *)
Fixpoint lastParsed (sv : Server) (folder : str) (ms : list Fetched)
    (message : option EmailMessage) : outcome (option EmailMessage) :=
  match ms with
  | [] => Returned message
  | m :: ms' =>
      match simpleParser sv (buffer m) with
      | Returned parsed =>
          lastParsed sv folder ms'
            (Some (parseMessage parsed (attrUid m) folder))
      | Thrown e => Thrown e
      end
  end.

Definition getMessage (sv : Server) (folder id : str)
    : M t EmailMessage :=
  ensureConnected connected ;;
  client ;;
  request (ReqOpenBox folder true) ;;
  _ <- lift (openBox sv folder true) ;;
  client ;;
  request (ReqFetch [id]) ;;
  let '(delivered, failure) := fetchIds sv [id] in
  message <- lift (lastParsed sv folder (settled sv delivered) None) ;;
  rejectOn failure ;;
  match message with
  | Some m => ret m
  | None =>
      throw (newError (lit "Message " ++ id ++ lit " not found"))
  end.

Definition uploadMessage (sv : Server) (folder : str)
    (message : EmailMessage) : M t unit :=
  if negb (truthyOpt (raw message))
  then throw (newError (lit "Message must have raw content for upload"))
  else
    client ;;
    request (ReqOpenBox folder false) ;;
    _ <- lift (openBox sv folder false) ;;
    client ;;
    request (ReqAppend folder) ;;
    rejectOn (append sv message folder).

Definition uploadMessages (sv : Server) (folder : str)
    (messages : list EmailMessage) : M t unit :=
  ensureConnected connected ;;
  forEach messages (uploadMessage sv folder).

Definition createFolder (sv : Server) (folderPath : str) : M t unit :=
  ensureConnected connected ;;
  client ;;
  request (ReqAddBox folderPath) ;;
  rejectOn (addBox sv folderPath).

Definition deleteFolder (sv : Server) (folderPath : str) : M t unit :=
  ensureConnected connected ;;
  client ;;
  request (ReqDelBox folderPath) ;;
  rejectOn (delBox sv folderPath).

Definition getFolderMessageCount (sv : Server) (folder : str)
    : M t Z :=
  ensureConnected connected ;;
  client ;;
  request (ReqOpenBox folder true) ;;
  lift (openBox sv folder true).

Fixpoint countFolders (sv : Server) (folders : list Folder) (total : Z)
    : M t Z :=
  match folders with
  | [] => ret total
  | folder :: rest =>
      count <- getFolderMessageCount sv (f_path folder) ;;
      countFolders sv rest (total + count)%Z
  end.

Definition getTotalMessageCount (sv : Server) : M t number :=
  folders <- getFolders sv ;;
  total <- countFolders sv folders 0%Z ;;
  ret (Int total).

#[global] Instance provider : IEmailProvider t Server := {|
  Base.connect := connect;
  Base.disconnect := disconnect;
  Base.testConnection := testConnection;
  Base.getFolders := getFolders;
  Base.getMessages := getMessages;
  Base.getMessage := getMessage;
  Base.uploadMessages := uploadMessages;
  Base.createFolder := createFolder;
  Base.deleteFolder := deleteFolder;
  Base.getTotalMessageCount := getTotalMessageCount;
  Base.isConnected := connected;
  Base.handlers := [onEnd; onError]
|}.
End WithRuntime.
End Imap.

(** ** providers/gmail.ts *)
Module Gmail.
Import Js RegExp Runtime Types Effect Base.
Local Open Scope effect_scope.

(** The message resource of the Gmail API. *)
Record Header : Type := { h_name : option str; h_value : option str }.
Record PartBody : Type := {
  b_data : option str; b_attachmentId : option str; b_size : option Z
}.
Inductive MessagePart : Type :=
  MkPart (mimeType : option str) (partFilename : option str)
         (partHeaders : option (list Header)) (body : option PartBody)
         (parts : option (list MessagePart)).
Record Message : Type := {
  m_id : option str;
  m_labelIds : option (list str);
  m_internalDate : option str;
  m_raw : option str;
  m_payload : option MessagePart
}.
Record Label : Type := {
  l_id : option str; l_name : option str; l_type : option str;
  l_messagesTotal : option Z; l_messagesUnread : option Z
}.

Definition partHeadersOf (p : MessagePart) : option (list Header) :=
  match p with MkPart _ _ hs _ _ => hs end.

(** The address pattern of [parseGmailMessage], with spaces between its
    parts: [( .*? ) \s* < ( .+? ) >], no flags. *)
Definition reAddress : re :=
  Seq (Group 1 (Star false dot))
    (Seq (Star true isWhiteSpace)
       (Seq (Chars (only 60))
          (Seq (Group 2 (Plus false dot)) (Chars (only 62))))).

Section WithRuntime.
Context {rt : Runtime.t}.

(** What the Gmail API answers during one call. *)
Record Api : Type := {
  getProfile : outcome (option Z);                (* [messagesTotal] *)
  labelsList : outcome (option (list Label));
  messagesList : str -> Z -> outcome (option (list (option str)));
  messagesGet : str -> outcome Message;
  messagesImport : str -> str -> outcome unit;
  labelsCreate : str -> outcome unit;
  labelsDelete : str -> outcome unit
}.

(** The fields of a [GmailProvider]; [gmail] is the API client. *)
Record t : Type := { gmail : bool; connected : bool }.

Definition create : t := {| gmail := false; connected := false |}.

Definition setGmail (b : bool) (s : t) : t :=
  {| gmail := b; connected := connected s |}.
Definition setConnected (b : bool) (s : t) : t :=
  {| gmail := gmail s; connected := b |}.

(** [this.gmail!] *)
Definition client : M t unit :=
  fun s =>
    if gmail s then (Returned tt, s)
    else (Thrown (typeError (lit "null is not an object")), s).

Definition wrap {A} (prefix : str) (m : M t A) : M t A :=
  tryCatch m (fun error => throw (newError (prefix ++ errorToString error))).

Definition connect (api : Api) : M t unit :=
  tryCatch
    (modify (setGmail true) ;;
     _ <- lift (getProfile api) ;;
     modify (setConnected true))
    (fun error =>
       modify (setConnected false) ;;
       throw (newError (lit "Failed to connect to Gmail: "
                          ++ errorToString error))).

Definition disconnect (api : Api) : M t unit :=
  modify (setGmail false) ;;
  modify (setConnected false).

Definition testConnection (api : Api) : M t bool :=
  tryCatch
    (connect api ;; ret true)
    (fun error => ret false).

Definition labelToFolder (label : Label) : Folder :=
  {| f_name := default [] (l_name label);
     f_path := default [] (l_id label);
     f_delimiter := lit "/";
     f_flags := Some [default [] (l_type label)];
     f_messageCount := option_map Int (l_messagesTotal label);
     f_unreadCount := option_map Int (l_messagesUnread label);
     f_children := None |}.

Definition getFolders (api : Api) : M t (list Folder) :=
  ensureConnected connected ;;
  wrap (lit "Failed to fetch Gmail labels: ")
    (client ;;
     labels <- lift (labelsList api) ;;
     ret (List.map labelToFolder (default [] labels))).

(** [getHeader] of [parseGmailMessage]: the value of the first header
    whose lower-cased name is the lower-cased [name], or the empty
    string. *)
Definition getHeader (headers : list Header) (name : str) : str :=
  match
    List.find
      (fun h =>
         match h_name h with
         | Some n => bool_decide (toLowerCase n = toLowerCase name)
         | None => false
         end)
      headers
  with
  | Some h => orOpt (h_value h) []
  | None => []
  end.

Definition parseAddresses (addressString : str) : list EmailAddress :=
  if negb (truthy addressString) then []
  else
    List.map
      (fun addr =>
         match exec reAddress addr with
         | Some m =>
             {| name := option_map trim (group 1 (groups m));
                address :=
                  match group 2 (groups m) with
                  | Some g => orStr (trim g) (trim addr)
                  | None => trim addr
                  end |}
         | None =>
             {| name := None;
                address := orStr (trim (trim addr)) (trim addr) |}
         end)
      (split 44 addressString).

Fixpoint extractContent (wanted : str) (payload : MessagePart)
    : option str :=
  match payload with
  | MkPart mimeType _ _ body parts =>
      match
        (if bool_decide (mimeType = Some wanted)
         then match body with
              | Some b =>
                  if truthyOpt (b_data b) then b_data b else None
              | None => None
              end
         else None)
      with
      | Some data => Some (Buffer_decodeBase64 data)
      | None =>
          match parts with
          | Some ps =>
              (fix firstOf (l : list MessagePart) : option str :=
                 match l with
                 | [] => None
                 | p :: l' =>
                     match extractContent wanted p with
                     | Some t => if truthy t then Some t else firstOf l'
                     | None => firstOf l'
                     end
                 end) ps
          | None => None
          end
      end
  end.

Definition extractTextContent (payload : option MessagePart)
    : option str :=
  match payload with
  | Some p => extractContent (lit "text/plain") p
  | None => None
  end.
Definition extractHtmlContent (payload : option MessagePart)
    : option str :=
  match payload with
  | Some p => extractContent (lit "text/html") p
  | None => None
  end.

Fixpoint processPart (part : MessagePart) : list Attachment :=
  match part with
  | MkPart mimeType partFilename _ body parts =>
      (match partFilename, body with
       | Some fname, Some b =>
           if truthy fname && truthyOpt (b_attachmentId b)
           then [ {| filename := fname;
                     contentType :=
                       orOpt mimeType (lit "application/octet-stream");
                     size := default 0%Z (b_size b);
                     content := None;
                     contentId := b_attachmentId b |} ]
           else []
       | _, _ => []
       end)
      ++ match parts with
         | Some ps => flat_map processPart ps
         | None => []
         end
  end.

Definition extractAttachments (payload : option MessagePart)
    : list Attachment :=
  match payload with
  | Some p => processPart p
  | None => []
  end.

Definition parseGmailMessage (message : Message) : EmailMessage :=
  let headers :=
    match m_payload message with
    | Some p => default [] (partHeadersOf p)
    | None => []
    end in
  {| id := orOpt (m_id message) [];
     uid := parseInt (orOpt (m_id message) (lit "0"));
     subject := getHeader headers (lit "Subject");
     from :=
       match parseAddresses (getHeader headers (lit "From")) with
       | a :: _ => a
       | [] => {| name := None; address := lit "unknown" |}
       end;
     to := parseAddresses (getHeader headers (lit "To"));
     cc := Some (parseAddresses (getHeader headers (lit "Cc")));
     bcc := Some (parseAddresses (getHeader headers (lit "Bcc")));
     date :=
       Date_ofNumber (parseInt (orOpt (m_internalDate message) (lit "0")));
     headers :=
       List.map (fun '(k, v) => (k, HStr v))
         (fold_left
            (fun acc h =>
               match h_name h, h_value h with
               | Some n, Some v =>
                   if truthy n && truthy v then setStr n v acc else acc
               | _, _ => acc
               end)
            headers []);
     text := extractTextContent (m_payload message);
     html := extractHtmlContent (m_payload message);
     attachments := extractAttachments (m_payload message);
     raw :=
       if truthyOpt (m_raw message)
       then option_map Buffer_decodeBase64 (m_raw message)
       else None;
     labels := m_labelIds message;
     folder := None;
     flags := Some [] |}.

Definition getMessage (api : Api) (folder id : str) : M t EmailMessage :=
  ensureConnected connected ;;
  wrap (lit "Failed to fetch message " ++ id ++ lit ": ")
    (client ;;
     message <- lift (messagesGet api id) ;;
     ret (parseGmailMessage message)).

(** The loop of [getMessages]: an id that cannot be fetched is logged
    and left out. *)
Fixpoint fetchEach (api : Api) (folder : str) (ids : list (option str))
    (messages : list EmailMessage) : M t (list EmailMessage) :=
  match ids with
  | [] => ret messages
  | oid :: rest =>
      if negb (truthyOpt oid) then fetchEach api folder rest messages
      else
        messages' <-
          tryCatch
            (message <- getMessage api folder (default [] oid) ;;
             ret (messages ++ [message]))
            (fun error => ret messages) ;;
        fetchEach api folder rest messages'
  end.

Definition getMessages (api : Api) (folder : str) (limit : Z)
    : M t (list EmailMessage) :=
  ensureConnected connected ;;
  wrap (lit "Failed to fetch messages from " ++ folder ++ lit ": ")
    (client ;;
     listed <-
       lift (messagesList api folder
               (if (0 <? limit)%Z then limit else 500%Z)) ;;
     fetchEach api folder (default [] listed) []).

(** The base64url form of a base64 text: [+] to [-], [/] to [_], and the
    trailing [=] removed. *)
Fixpoint dropPadding (s : str) : str :=
  match s with
  | c :: s' => if c =? 61 then dropPadding s' else s
  | [] => []
  end.
Definition base64url (b64 : str) : str :=
  let swapped :=
    List.map (fun c => if c =? 43 then 45 else if c =? 47 then 95 else c)
      b64 in
  rev (dropPadding (rev swapped)).

Definition uploadMessage (api : Api) (folder : str)
    (message : EmailMessage) : M t unit :=
  if negb (truthyOpt (raw message))
  then throw (newError (lit "Message must have raw content for upload"))
  else
    wrap (lit "Failed to upload message: ")
      (let rawText :=
         base64url (Buffer_toBase64 (default [] (raw message))) in
       client ;;
       lift (messagesImport api rawText folder)).

Definition uploadMessages (api : Api) (folder : str)
    (messages : list EmailMessage) : M t unit :=
  ensureConnected connected ;;
  forEach messages (uploadMessage api folder).

Definition createFolder (api : Api) (folderPath : str) : M t unit :=
  ensureConnected connected ;;
  wrap (lit "Failed to create folder " ++ folderPath ++ lit ": ")
    (client ;; lift (labelsCreate api folderPath)).

Definition deleteFolder (api : Api) (folderPath : str) : M t unit :=
  ensureConnected connected ;;
  wrap (lit "Failed to delete folder " ++ folderPath ++ lit ": ")
    (client ;; lift (labelsDelete api folderPath)).

Definition getTotalMessageCount (api : Api) : M t number :=
  ensureConnected connected ;;
  wrap (lit "Failed to get total message count: ")
    (client ;;
     total <- lift (getProfile api) ;;
     ret (Int (default 0%Z total))).

#[global] Instance provider : IEmailProvider t Api := {|
  Base.connect := connect;
  Base.disconnect := disconnect;
  Base.testConnection := testConnection;
  Base.getFolders := getFolders;
  Base.getMessages := getMessages;
  Base.getMessage := getMessage;
  Base.uploadMessages := uploadMessages;
  Base.createFolder := createFolder;
  Base.deleteFolder := deleteFolder;
  Base.getTotalMessageCount := getTotalMessageCount;
  Base.isConnected := connected;
  Base.handlers := []
|}.
End WithRuntime.
End Gmail.

(** ** providers/jmap.ts *)
Module Jmap.
Import Js RegExp Runtime Types Effect Base.
Local Open Scope effect_scope.

Record JmapSession : Type := {
  apiUrl : str;
  uploadUrl : str;
  downloadUrl : str;
  primaryAccounts : option (object str)
}.

Record JmapMailbox : Type := {
  mb_id : str;
  mb_name : str;
  mb_parentId : option str;
  mb_role : option str;
  mb_totalEmails : Z;
  mb_unreadEmails : Z
}.

Record JmapEmailAddress : Type := { ea_name : option str; ea_email : str }.

Record JmapBodyPart : Type := {
  bp_partId : option str;
  bp_name : option str;
  bp_type : str;
  bp_size : Z;
  bp_cid : option str
}.

Record JmapEmail : Type := {
  e_id : str;
  e_mailboxIds : option (object bool);
  e_keywords : option (gmap (list N) bool);
  e_receivedAt : str;
  e_from : option (list JmapEmailAddress);
  e_to : option (list JmapEmailAddress);
  e_cc : option (list JmapEmailAddress);
  e_bcc : option (list JmapEmailAddress);
  e_subject : option str;
  e_bodyValues : option (object str);       (* part id to [value] *)
  e_textBody : option (list JmapBodyPart);
  e_htmlBody : option (list JmapBodyPart);
  e_attachments : option (list JmapBodyPart)
}.

(** The method calls the provider issues and what comes back for them. *)
Inductive MethodCall : Type :=
| MailboxGet
| EmailQuery (inMailbox : str) (limit : option Z)
| EmailGet (ids : list str)
| EmailImport (blobId : str) (mailbox : str)
| MailboxCreate (name : str)
| MailboxDestroy (id : str).

(** The arguments of a method response, as far as the provider reads
    them; [notDone] is the description found under the provider's own key
    of [notCreated] or [notDestroyed], when that key is there. *)
Record Result : Type := {
  r_mailboxes : option (list JmapMailbox);
  r_ids : option (list str);
  r_emails : option (list JmapEmail);
  r_notDone : option (option str);
  r_description : option str
}.

Record HttpResponse (A : Type) : Type := {
  ok : bool; status : nat; statusText : str; json : outcome A
}.
Arguments ok {A}. Arguments status {A}. Arguments statusText {A}.
Arguments json {A}.

(** What the JMAP server answers during one call: to the session request,
    to a method call (the list is [methodResponses], each with its name),
    to a blob upload; and the tree that [convertMailboxesToFolders]
    assembles from a mailbox list, which is not modelled. *)
Record Server : Type := {
  fetchSession : outcome (HttpResponse JmapSession);
  post : MethodCall -> outcome (HttpResponse (list (str * Result)));
  upload : str -> outcome (HttpResponse str);       (* the blob id *)
  convertMailboxesToFolders : list JmapMailbox -> list Folder
}.

Definition mailCapability : str := lit "urn:ietf:params:jmap:mail".

Section WithRuntime.
Context {rt : Runtime.t}.

(** The fields of a [JmapProvider]. *)
Record t : Type := {
  session : option JmapSession;
  primaryAccountId : option str;
  mailboxCache : gmap (list N) JmapMailbox;
  connected : bool
}.

Definition create : t :=
  {| session := None; primaryAccountId := None; mailboxCache := ∅;
     connected := false |}.

Definition setSession (v : option JmapSession) (s : t) : t :=
  {| session := v; primaryAccountId := primaryAccountId s;
     mailboxCache := mailboxCache s; connected := connected s |}.
Definition setPrimaryAccountId (v : option str) (s : t) : t :=
  {| session := session s; primaryAccountId := v;
     mailboxCache := mailboxCache s; connected := connected s |}.
Definition setMailboxCache (v : gmap (list N) JmapMailbox) (s : t) : t :=
  {| session := session s; primaryAccountId := primaryAccountId s;
     mailboxCache := v; connected := connected s |}.
Definition setConnected (b : bool) (s : t) : t :=
  {| session := session s; primaryAccountId := primaryAccountId s;
     mailboxCache := mailboxCache s; connected := b |}.

Definition connect (sv : Server) : M t unit :=
  tryCatch
    (response <- lift (fetchSession sv) ;;
     (if negb (ok response)
      then throw (newError (lit "JMAP session request failed: "
                              ++ natToString (status response) ++ lit " "
                              ++ statusText response))
      else ret tt) ;;
     sess <- lift (json response) ;;
     modify (setSession (Some sess)) ;;
     accounts <-
       match primaryAccounts sess with
       | Some a => ret a
       | None => throw (typeError (lit "undefined is not an object"))
       end ;;
     match get mailCapability accounts with
     | Some accountId =>
         if truthy accountId then
           modify (setPrimaryAccountId (Some accountId)) ;;
           modify (setConnected true)
         else throw (newError (lit "No mail account found in JMAP session"))
     | None => throw (newError (lit "No mail account found in JMAP session"))
     end)
    (fun error =>
       modify (setConnected false) ;;
       throw (newError (lit "Failed to connect to JMAP: "
                          ++ errorToString error))).

Definition disconnect (sv : Server) : M t unit :=
  modify (setSession None) ;;
  modify (setPrimaryAccountId None) ;;
  modify (setMailboxCache ∅) ;;
  modify (setConnected false).

Definition testConnection (sv : Server) : M t bool :=
  tryCatch
    (connect sv ;; disconnect sv ;; ret true)
    (fun error => ret false).

(** [makeRequest] followed by [response.methodResponses[0]]. *)
Definition makeRequest (sv : Server) (c : MethodCall)
    : M t (str * Result) :=
  ensureConnected connected ;;
  sess <- gets session ;;
  match sess with
  | None => throw (typeError (lit "null is not an object"))
  | Some _ =>
      response <- lift (post sv c) ;;
      if negb (ok response)
      then throw (newError (lit "JMAP request failed: "
                              ++ natToString (status response) ++ lit " "
                              ++ statusText response))
      else
        responses <- lift (json response) ;;
        match responses with
        | first :: _ => ret first
        | [] => throw (newError (lit "No response from JMAP server"))
        end
  end.

Definition getFolders (sv : Server) : M t (list Folder) :=
  ensureConnected connected ;;
  r <- makeRequest sv MailboxGet ;;
  let mailboxes := default [] (r_mailboxes (snd r)) in
  modify (setMailboxCache ∅) ;;
  forEach mailboxes
    (fun mailbox =>
       modify (fun s =>
         setMailboxCache (<[mb_id mailbox := mailbox]> (mailboxCache s)) s)) ;;
  ret (convertMailboxesToFolders sv mailboxes).

(** The first part whose id resolves in [bodyValues]. *)
Fixpoint firstBody (parts : list JmapBodyPart) (bodyValues : object str)
    : option str :=
  match parts with
  | [] => None
  | part :: rest =>
      match
        (if truthyOpt (bp_partId part)
         then get (default [] (bp_partId part)) bodyValues
         else None)
      with
      | Some v => Some v
      | None => firstBody rest bodyValues
      end
  end.

Definition bodyOf (parts : option (list JmapBodyPart))
    (bodyValues : option (object str)) : option str :=
  match parts, bodyValues with
  | Some ps, Some bv => firstBody ps bv
  | _, _ => None
  end.

(** [keywords[k]] is truthy. *)
Definition keywordSet (keywords : gmap (list N) bool) (k : str) : bool :=
  match keywords !! k with Some true => true | _ => false end.

Definition keywordsToFlags (keywords : option (gmap (list N) bool))
    : list str :=
  match keywords with
  | Some kw =>
      (if keywordSet kw (lit "$seen") then [lit "\Seen"] else [])
      ++ (if keywordSet kw (lit "$flagged") then [lit "\Flagged"] else [])
      ++ (if keywordSet kw (lit "$answered") then [lit "\Answered"] else [])
      ++ (if keywordSet kw (lit "$draft") then [lit "\Draft"] else [])
  | None => []
  end.

Definition nameOrUndefined (n : option str) : option str :=
  if truthyOpt n then n else None.

Definition convertAddress (addr : JmapEmailAddress) : EmailAddress :=
  {| name := nameOrUndefined (ea_name addr); address := ea_email addr |}.

Definition convertJmapEmail (cache : gmap (list N) JmapMailbox)
    (email : JmapEmail) (folder : str) : EmailMessage :=
  let text := bodyOf (e_textBody email) (e_bodyValues email) in
  let html := bodyOf (e_htmlBody email) (e_bodyValues email) in
  let flags := keywordsToFlags (e_keywords email) in
  let attachments :=
    List.map
      (fun att =>
         {| filename := orOpt (bp_name att) (lit "attachment");
            contentType := bp_type att;
            size := bp_size att;
            content := None;
            contentId := nameOrUndefined (bp_cid att) |})
      (default [] (e_attachments email)) in
  let labels :=
    match e_mailboxIds email with
    | Some ids =>
        flat_map
          (fun mailboxId =>
             match cache !! mailboxId with
             | Some mailbox => [mb_name mailbox]
             | None => []
             end)
          (List.map fst ids)
    | None => []
    end in
  {| id := e_id email;
     uid :=
       match parseInt (replaceAll (Chars (fun c => negb (isDigit c))) []
                         (e_id email)) with
       | Int 0 | NaN => Int 0
       | n => n
       end;
     subject := orOpt (e_subject email) (lit "(No Subject)");
     from :=
       match e_from email with
       | Some (a :: _) => convertAddress a
       | _ => {| name := None; address := lit "unknown" |}
       end;
     to := List.map convertAddress (default [] (e_to email));
     cc := Some (List.map convertAddress (default [] (e_cc email)));
     bcc := Some (List.map convertAddress (default [] (e_bcc email)));
     date := Date_ofString (e_receivedAt email);
     headers := [];
     text := text;
     html := html;
     attachments := attachments;
     raw := None;
     labels := Some labels;
     folder := Some folder;
     flags := Some flags |}.

Definition convertAll (emails : list JmapEmail) (folder : str)
    : M t (list EmailMessage) :=
  cache <- gets mailboxCache ;;
  ret (List.map (fun email => convertJmapEmail cache email folder) emails).

Definition getMessages (sv : Server) (folder : str) (limit : Z)
    : M t (list EmailMessage) :=
  ensureConnected connected ;;
  q <- makeRequest sv
         (EmailQuery folder (if (0 <? limit)%Z then Some limit else None)) ;;
  let emailIds := default [] (r_ids (snd q)) in
  match emailIds with
  | [] => ret []
  | _ =>
      g <- makeRequest sv (EmailGet emailIds) ;;
      convertAll (default [] (r_emails (snd g))) folder
  end.

Definition getMessage (sv : Server) (folder id : str) : M t EmailMessage :=
  ensureConnected connected ;;
  g <- makeRequest sv (EmailGet [id]) ;;
  match default [] (r_emails (snd g)) with
  | email :: _ =>
      converted <- convertAll [email] folder ;;
      match converted with
      | m :: _ => ret m
      | [] => throw (newError (lit "Email " ++ id ++ lit " not found"))
      end
  | [] => throw (newError (lit "Email " ++ id ++ lit " not found"))
  end.

Definition uploadMessage (sv : Server) (folder : str)
    (message : EmailMessage) : M t unit :=
  if negb (truthyOpt (raw message))
  then throw (newError (lit "Message must have raw content for upload"))
  else
    sess <- gets session ;;
    match sess with
    | None => throw (typeError (lit "null is not an object"))
    | Some _ =>
        uploadResponse <- lift (upload sv (default [] (raw message))) ;;
        if negb (ok uploadResponse)
        then throw (newError (lit "Blob upload failed: "
                                ++ natToString (status uploadResponse)))
        else
          blobId <- lift (json uploadResponse) ;;
          r <- makeRequest sv (EmailImport blobId folder) ;;
          if bool_decide (fst r = lit "error")
          then throw (newError (lit "Email import failed: "
                        ++ orOpt (r_description (snd r))
                             (lit "Unknown error")))
          else ret tt
    end.

Definition uploadMessages (sv : Server) (folder : str)
    (messages : list EmailMessage) : M t unit :=
  ensureConnected connected ;;
  forEach messages (uploadMessage sv folder).

(** The check shared by [createFolder] and [deleteFolder]. *)
Definition checkSet (prefix : str) (r : str * Result) : M t unit :=
  if bool_decide (fst r = lit "error")
     || bool_decide (is_Some (r_notDone (snd r)))
  then
    let fromEntry :=
      match r_notDone (snd r) with
      | Some d => orOpt d []
      | None => []
      end in
    throw (newError (prefix
             ++ orStr fromEntry
                  (orOpt (r_description (snd r)) (lit "Unknown error"))))
  else ret tt.

Definition createFolder (sv : Server) (folderPath : str) : M t unit :=
  ensureConnected connected ;;
  r <- makeRequest sv (MailboxCreate folderPath) ;;
  checkSet (lit "Failed to create folder: ") r.

Definition deleteFolder (sv : Server) (folderPath : str) : M t unit :=
  ensureConnected connected ;;
  r <- makeRequest sv (MailboxDestroy folderPath) ;;
  checkSet (lit "Failed to delete folder: ") r.

Fixpoint countMessages (folder : Folder) : Z :=
  match folder with
  | Build_Folder _ _ _ _ messageCount _ children =>
      (match messageCount with Some (Int z) => z | _ => 0 end
       + match children with
         | Some cs =>
             (fix sum (l : list Folder) : Z :=
                match l with
                | [] => 0
                | f :: l' => countMessages f + sum l'
                end) cs
         | None => 0
         end)%Z
  end.

Definition getTotalMessageCount (sv : Server) : M t number :=
  folders <- getFolders sv ;;
  ret (Int (fold_left (fun total f => (total + countMessages f)%Z)
              folders 0%Z)).

#[global] Instance provider : IEmailProvider t Server := {|
  Base.connect := connect;
  Base.disconnect := disconnect;
  Base.testConnection := testConnection;
  Base.getFolders := getFolders;
  Base.getMessages := getMessages;
  Base.getMessage := getMessage;
  Base.uploadMessages := uploadMessages;
  Base.createFolder := createFolder;
  Base.deleteFolder := deleteFolder;
  Base.getTotalMessageCount := getTotalMessageCount;
  Base.isConnected := connected;
  Base.handlers := []
|}.
End WithRuntime.
End Jmap.

(** ** Reference descriptions used in the statements *)
Module Spec.
Import Js RegExp Runtime Types.

(** The lines of a text, each with its line terminator (any ECMAScript
    line terminator) kept at its end; the concatenation of the lines is the
    text. *)
Fixpoint linesOf (s : str) : list str :=
  match s with
  | [] => [[]]
  | c :: s' =>
      if isLineTerminator c then [c] :: linesOf s'
      else match linesOf s' with
           | l :: ls => (c :: l) :: ls
           | [] => [[c]]
           end
  end.

(** mboxo quoting of one line: a line that begins with "From " gets one
    ">" in front, any other line is unchanged. *)
Definition quoteLine (l : str) : str :=
  if startsWith (lit "From ") l then 62 :: l else l.

(** mboxrd quoting of one line, the rule with repetition: a line that
    begins with any number of ">" followed by "From " gets one more ">". *)
Fixpoint startsWithQuotedFrom (l : str) : bool :=
  match l with
  | c :: l' =>
      if c =? 62 then startsWithQuotedFrom l'
      else startsWith (lit "From ") l
  | [] => false
  end.
Definition quoteLineRepeated (l : str) : str :=
  if startsWithQuotedFrom l then 62 :: l else l.

(** Folder-name sanitisation in the words of the specification. *)
Definition isFolderSafe (c : char) : bool :=
  isLower c || isUpper c || isDigit c || (c =? 95) || (c =? 45).
Definition replaceUnsafe (c : char) : char :=
  if isFolderSafe c then c else 95.
(** Drop every underscore that directly follows an underscore. *)
Fixpoint collapse (afterUnderscore : bool) (s : str) : str :=
  match s with
  | [] => []
  | c :: s' =>
      if c =? 95
      then (if afterUnderscore then collapse true s'
            else c :: collapse true s')
      else c :: collapse false s'
  end.
Definition sanitize (folder : str) : str :=
  List.map lowerAscii (collapse false (List.map replaceUnsafe folder)).

(** The first sequence number of the IMAP fetch range in the words of
    the specification. *)
Definition rangeStart (limit total : Z) : Z :=
  if (limit =? 0)%Z then 1%Z else Z.max 1 (total - limit + 1).

(** A JMAP keyword is set. *)
Definition keywordIsSet (email : Jmap.JmapEmail) (k : str) : Prop :=
  exists kw, Jmap.e_keywords email = Some kw /\ kw !! k = Some true.

(** The same email with other keywords. *)
Definition withKeywords (kw : option (gmap (list N) bool))
    (email : Jmap.JmapEmail) : Jmap.JmapEmail :=
  {| Jmap.e_id := Jmap.e_id email;
     Jmap.e_mailboxIds := Jmap.e_mailboxIds email;
     Jmap.e_keywords := kw;
     Jmap.e_receivedAt := Jmap.e_receivedAt email;
     Jmap.e_from := Jmap.e_from email;
     Jmap.e_to := Jmap.e_to email;
     Jmap.e_cc := Jmap.e_cc email;
     Jmap.e_bcc := Jmap.e_bcc email;
     Jmap.e_subject := Jmap.e_subject email;
     Jmap.e_bodyValues := Jmap.e_bodyValues email;
     Jmap.e_textBody := Jmap.e_textBody email;
     Jmap.e_htmlBody := Jmap.e_htmlBody email;
     Jmap.e_attachments := Jmap.e_attachments email |}.

(** Facts of ECMAScript about the runtime functions. *)
Class RuntimeLaws (rt : Runtime.t) : Prop := {
  (** Lower-casing a string of ASCII code units lower-cases A-Z. *)
  toLowerCase_ascii : forall s : str,
    Forall (fun c => isAscii c = true) s ->
    toLowerCase s = List.map lowerAscii s;
  (** Date renderings contain no line terminator. *)
  Date_toString_line : forall d : Date,
    Forall (fun c => isLineTerminator c = false) (Date_toString d);
  Date_toUTCString_line : forall d : Date,
    Forall (fun c => isLineTerminator c = false) (Date_toUTCString d)
}.

(** The code units of base64 text: letters, digits, "+", "/" and "=". *)
Definition isBase64 (c : char) : bool :=
  isUpper c || isLower c || isDigit c || (c =? 43) || (c =? 47) || (c =? 61).

(** What holds of the texts the exporters put into a multipart message. *)
Class MimeLaws (rt : Runtime.t) : Prop := {
  (** The text drawn for a boundary (digits, "_", letters) has no line
      terminator. *)
  boundaryStamp_line : forall n : nat,
    Forall (fun c => isLineTerminator c = false) (boundaryStamp n);
  (** The base64 text of a buffer holds code units of base64 only. *)
  Buffer_toBase64_alphabet : forall bytes : list N,
    Forall (fun c => isBase64 c = true) (Buffer_toBase64 bytes)
}.
End Spec.

(** ** Concrete inputs used in examples *)
Module Sample.
Import Js RegExp Runtime Types.

(** A runtime that knows two dates, 2024-01-01T00:00:00Z (which is also
    the current time) and the invalid date, and that lower-cases ASCII.
    The engine is JavaScriptCore, as under Bun.  Base64, [parseInt] and
    numbers outside the safe integers are not exercised by the
    examples. *)
Definition newYear : str := lit "Mon, 01 Jan 2024 00:00:00 GMT".

#[export] Instance runtime : Runtime.t := {|
  Date := bool;
  Date_toString := fun d =>
    if d then lit "Mon Jan 01 2024 00:00:00 GMT+0000 (Coordinated Universal Time)"
    else lit "Invalid Date";
  Date_toUTCString := fun d => if d then newYear else lit "Invalid Date";
  Date_toISOString := fun d =>
    if d then Some (lit "2024-01-01T00:00:00.000Z") else None;
  Date_rangeMessage := lit "Invalid Date";
  Date_ofString := fun s => bool_decide (s = newYear);
  Date_ofNumber := fun n =>
    match n with Int 1704067200000 => true | _ => false end;
  Date_now := true;
  toLowerCase := List.map lowerAscii;
  Buffer_toBase64 := fun _ => [];
  Buffer_decodeBase64 := fun _ => [];
  parseInt := fun _ => NaN;
  boundaryStamp := fun n => lit "1704067200000_" ++ natToString n;
  Number_toString := fun n =>
    match n with Int z => zToString z | _ => lit "Infinity" end
|}.

Definition plainMessage (subj : str) (sender : EmailAddress)
    (body : option str) (rawText : option str) : EmailMessage :=
  {| id := lit "1"; uid := Int 1; subject := subj; from := sender;
     to := [ {| name := None; address := lit "to@example.com" |} ];
     cc := None; bcc := None; date := true; headers := [];
     text := body; html := None; attachments := []; raw := rawText;
     labels := None; folder := None; flags := None |}.

Definition alice : EmailAddress :=
  {| name := Some (lit "Alice"); address := lit "alice@example.com" |}.
Definition bob : EmailAddress :=
  {| name := None; address := lit "bob@example.com" |}.
(** A sender whose display name holds double quotes. *)
Definition quoted : EmailAddress :=
  {| name := Some (lit "Carol " ++ [QUOTE] ++ lit "CJ" ++ [QUOTE] ++ lit " Jones");
     address := lit "carol@example.com" |}.

(** A message whose raw text is one line that is already quoted. *)
Definition quotedMessage : EmailMessage :=
  plainMessage (lit "Hi") bob None (Some (lit ">From x")).

(** Remote sides that accept and that refuse a connection. *)
Definition refused : Effect.JsError := Effect.newError (lit "ECONNREFUSED").

Definition imapConfig : Imap.ImapConfig :=
  {| Imap.user := lit "bob"; Imap.password := lit "x";
     Imap.host := lit "mail.example.com"; Imap.port := 993%Z;
     Imap.tls := true |}.

Definition imapServer (failure : option Effect.JsError) (total : Z)
    : Imap.Server :=
  {| Imap.onConnect := failure;
     Imap.getBoxes := Effect.Returned [];
     Imap.openBox := fun _ _ => Effect.Returned total;
     Imap.seqFetch := fun _ => ([], None);
     Imap.fetchIds := fun _ => ([], None);
     Imap.simpleParser := fun _ => Effect.Thrown (Effect.newError (lit "no parser"));
     Imap.settled := fun delivered => delivered;
     Imap.append := fun _ _ => None;
     Imap.addBox := fun _ => None;
     Imap.delBox := fun _ => None |}.

Definition gmailApi (profile : Effect.outcome (option Z)) : Gmail.Api :=
  {| Gmail.getProfile := profile;
     Gmail.labelsList := Effect.Returned None;
     Gmail.messagesList := fun _ _ => Effect.Returned None;
     Gmail.messagesGet := fun _ => Effect.Thrown (Effect.newError (lit "404"));
     Gmail.messagesImport := fun _ _ => Effect.Returned tt;
     Gmail.labelsCreate := fun _ => Effect.Returned tt;
     Gmail.labelsDelete := fun _ => Effect.Returned tt |}.

Definition jmapSession : Jmap.JmapSession :=
  {| Jmap.apiUrl := lit "https://api.example.com/jmap/api/";
     Jmap.uploadUrl := lit "https://api.example.com/jmap/upload/{accountId}/";
     Jmap.downloadUrl := lit "https://api.example.com/jmap/download/";
     Jmap.primaryAccounts := Some [(Jmap.mailCapability, lit "u1")] |}.

Definition jmapServer
    (sessionAnswer : Effect.outcome (Jmap.HttpResponse Jmap.JmapSession))
    : Jmap.Server :=
  {| Jmap.fetchSession := sessionAnswer;
     Jmap.post := fun _ => Effect.Thrown refused;
     Jmap.upload := fun _ => Effect.Thrown refused;
     Jmap.convertMailboxesToFolders := fun _ => [] |}.

Definition jmapUp : Jmap.Server :=
  jmapServer
    (Effect.Returned
       {| Jmap.ok := true; Jmap.status := 200; Jmap.statusText := lit "OK";
          Jmap.json := Effect.Returned jmapSession |}).
Definition jmapDown : Jmap.Server := jmapServer (Effect.Thrown refused).

(** A Gmail message resource without a Subject header. *)
Definition gmailNoSubject : Gmail.Message :=
  {| Gmail.m_id := Some (lit "18c5");
     Gmail.m_labelIds := Some [lit "INBOX"];
     Gmail.m_internalDate := Some (lit "1704067200000");
     Gmail.m_raw := None;
     Gmail.m_payload :=
       Some (Gmail.MkPart (Some (lit "text/plain")) None
               (Some [ {| Gmail.h_name := Some (lit "From");
                          Gmail.h_value := Some (lit "bob@example.com") |} ])
               None None) |}.

(** A JMAP email that is seen and carries a keyword of its own. *)
Definition jmapEmail : Jmap.JmapEmail :=
  {| Jmap.e_id := lit "M1"; Jmap.e_mailboxIds := None;
     Jmap.e_keywords := Some (<[lit "$seen" := true]> (<[lit "$forwarded" := true]> ∅));
     Jmap.e_receivedAt := newYear;
     Jmap.e_from := None; Jmap.e_to := None; Jmap.e_cc := None;
     Jmap.e_bcc := None; Jmap.e_subject := None;
     Jmap.e_bodyValues := None; Jmap.e_textBody := None;
     Jmap.e_htmlBody := None; Jmap.e_attachments := None |}.

(** A message with an attachment that has content, and the same message
    with a date that is not a valid time. *)
Definition report : Attachment :=
  {| filename := lit "report.pdf"; contentType := lit "application/pdf";
     size := 3%Z; content := Some [37; 80; 68]; contentId := None |}.
Definition withAttachment (d : bool) : EmailMessage :=
  {| id := lit "1"; uid := Int 1; subject := lit "Report"; from := alice;
     to := [bob]; cc := None; bcc := None; date := d; headers := [];
     text := Some (lit "see attachment"); html := None;
     attachments := [report]; raw := None;
     labels := None; folder := None; flags := None |}.

(** A host whose paths are joined with "/", whose writes succeed, and
    whose rendering of a value only tells how many elements an array
    has. *)
Definition host : Host.t :=
  {| Host.pathJoin := fun dir name => dir ++ lit "/" ++ name;
     Host.stringify :=
       fun v =>
         match v with
         | Json.VArray l => lit "array of " ++ natToString (length l)
         | _ => lit "value"
         end;
     Host.writeError := fun _ _ _ => None |}.

Definition emptyDisk : Host.Disk := {| Host.files := ∅; Host.drawn := 0 |}.


(** An IMAP account with a folder below the top level; every mailbox
    holds [total] messages. *)
Definition imapBoxes : list (str * Imap.Box) :=
  [(lit "INBOX",
    Imap.MkBox (lit "/") None
      (Some [(lit "Archive", Imap.MkBox (lit "/") None None)]));
   (lit "Sent", Imap.MkBox (lit "/") None None)].

Definition imapAccount (total : Z) : Imap.Server :=
  {| Imap.onConnect := None;
     Imap.getBoxes := Effect.Returned imapBoxes;
     Imap.openBox := fun _ _ => Effect.Returned total;
     Imap.seqFetch := fun _ => ([], None);
     Imap.fetchIds := fun _ => ([], None);
     Imap.simpleParser :=
       fun _ => Effect.Thrown (Effect.newError (lit "no parser"));
     Imap.settled := fun delivered => delivered;
     Imap.append := fun _ _ => None;
     Imap.addBox := fun _ => None;
     Imap.delBox := fun _ => None |}.

Definition imapConnected : Imap.t :=
  {| Imap.imap := Some imapConfig; Imap.config := imapConfig;
     Imap.connected := true; Imap.trace := [] |}.

(** A Gmail label with three listed entries: a message that can be
    fetched, an entry without id, and a message that cannot be fetched. *)
Definition gmailListing : Gmail.Api :=
  {| Gmail.getProfile := Effect.Returned (Some 2%Z);
     Gmail.labelsList := Effect.Returned None;
     Gmail.messagesList :=
       fun _ _ => Effect.Returned (Some [Some (lit "18c5"); None;
                                         Some (lit "18c6")]);
     Gmail.messagesGet :=
       fun id =>
         if bool_decide (id = lit "18c5") then Effect.Returned gmailNoSubject
         else Effect.Thrown (Effect.newError (lit "404"));
     Gmail.messagesImport := fun _ _ => Effect.Returned tt;
     Gmail.labelsCreate := fun _ => Effect.Returned tt;
     Gmail.labelsDelete := fun _ => Effect.Returned tt |}.

(** A JMAP server that lists two mailboxes. *)
Definition inbox : Jmap.JmapMailbox :=
  {| Jmap.mb_id := lit "mb1"; Jmap.mb_name := lit "Inbox";
     Jmap.mb_parentId := None; Jmap.mb_role := Some (lit "inbox");
     Jmap.mb_totalEmails := 2; Jmap.mb_unreadEmails := 1 |}.
Definition archive : Jmap.JmapMailbox :=
  {| Jmap.mb_id := lit "mb2"; Jmap.mb_name := lit "Archive";
     Jmap.mb_parentId := Some (lit "mb1"); Jmap.mb_role := None;
     Jmap.mb_totalEmails := 5; Jmap.mb_unreadEmails := 0 |}.
Definition mailboxList : Jmap.Result :=
  {| Jmap.r_mailboxes := Some [inbox; archive]; Jmap.r_ids := None;
     Jmap.r_emails := None; Jmap.r_notDone := None;
     Jmap.r_description := None |}.
Definition mailboxAnswer : Jmap.HttpResponse (list (str * Jmap.Result)) :=
  {| Jmap.ok := true; Jmap.status := 200; Jmap.statusText := lit "OK";
     Jmap.json := Effect.Returned [(lit "Mailbox/get", mailboxList)] |}.
Definition jmapListing : Jmap.Server :=
  {| Jmap.fetchSession := Effect.Thrown refused;
     Jmap.post := fun _ => Effect.Returned mailboxAnswer;
     Jmap.upload := fun _ => Effect.Thrown refused;
     Jmap.convertMailboxesToFolders := fun _ => [] |}.

(** The names an object and an array inherit (Object.prototype and
    Array.prototype), [__proto__] apart. *)
Definition objectNames : list str :=
  [lit "constructor"; lit "hasOwnProperty"; lit "isPrototypeOf";
   lit "propertyIsEnumerable"; lit "toLocaleString"; lit "toString";
   lit "valueOf"; lit "__defineGetter__"; lit "__defineSetter__";
   lit "__lookupGetter__"; lit "__lookupSetter__"].
Definition arrayNames : list str :=
  [lit "at"; lit "concat"; lit "copyWithin"; lit "entries"; lit "every";
   lit "fill"; lit "filter"; lit "find"; lit "findIndex"; lit "findLast";
   lit "findLastIndex"; lit "flat"; lit "flatMap"; lit "forEach";
   lit "includes"; lit "indexOf"; lit "join"; lit "keys";
   lit "lastIndexOf"; lit "map"; lit "pop"; lit "push"; lit "reduce";
   lit "reduceRight"; lit "reverse"; lit "shift"; lit "slice"; lit "some";
   lit "sort"; lit "splice"; lit "toReversed"; lit "toSorted";
   lit "toSpliced"; lit "unshift"; lit "values"; lit "with"].
Definition prototypes : Cli.Prototypes :=
  {| Cli.objectHas := fun key => bool_decide (key ∈ objectNames);
     Cli.arrayHas := fun key =>
       bool_decide (key ∈ arrayNames ++ objectNames) |}.


(** A JMAP server with one message, filed in the mailbox "mb1". *)
Definition filedEmail : Jmap.JmapEmail :=
  {| Jmap.e_id := lit "M2"; Jmap.e_mailboxIds := Some [(lit "mb1", true)];
     Jmap.e_keywords := None; Jmap.e_receivedAt := newYear;
     Jmap.e_from := None; Jmap.e_to := None; Jmap.e_cc := None;
     Jmap.e_bcc := None; Jmap.e_subject := Some (lit "Hello");
     Jmap.e_bodyValues := None; Jmap.e_textBody := None;
     Jmap.e_htmlBody := None; Jmap.e_attachments := None |}.
Definition jmapResult (ids : option (list str))
    (emails : option (list Jmap.JmapEmail)) : Jmap.Result :=
  {| Jmap.r_mailboxes := None; Jmap.r_ids := ids; Jmap.r_emails := emails;
     Jmap.r_notDone := None; Jmap.r_description := None |}.
Definition jmapMail : Jmap.Server :=
  {| Jmap.fetchSession := Effect.Thrown refused;
     Jmap.post := fun c =>
       match c with
       | Jmap.EmailQuery _ _ =>
           Effect.Returned
             {| Jmap.ok := true; Jmap.status := 200;
                Jmap.statusText := lit "OK";
                Jmap.json :=
                  Effect.Returned
                    [(lit "Email/query", jmapResult (Some [lit "M2"]) None)] |}
       | Jmap.EmailGet _ =>
           Effect.Returned
             {| Jmap.ok := true; Jmap.status := 200;
                Jmap.statusText := lit "OK";
                Jmap.json :=
                  Effect.Returned
                    [(lit "Email/get", jmapResult None (Some [filedEmail]))] |}
       | _ => Effect.Thrown refused
       end;
     Jmap.upload := fun _ => Effect.Thrown refused;
     Jmap.convertMailboxesToFolders := fun _ => [] |}.


End Sample.

(** ** Notions used in the proofs *)
Module Notions.
Import Js RegExp Runtime Types.

Definition lastOr (pv : option char) (l : str) : option char :=
  match last l with Some c => Some c | None => pv end.

Definition fromAt (pv : option char) (s : str) : bool :=
  atLineStart true pv && startsWith (lit "From ") s.

(** The character-by-character description of the replacement: a ">" is
    put in front of every "From " that stands at the start of a line. *)
Fixpoint escapeFrom (pv : option char) (s : str) : str :=
  match s with
  | [] => []
  | c :: s' =>
      (if fromAt pv s then [62] else []) ++ c :: escapeFrom (Some c) s'
  end.

(** [keeps m]: whatever [m] does, the final state is [R]-related to the
    initial one. *)
Definition keeps {S} (R : S -> S -> Prop) {A} (m : Effect.M S A) : Prop :=
  forall s, R s (snd (m s)).

Definition imapSame `{rt : Runtime.t} (s s' : Imap.t) : Prop :=
  Imap.imap s' = Imap.imap s /\ Imap.connected s' = Imap.connected s.

Definition imapInv `{rt : Runtime.t} (s : Imap.t) : Prop :=
  Imap.connected s = true -> is_Some (Imap.imap s).

Fixpoint skipWhile (p : cset) (s : str) : str :=
  match s with
  | c :: s' => if p c then skipWhile p s' else s
  | [] => []
  end.

Definition messageKeys : list str :=
  [lit "id"; lit "uid"; lit "subject"; lit "from"; lit "to"; lit "cc";
   lit "bcc"; lit "date"; lit "headers"; lit "text"; lit "html";
   lit "attachments"; lit "labels"; lit "folder"; lit "flags"].

Definition attachmentKeys : list str :=
  [lit "filename"; lit "contentType"; lit "size"; lit "hasContent"].

(** What the object built for one message holds. *)
Definition serialises `{rt : Runtime.t} (msg : EmailMessage)
    (obj : Json.value) : Prop :=
  Json.keys obj = messageKeys /\
  Json.field (lit "id") obj = Some (Json.VString (id msg)) /\
  Json.field (lit "uid") obj = Some (Json.VNumber (uid msg)) /\
  Json.field (lit "subject") obj = Some (Json.VString (subject msg)) /\
  Json.field (lit "from") obj = Some (Json.addressValue (from msg)) /\
  Json.field (lit "to") obj = Some (Json.addresses (to msg)) /\
  Json.field (lit "cc") obj = Some (Json.optional Json.addresses (cc msg)) /\
  Json.field (lit "bcc") obj = Some (Json.optional Json.addresses (bcc msg)) /\
  option_map Json.VString (Date_toISOString (date msg))
    = Json.field (lit "date") obj /\
  Json.field (lit "headers") obj
    = Some (Json.VObject
              (List.map (fun '(k, v) => (k, Json.headerValue v))
                 (headers msg))) /\
  Json.field (lit "text") obj = Some (Json.optional Json.VString (text msg)) /\
  Json.field (lit "html") obj = Some (Json.optional Json.VString (html msg)) /\
  Json.field (lit "labels") obj
    = Some (Json.optional Json.strings (labels msg)) /\
  Json.field (lit "folder") obj
    = Some (Json.optional Json.VString (folder msg)) /\
  Json.field (lit "flags") obj
    = Some (Json.optional Json.strings (flags msg)) /\
  Json.field (lit "attachments") obj
    = Some (Json.VArray (List.map Json.attachmentToJson (attachments msg))).

(** [den r x y]: the pattern [r] can take the matcher from state [x] to
    state [y]. *)
Fixpoint den (r : re) (x y : mstate) : Prop :=
  match r with
  | Chars p =>
      exists c, rest x = c :: rest y /\ p c = true /\ prev y = Some c
                /\ caps y = caps x
  | Opt p =>
      (exists c, rest x = c :: rest y /\ p c = true /\ prev y = Some c
                 /\ caps y = caps x)
      \/ y = x
  | Star _ p =>
      exists a, rest x = a ++ rest y /\ Forall (fun c => p c = true) a
                /\ prev y = lastOr (prev x) a /\ caps y = caps x
  | Bol m => atLineStart m (prev x) = true /\ y = x
  | Eol m => atLineEnd m (rest x) = true /\ y = x
  | Seq r1 r2 => exists z, den r1 x z /\ den r2 z y
  | Group n r' =>
      exists y', den r' x y' /\
        y = MState (prev y') (rest y')
              ((n, take (length (rest x) - length (rest y')) (rest x))
                 :: caps y')
  | Empty => y = x
  end.

Definition noLF (s : str) : Prop := Forall (fun c => c <> LF) s.
Definition noLT (s : str) : Prop :=
  Forall (fun c => isLineTerminator c = false) s.

(** A line is neutral for a header name when it does not start with the
    name and a colon; such a line never assigns that header. *)
Definition neutralFor (K : str) (l : str) : Prop :=
  startsWith (K ++ [58]) l = false.

(** A line is live when it starts with a code unit that is not white
    space: the header loop neither skips it nor stops at it. *)
Definition live (l : str) : Prop :=
  match l with [] => False | c :: _ => isWhiteSpace c = false end.

(** [quiet pv u v]: no envelope line starts inside [u], when [u] comes
    after [pv] and is followed by [v]. *)
Fixpoint quiet (pv : option char) (u v : str) : bool :=
  match u with
  | [] => true
  | c :: u' => negb (fromAt pv (c :: u' ++ v)) && quiet (Some c) u' v
  end.

(** Pieces that can follow one another in a mailbox: no envelope line
    starts inside a piece, and each piece ends a line. *)
Inductive separated : list str -> Prop :=
| separated_nil : separated []
| separated_cons p ps :
    quiet (Some 32) p (concat (List.map (app (lit "From ")) ps)) = true ->
    atLineStart true (lastOr (Some 32) p) = true ->
    separated ps ->
    separated (p :: ps).

(** A line whose first code unit is neither white space nor "F". *)
Definition plainHead (l : str) : Prop :=
  match l with
  | [] => False
  | c :: _ => isWhiteSpace c = false /\ c <> 70
  end.

(** *** Messages that survive an MBOX round trip

    A header text is clean when it is not empty, has no line terminator and
    does not start with white space. *)
Definition cleanText (s : str) : Prop := noLT s /\ live s.

(** The sender: a clean address without surrounding white space; with a
    display name, the name has no line terminator and does not hold both
    a double quote and a "<"; without one, the address does not hold both
    a "<" and a ">". *)
Definition safeSender (a : EmailAddress) : Prop :=
  cleanText (address a) /\ trim (address a) = address a /\
  (if truthyOpt (name a)
   then noLT (default [] (name a))
        /\ ((QUOTE ∉ default [] (name a)) \/ (60 ∉ default [] (name a)))
   else (60 ∉ address a) \/ (62 ∉ address a)).

(** A recipient: no line feed in the name or the address. *)
Definition safeRecipient (a : EmailAddress) : Prop :=
  noLF (address a) /\ noLF (default [] (name a)).

(** An additional header: no line feed in the name or the value, and no
    colon in the name. *)
Definition safeHeader (kv : str * HeaderValue) : Prop :=
  noLF (fst kv) /\ (58 ∉ fst kv) /\ noLF (headerValueToString (snd kv)).

(** [message.html || message.text || ''] *)
Definition bodyText `{rt : Runtime.t} (m : EmailMessage) : str :=
  orStr (orOpt (html m) []) (orOpt (text m) []).

(** A line that starts neither with "Subject:" nor with "From:". *)
Definition neutralLine (l : str) : Prop :=
  neutralFor (lit "Subject") l /\ neutralFor (lit "From") l.

(** The body: no line that starts with "Subject:" or "From:". *)
Definition safeBody (body : str) : Prop :=
  Forall (fun l => neutralFor (lit "Subject") l /\ neutralFor (lit "From") l)
    (split LF body).

(** An attachment: no line feed in the content type or the file name. *)
Definition safeAttachment (a : Attachment) : Prop :=
  noLF (contentType a) /\ noLF (filename a).

Definition roundTripSafe `{rt : Runtime.t} (m : EmailMessage) : Prop :=
  truthyOpt (raw m) = false /\
  Forall safeAttachment (attachments m) /\
  cleanText (subject m) /\
  safeSender (from m) /\
  Forall safeRecipient (to m) /\
  Forall safeRecipient (default [] (cc m)) /\
  noLF (id m) /\
  Forall safeHeader (headers m) /\
  safeBody (bodyText m).

(** [entryOf m p]: the text [p] of a mailbox entry, its leading "From "
    left out, holds no envelope line, ends a line, is kept by the entry
    filter, and reads back with the subject and the sender address
    of [m]. *)
Definition entryOf `{rt : Runtime.t} (m : EmailMessage) (p : str) : Prop :=
  (forall w, quiet (Some 32) p w = true) /\
  atLineStart true (lastOr (Some 32) p) = true /\
  live p /\
  forall uid,
    let r := Mbox.parseMessage (substring (indexOf LF p + 1) p) uid in
    subject r = subject m /\ address (from r) = address (from m).

(** *** Notions used for further properties of the code *)

(** The contents written for a list of messages, the boundary counter
    threaded from one message to the next as the exporter does. *)
Fixpoint contentsFrom `{rt : Runtime.t} (messages : list EmailMessage)
    (n : nat) : list str :=
  match messages with
  | [] => []
  | m :: rest =>
      let '(c, n') := Mbox.messageContent m n in c :: contentsFrom rest n'
  end.

(** The sender address fits on the envelope line: it has no line
    terminator and, when it is not empty, no white space in front. *)
Definition envelopeSafe `{rt : Runtime.t} (m : EmailMessage) : Prop :=
  noLT (address (from m)) /\
  match address (from m) with
  | [] => True
  | c :: _ => isWhiteSpace c = false
  end.

(** A line that is not empty and consists of white space: the only kind
    of line at which the header loop of the importer stops. *)
Definition blank (l : str) : bool := truthy l && negb (truthy (trim l)).

(** The code units a sanitised folder name is made of: a-z, 0-9, "_"
    and "-". *)
Definition folderChar (c : char) : bool :=
  isLower c || isDigit c || (c =? 95) || (c =? 45).

(** Two underscores in a row somewhere in the text. *)
Fixpoint doubled (s : str) : bool :=
  match s with
  | a :: s' =>
      match s' with
      | b :: _ => (a =? 95) && (b =? 95)
      | [] => false
      end || doubled s'
  | [] => false
  end.

(** An address that [formatAddress] writes in a form [parseAddress] reads
    back: the address not empty for a named sender, without line
    terminator and without white space around it; a display name not
    empty, without double quote and without white space around it; an
    address without display name without "<". *)
Definition plainAddress (a : EmailAddress) : Prop :=
  noLT (address a) /\ trim (address a) = address a /\
  match name a with
  | Some nm =>
      nm <> [] /\ (QUOTE ∉ nm) /\ trim nm = nm /\ address a <> []
  | None => 60 ∉ address a
  end.

(** Every run of code units of [p] replaced by one [by_], which is what
    [s.replace(/p+/g, by_)] gives; [inRun] tells that the code unit before
    belongs to a run that is replaced already. *)
Fixpoint squeeze (p : cset) (by_ : str) (inRun : bool) (s : str) : str :=
  match s with
  | [] => []
  | c :: s' =>
      if p c
      then (if inRun then squeeze p by_ true s'
            else by_ ++ squeeze p by_ true s')
      else c :: squeeze p by_ false s'
  end.

(** The file a folder's mailbox is written to by
    [MboxExporter.exportByFolder]. *)
Definition mboxPath `{rt : Runtime.t} (h : Host.t) (dir folder : str)
    : str :=
  Host.pathJoin h dir (Mbox.sanitizeFolderName folder ++ lit ".mbox").

(** The error of an upload of a message without raw text. *)
Definition noRawError : Effect.JsError :=
  Effect.newError (lit "Message must have raw content for upload").

(** The requests of one IMAP upload. *)
Definition uploadRequests (folder : str) : list Imap.Request :=
  [Imap.ReqOpenBox folder false; Imap.ReqAppend folder].

(** What [GmailProvider.getMessages] collects for one listed id: the
    parsed message when the id is there and the message can be fetched,
    nothing otherwise. *)
Definition gmailFetched `{rt : Runtime.t} (api : Gmail.Api)
    (oid : option str) : list EmailMessage :=
  if truthyOpt oid
  then match Gmail.messagesGet api (default [] oid) with
       | Effect.Returned message => [Gmail.parseGmailMessage message]
       | Effect.Thrown _ => []
       end
  else [].

(** [+] to [-] and [/] to [_]. *)
Definition urlSafe (c : char) : char :=
  if c =? 43 then 45 else if c =? 47 then 95 else c.

(** An option name that the options object does not inherit: not
    [__proto__] and not a name that [Object.prototype] provides. *)
Definition freshName (P : Cli.Prototypes) (key : str) : Prop :=
  key <> Cli.protoName /\ Cli.objectHas P key = false.

(** An argument that is taken as a value or a command: not empty and not
    starting with "-". *)
Definition plainArg (arg : str) : Prop :=
  arg <> [] /\ startsWith (lit "-") arg = false.

(** The options object as [parseArgs] creates it. *)
Definition noOptions : Cli.Options :=
  {| Cli.own := ∅; Cli.chain := Cli.ObjectProto |}.

(** A text that does not start with white space. *)
Definition headOk (s : str) : Prop :=
  match s with [] => True | c :: _ => isWhiteSpace c = false end.

(** The number of double quotes in a text. *)
Definition quotes (s : str) : nat := count_occ N.eq_dec s QUOTE.

End Notions.

(* ================================================================== *)
(** * Part II: properties                                              *)
(* ================================================================== *)

Import Js RegExp Runtime Types Notions.

(** Replace the literals of the goal by their code units. *)
Ltac eval_lits :=
  repeat match goal with
         | |- context [lit ?s] =>
             let v := eval vm_compute in (lit s) in
             change (lit s) with v
         end.

(** ** The matcher on literals and on [^From ] *)


Lemma lastOr_cons pv c l : lastOr pv (c :: l) = lastOr (Some c) l.
Proof.
  unfold lastOr. destruct l as [|d l]; [done|].
  change (last (c :: d :: l)) with (last (d :: l)).
  by destruct (last (d :: l)) eqn:E; [|apply last_None in E].
Qed.

Lemma mstate_eta x : MState (prev x) (rest x) (caps x) = x.
Proof. by destruct x. Qed.

Lemma run_Lit l k x :
  run (Lit l) k x =
  if startsWith l (rest x)
  then k (MState (lastOr (prev x) l) (drop (length l) (rest x)) (caps x))
  else None.
Proof.
  revert x. induction l as [|a l IH]; intros x.
  - by destruct x.
  - cbn [Lit run]. unfold step. destruct (rest x) as [|b s'] eqn:E; [done|].
    cbn [startsWith]. unfold only. destruct (b =? a) eqn:Eb; [|done].
    apply N.eqb_eq in Eb as ->. rewrite IH. cbn [rest prev caps andb].
    by rewrite lastOr_cons.
Qed.


Lemma matchAt_reFromLine pv s :
  matchAt Mbox.reFromLine pv s =
  if fromAt pv s then Some (MState (Some 32) (drop 5 s) []) else None.
Proof.
  unfold matchAt, Mbox.reFromLine, fromAt. cbn [run prev].
  destruct (atLineStart true pv); [|done]. by rewrite run_Lit.
Qed.

Lemma startsWith_length p s : startsWith p s = true -> (length p <= length s)%nat.
Proof.
  revert s. induction p as [|a p IH]; intros [|b s]; simpl; try lia; try done.
  intros [_ H]%andb_true_iff. apply IH in H. lia.
Qed.

Lemma startsWith_app p s : startsWith p s = true -> s = p ++ drop (length p) s.
Proof.
  revert s. induction p as [|a p IH]; intros [|b s]; simpl; try done.
  intros [->%N.eqb_eq H]%andb_true_iff. f_equal. by apply IH.
Qed.

Lemma startsWith_refl_app p t : startsWith p (p ++ t) = true.
Proof. induction p as [|a p IH]; simpl; [done|]. by rewrite N.eqb_refl. Qed.


Lemma escapeFrom_lineStart pv pv' s :
  atLineStart true pv = atLineStart true pv' ->
  escapeFrom pv s = escapeFrom pv' s.
Proof. destruct s; simpl; [done|]. unfold fromAt. by intros ->. Qed.

Lemma escapeFrom_inside pv a t :
  atLineStart true pv = false ->
  Forall (fun c => isLineTerminator c = false) a ->
  escapeFrom pv (a ++ t) = a ++ escapeFrom (lastOr pv a) t.
Proof.
  revert pv. induction a as [|c a IH]; intros pv Hpv Ha; [done|].
  inversion_clear Ha as [|?? Hc Ha']. cbn [app escapeFrom].
  unfold fromAt at 1. rewrite Hpv. cbn [andb app]. f_equal.
  rewrite lastOr_cons. apply IH; [|done]. simpl. by rewrite Hc.
Qed.

Lemma escapeFrom_match pv t :
  atLineStart true pv = true ->
  escapeFrom pv (lit "From " ++ t) = lit ">From " ++ escapeFrom (Some 32) t.
Proof.
  intros Hpv.
  change (lit "From " ++ t) with (70 :: ([114; 111; 109; 32] ++ t)).
  cbn [escapeFrom]. unfold fromAt at 1. rewrite Hpv.
  change (70 :: [114; 111; 109; 32] ++ t) with (lit "From " ++ t).
  rewrite startsWith_refl_app. cbn [andb].
  rewrite (escapeFrom_inside (Some 70) [114; 111; 109; 32]); [done|done|].
  by repeat constructor.
Qed.

Lemma replaceLoop_reFromLine fuel pv s :
  (length s < fuel)%nat ->
  replaceLoop Mbox.reFromLine (lit ">From ") fuel pv s = escapeFrom pv s.
Proof.
  revert pv s. induction fuel as [|fuel IH]; intros pv s Hlen; [lia|].
  cbn [replaceLoop]. rewrite matchAt_reFromLine.
  destruct (fromAt pv s) eqn:Hm.
  - pose proof Hm as [Hp Hs]%andb_true_iff.
    pose proof (startsWith_length _ _ Hs) as Hl.
    pose proof (startsWith_app _ _ Hs) as Hsplit.
    change (length (lit "From ")) with 5%nat in *.
    cbn [rest prev]. rewrite length_drop.
    destruct (Nat.ltb_spec (length s - 5) (length s)) as [_|?]; [|lia].
    rewrite IH by (rewrite length_drop; lia).
    symmetry. rewrite Hsplit at 1. by apply escapeFrom_match.
  - destruct s as [|c s']; [done|]. cbn [escapeFrom]. rewrite Hm.
    cbn [app]. f_equal. apply IH. simpl in Hlen. lia.
Qed.

Lemma escapeFromLines_escapeFrom s :
  Mbox.escapeFromLines s = escapeFrom None s.
Proof. apply replaceLoop_reFromLine. lia. Qed.

(** ** Lines and quoting *)

Lemma linesOf_nonempty s : Spec.linesOf s <> [].
Proof.
  destruct s as [|c s]; simpl; [done|].
  destruct (isLineTerminator c); [done|]. by destruct (Spec.linesOf s).
Qed.

Lemma concat_linesOf s : concat (Spec.linesOf s) = s.
Proof.
  induction s as [|c s IH]; simpl; [done|].
  destruct (isLineTerminator c); simpl; [by rewrite IH|].
  destruct (Spec.linesOf s) as [|l ls] eqn:E; simpl in *; by rewrite <- IH.
Qed.

Lemma startsWith_firstLine p s l ls :
  Forall (fun c => isLineTerminator c = false) p ->
  Spec.linesOf s = l :: ls ->
  startsWith p s = startsWith p l.
Proof.
  intros Hp. revert s l ls.
  induction Hp as [|a p Ha Hp IH]; intros s l ls E; [done|].
  destruct s as [|c s]; simpl in E.
  - by inversion E.
  - destruct (isLineTerminator c) eqn:Hc.
    + inversion E; subst. simpl.
      destruct (N.eqb_spec c a) as [->|]; [congruence|done].
    + destruct (Spec.linesOf s) as [|l' ls'] eqn:E'; inversion E; subst.
      * by destruct (linesOf_nonempty s).
      * simpl. f_equal. by eapply IH.
Qed.

Lemma escapeFrom_lines pv s :
  escapeFrom pv s =
  match Spec.linesOf s with
  | l :: ls =>
      (if atLineStart true pv then Spec.quoteLine l else l)
        ++ concat (List.map Spec.quoteLine ls)
  | [] => []
  end.
Proof.
  revert pv. induction s as [|c s IH]; intros pv.
  - simpl. by destruct (atLineStart true pv).
  - cbn [escapeFrom Spec.linesOf]. rewrite (IH (Some c)).
    destruct (isLineTerminator c) eqn:Hc.
    + assert (startsWith (lit "From ") (c :: s) = false) as Hf.
      { eval_lits. cbn [startsWith].
        destruct (N.eqb_spec c 70) as [->|]; done. }
      unfold fromAt. rewrite Hf, andb_false_r.
      assert (Spec.quoteLine [c] = [c]) as Hq.
      { unfold Spec.quoteLine. eval_lits. cbn [startsWith].
        by destruct (N.eqb_spec c 70) as [->|]. }
      rewrite Hq. cbn [atLineStart andb]. rewrite Hc.
      destruct (Spec.linesOf s) as [|l ls] eqn:E.
      { by destruct (linesOf_nonempty s). }
      cbn [List.map concat]. by destruct (atLineStart true pv).
    + cbn [atLineStart andb]. rewrite Hc.
      destruct (Spec.linesOf s) as [|l ls] eqn:E.
      { by destruct (linesOf_nonempty s). }
      unfold fromAt, Spec.quoteLine.
      assert (startsWith (lit "From ") (c :: s)
              = startsWith (lit "From ") (c :: l)) as ->.
      { apply (startsWith_firstLine _ _ _ ls); [by repeat constructor|].
        simpl. by rewrite Hc, E. }
      destruct (atLineStart true pv); cbn [andb]; [|done].
      by destruct (startsWith (lit "From ") (c :: l)).
Qed.

Lemma escapeFromLines_lines s :
  Mbox.escapeFromLines s = concat (List.map Spec.quoteLine (Spec.linesOf s)).
Proof.
  rewrite escapeFromLines_escapeFrom, escapeFrom_lines.
  destruct (Spec.linesOf s) eqn:E; [by destruct (linesOf_nonempty s)|done].
Qed.

(** C1, as the code has it.  For every message and every state of the boundary
    generator, the MBOX entry is the envelope line, a line feed, the message
    content in which every line that begins with "From " carries exactly one
    additional ">" in front and every other line, a line beginning with
    ">From " included, is unchanged, and two line feeds.  Lines are delimited
    by the ECMAScript line terminators and their concatenation is the
    content. *)
Theorem C1_from_lines_quoted_once `{rt : Runtime.t}
    (message : EmailMessage) (n : nat) :
  let content := fst (Mbox.messageContent message n) in
  concat (Spec.linesOf content) = content /\
  fst (Mbox.messageToMboxEntry message n) =
    Mbox.createFromLine message ++ [LF]
      ++ concat (List.map Spec.quoteLine (Spec.linesOf content))
      ++ [LF; LF].
Proof.
  intros content. split; [apply concat_linesOf|].
  unfold Mbox.messageToMboxEntry. subst content.
  destruct (Mbox.messageContent message n) as [content n'].
  cbn [fst]. by rewrite escapeFromLines_lines.
Qed.

(** C1, counterexample to the rule with repetition.  The message whose raw
    text is the single line ">From x" is exported with that line unchanged;
    the rule with repetition would give ">>From x". *)
Lemma C1_quoted_line_not_requoted :
  let out := fst (Mbox.messageToMboxEntry Sample.quotedMessage 0) in
  out = Mbox.createFromLine Sample.quotedMessage ++ [LF]
          ++ lit ">From x" ++ [LF; LF]
  /\ out <> Mbox.createFromLine Sample.quotedMessage ++ [LF]
          ++ concat (List.map Spec.quoteLineRepeated
                       (Spec.linesOf (lit ">From x")))
          ++ [LF; LF].
Proof. split; [by vm_compute|]. vm_compute. discriminate. Qed.

(** ** Connection state of the providers *)

Import Effect Base.

(** A disconnected instance rejects every data-fetching call before doing
    anything else. *)
Ltac guard_fails H :=
  cbv [bind ret throw lift modify gets tryCatch ensureConnected];
  rewrite H; reflexivity.

Lemma imap_call_disconnected `{rt : Runtime.t} (sv : Imap.Server)
    (c : DataCall) (s : Imap.t) :
  Imap.connected s = false -> call sv c s = (Thrown notConnectedError, s).
Proof.
  intros H.
  destruct c; cbn [call getFolders getMessages getMessage uploadMessages
                     createFolder deleteFolder Imap.provider];
    unfold Imap.getFolders, Imap.getMessages, Imap.getMessage,
      Imap.uploadMessages, Imap.createFolder, Imap.deleteFolder;
    guard_fails H.
Qed.

Lemma gmail_call_disconnected `{rt : Runtime.t} (api : Gmail.Api)
    (c : DataCall) (s : Gmail.t) :
  Gmail.connected s = false -> call api c s = (Thrown notConnectedError, s).
Proof.
  intros H.
  destruct c; cbn [call getFolders getMessages getMessage uploadMessages
                     createFolder deleteFolder Gmail.provider];
    unfold Gmail.getFolders, Gmail.getMessages, Gmail.getMessage,
      Gmail.uploadMessages, Gmail.createFolder, Gmail.deleteFolder;
    guard_fails H.
Qed.

Lemma jmap_call_disconnected `{rt : Runtime.t} (sv : Jmap.Server)
    (c : DataCall) (s : Jmap.t) :
  Jmap.connected s = false -> call sv c s = (Thrown notConnectedError, s).
Proof.
  intros H.
  destruct c; cbn [call getFolders getMessages getMessage uploadMessages
                     createFolder deleteFolder Jmap.provider];
    unfold Jmap.getFolders, Jmap.getMessages, Jmap.getMessage,
      Jmap.uploadMessages, Jmap.createFolder, Jmap.deleteFolder;
    guard_fails H.
Qed.

(** A run of data-fetching calls on a disconnected instance: every call is
    rejected and the instance does not change. *)
Lemma calls_disconnected `{rt : Runtime.t} {S Env : Type}
    `{!IEmailProvider S Env} (s : S) :
  (forall env c, call env c s = (Thrown notConnectedError, s)) ->
  forall cs : list (Env * DataCall),
    calls cs s = (List.map (fun _ => Thrown notConnectedError) cs, s).
Proof.
  intros H cs. induction cs as [|[env c] cs IH]; [done|].
  cbn [calls List.map]. by rewrite H, IH.
Qed.

(** ** Operations that leave part of the instance alone *)

Section Keeps.
Context {S : Type} (R : S -> S -> Prop) `{!PreOrder R}.


Lemma keeps_ret {A} (a : A) : keeps R (ret a).
Proof. intros s. reflexivity. Qed.
Lemma keeps_throw {A} e : keeps R (throw (A:=A) e).
Proof. intros s. reflexivity. Qed.
Lemma keeps_lift {A} (o : outcome A) : keeps R (lift o).
Proof. intros s. reflexivity. Qed.
Lemma keeps_gets {A} (f : S -> A) : keeps R (gets f).
Proof. intros s. reflexivity. Qed.
Lemma keeps_ensureConnected (f : S -> bool) : keeps R (ensureConnected f).
Proof. intros s. unfold ensureConnected. destruct (negb (f s)); reflexivity. Qed.
Lemma keeps_modify (f : S -> S) : (forall s, R s (f s)) -> keeps R (modify f).
Proof. intros H s. apply H. Qed.
Lemma keeps_bind {A B} (m : M S A) (k : A -> M S B) :
  keeps R m -> (forall a, keeps R (k a)) -> keeps R (bind m k).
Proof.
  intros Hm Hk s. unfold bind. specialize (Hm s).
  destruct (m s) as [[a|e] s']; cbn [snd] in *; [|done].
  etrans; [exact Hm|apply Hk].
Qed.
Lemma keeps_tryCatch {A} (m : M S A) (h : JsError -> M S A) :
  keeps R m -> (forall e, keeps R (h e)) -> keeps R (tryCatch m h).
Proof.
  intros Hm Hh s. unfold tryCatch. specialize (Hm s).
  destruct (m s) as [[a|e] s']; cbn [snd] in *; [done|].
  etrans; [exact Hm|apply Hh].
Qed.
Lemma keeps_forEach {A} (xs : list A) (body : A -> M S unit) :
  (forall x, keeps R (body x)) -> keeps R (forEach xs body).
Proof.
  intros H. induction xs as [|x xs IH]; cbn [forEach].
  - apply keeps_ret.
  - apply keeps_bind; [apply H|intros _; apply IH].
Qed.
End Keeps.

Ltac keeps_step :=
  match goal with
  | |- keeps _ (bind _ _) => apply keeps_bind; [apply _| |intros]
  | |- keeps _ (tryCatch _ _) => apply keeps_tryCatch; [apply _| |intros]
  | |- keeps _ (forEach _ _) => apply keeps_forEach; [apply _|intros]
  | |- keeps _ (ret _) => apply keeps_ret; apply _
  | |- keeps _ (throw _) => apply keeps_throw; apply _
  | |- keeps _ (lift _) => apply keeps_lift; apply _
  | |- keeps _ (gets _) => apply keeps_gets; apply _
  | |- keeps _ (ensureConnected _) => apply keeps_ensureConnected; apply _
  | |- keeps _ (if ?b then _ else _) => destruct b
  | |- keeps _ (match ?x with _ => _ end) => destruct x
  | |- keeps _ (let '(_, _) := ?x in _) => destruct x
  end.

(** *** IMAP: the client and the flag are touched by connect and
    disconnect only, and the flag is set only while there is a client. *)


#[local] Instance imapSame_preorder `{rt : Runtime.t} : PreOrder imapSame.
Proof.
  split.
  - by intros s.
  - intros s1 s2 s3 [H1 H2] [H3 H4]. split; congruence.
Qed.

Section ImapFrames.
Context `{rt : Runtime.t}.

Lemma keeps_imap_request r : keeps imapSame (Imap.request r).
Proof. intros s. done. Qed.
Lemma keeps_imap_client : keeps imapSame Imap.client.
Proof. intros s. unfold Imap.client. by destruct (Imap.imap s). Qed.
Lemma keeps_imap_rejectOn e : keeps imapSame (Imap.rejectOn e).
Proof. destruct e; [apply keeps_throw|apply keeps_ret]; apply _. Qed.

Ltac imap_keeps :=
  repeat first
    [ apply keeps_imap_request | apply keeps_imap_client
    | apply keeps_imap_rejectOn | keeps_step ].

Lemma keeps_imap_getFolders sv : keeps imapSame (Imap.getFolders sv).
Proof. unfold Imap.getFolders. imap_keeps. Qed.
Lemma keeps_imap_getMessages sv f l : keeps imapSame (Imap.getMessages sv f l).
Proof. unfold Imap.getMessages. imap_keeps. Qed.
Lemma keeps_imap_getMessage sv f i : keeps imapSame (Imap.getMessage sv f i).
Proof. unfold Imap.getMessage. imap_keeps. Qed.
Lemma keeps_imap_uploadMessages sv f ms :
  keeps imapSame (Imap.uploadMessages sv f ms).
Proof. unfold Imap.uploadMessages, Imap.uploadMessage. imap_keeps. Qed.
Lemma keeps_imap_createFolder sv p : keeps imapSame (Imap.createFolder sv p).
Proof. unfold Imap.createFolder. imap_keeps. Qed.
Lemma keeps_imap_deleteFolder sv p : keeps imapSame (Imap.deleteFolder sv p).
Proof. unfold Imap.deleteFolder. imap_keeps. Qed.
Lemma keeps_imap_countFolders sv fs total :
  keeps imapSame (Imap.countFolders sv fs total).
Proof.
  revert total. induction fs as [|f fs IH]; intros total; cbn [Imap.countFolders].
  - apply keeps_ret; apply _.
  - apply keeps_bind; [apply _| |intros; apply IH].
    unfold Imap.getFolderMessageCount. imap_keeps.
Qed.
Lemma keeps_imap_getTotalMessageCount sv :
  keeps imapSame (Imap.getTotalMessageCount sv).
Proof.
  unfold Imap.getTotalMessageCount.
  apply keeps_bind; [apply _|apply keeps_imap_getFolders|intros].
  apply keeps_bind; [apply _|apply keeps_imap_countFolders|intros].
  apply keeps_ret; apply _.
Qed.

Lemma keeps_imap_call sv c : keeps imapSame (call sv c).
Proof.
  destruct c; cbn [call getFolders getMessages getMessage uploadMessages
                     createFolder deleteFolder Imap.provider];
    (apply keeps_bind; [apply _| |intros; apply keeps_ret; apply _]).
  - apply keeps_imap_getFolders.
  - apply keeps_imap_getMessages.
  - apply keeps_imap_getMessage.
  - apply keeps_imap_uploadMessages.
  - apply keeps_imap_createFolder.
  - apply keeps_imap_deleteFolder.
Qed.


Lemma imap_connect_state sv s :
  Imap.imap (snd (Imap.connect sv s)) = Some (Imap.config s) /\
  Imap.connected (snd (Imap.connect sv s))
    = bool_decide (Imap.onConnect sv = None) /\
  fst (Imap.connect sv s)
    = match Imap.onConnect sv with
      | None => Returned tt
      | Some err => Thrown err
      end.
Proof.
  unfold Imap.connect.
  cbv [bind ret throw lift modify gets Imap.request].
  destruct (Imap.onConnect sv); done.
Qed.

Lemma imap_disconnect_state sv s :
  fst (Imap.disconnect sv s) = Returned tt /\
  Imap.imap (snd (Imap.disconnect sv s)) = None /\
  Imap.connected (snd (Imap.disconnect sv s))
    = match Imap.imap s with Some _ => false | None => Imap.connected s end.
Proof.
  unfold Imap.disconnect.
  cbv [bind ret throw lift modify gets Imap.request].
  destruct (Imap.imap s) eqn:E; cbn; by rewrite ?E.
Qed.

Lemma imap_testConnection_state sv s :
  testConnection sv s =
    (Returned (bool_decide (Imap.onConnect sv = None)),
     match Imap.onConnect sv with
     | None => snd (Imap.disconnect sv (snd (Imap.connect sv s)))
     | Some _ => snd (Imap.connect sv s)
     end).
Proof.
  cbn [testConnection Imap.provider]. unfold Imap.testConnection.
  unfold tryCatch, bind at 1.
  destruct (imap_connect_state sv s) as (Hi & Hc & Ho).
  destruct (Imap.connect sv s) as [o s1]. cbn [fst snd] in *.
  destruct (Imap.onConnect sv) as [err|]; subst o; [done|].
  unfold bind, ret.
  destruct (imap_disconnect_state sv s1) as (Hd & _).
  destruct (Imap.disconnect sv s1) as [o2 s2]. cbn [fst snd] in *.
  by subst o2.
Qed.

Lemma imap_reachable_inv cfg s :
  Reachable (Imap.create cfg) s -> imapInv s.
Proof.
  induction 1 as [|sv s Hs IH|sv s Hs IH|sv s Hs IH|sv c s Hs IH
                  |sv s Hs IH|h s Hh Hs IH]; unfold imapInv in *.
  - done.
  - cbn [connect Imap.provider].
    destruct (imap_connect_state sv s) as (-> & _). by eexists.
  - cbn [disconnect Imap.provider].
    destruct (imap_disconnect_state sv s) as (_ & _ & ->).
    destruct (Imap.imap s) eqn:E; [done|]. intros H. apply IH in H.
    by destruct H.
  - rewrite imap_testConnection_state. cbn [snd].
    destruct (Imap.onConnect sv).
    + destruct (imap_connect_state sv s) as (-> & _). by eexists.
    + destruct (imap_disconnect_state sv (snd (Imap.connect sv s)))
        as (_ & _ & ->).
      destruct (imap_connect_state sv s) as (-> & _). done.
  - destruct (keeps_imap_call sv c s) as [-> ->]. done.
  - cbn [getTotalMessageCount Imap.provider].
    destruct (keeps_imap_getTotalMessageCount sv s) as [-> ->]. done.
  - cbn [handlers Imap.provider] in Hh.
    apply list_elem_of_In in Hh. simpl in Hh.
    destruct Hh as [<-|[<-|[]]]; done.
Qed.
End ImapFrames.

(** *** Gmail and JMAP: connect, disconnect, testConnection *)

Section GmailJmapState.
Context `{rt : Runtime.t}.

Lemma gmail_connect_state api s :
  Gmail.connect api s =
    match Gmail.getProfile api with
    | Returned _ =>
        (Returned tt, {| Gmail.gmail := true; Gmail.connected := true |})
    | Thrown error =>
        (Thrown (newError (lit "Failed to connect to Gmail: "
                             ++ errorToString error)),
         {| Gmail.gmail := true; Gmail.connected := false |})
    end.
Proof.
  unfold Gmail.connect. cbv [tryCatch bind ret throw lift modify gets].
  by destruct (Gmail.getProfile api).
Qed.

Lemma gmail_testConnection_state api s :
  testConnection api s =
    (Returned (succeeded (fst (Gmail.connect api s))),
     snd (Gmail.connect api s)).
Proof.
  cbn [testConnection Gmail.provider]. unfold Gmail.testConnection.
  unfold tryCatch, bind, ret. rewrite gmail_connect_state.
  by destruct (Gmail.getProfile api).
Qed.

Lemma jmap_connect_state sv s :
  match fst (Jmap.connect sv s) with
  | Returned _ => Jmap.connected (snd (Jmap.connect sv s)) = true
  | Thrown _ => Jmap.connected (snd (Jmap.connect sv s)) = false
  end.
Proof.
  unfold Jmap.connect. cbv [tryCatch bind ret throw lift modify gets].
  destruct (Jmap.fetchSession sv) as [response|e]; [|done].
  destruct (negb (Jmap.ok response)); [done|].
  destruct (Jmap.json response) as [sess|e]; [|done].
  destruct (Jmap.primaryAccounts sess) as [accounts|]; [|done].
  destruct (get Jmap.mailCapability accounts) as [accountId|]; [|done].
  by destruct (truthy accountId).
Qed.

Lemma jmap_disconnect_state sv s :
  Jmap.disconnect sv s = (Returned tt, Jmap.create).
Proof. done. Qed.

Lemma jmap_testConnection_state sv s :
  testConnection sv s =
    (Returned (succeeded (fst (Jmap.connect sv s))),
     if succeeded (fst (Jmap.connect sv s)) then Jmap.create
     else snd (Jmap.connect sv s)).
Proof.
  cbn [testConnection Jmap.provider]. unfold Jmap.testConnection.
  unfold tryCatch, bind at 1.
  destruct (Jmap.connect sv s) as [[[]|e] s1]; cbn [fst snd succeeded].
  - unfold bind. by rewrite jmap_disconnect_state.
  - done.
Qed.
End GmailJmapState.

(** C4.  For each of the three providers, each of the six data-fetching
    operations, called on an instance that was just created or on an
    instance on which disconnect() was just called, throws the error of
    ensureConnected (NotConnectedError) and returns no data; the connected
    flag is false in both states.  For IMAP the instance before
    disconnect() is any state the instance can reach; for Gmail and JMAP it
    is any state at all. *)
Theorem C4_data_calls_rejected_when_disconnected `{rt : Runtime.t} :
  (forall cfg (s : Imap.t) (sv0 sv : Imap.Server) (c : DataCall),
      Reachable (Imap.create cfg) s ->
      let fresh := Imap.create cfg in
      let closed := snd (disconnect sv0 s) in
      isConnected fresh = false /\
      fst (call sv c fresh) = Thrown notConnectedError /\
      isConnected closed = false /\
      fst (call sv c closed) = Thrown notConnectedError)
  /\ (forall (s : Gmail.t) (api0 api : Gmail.Api) (c : DataCall),
      let fresh := Gmail.create in
      let closed := snd (disconnect api0 s) in
      isConnected fresh = false /\
      fst (call api c fresh) = Thrown notConnectedError /\
      isConnected closed = false /\
      fst (call api c closed) = Thrown notConnectedError)
  /\ (forall (s : Jmap.t) (sv0 sv : Jmap.Server) (c : DataCall),
      let fresh := Jmap.create in
      let closed := snd (disconnect sv0 s) in
      isConnected fresh = false /\
      fst (call sv c fresh) = Thrown notConnectedError /\
      isConnected closed = false /\
      fst (call sv c closed) = Thrown notConnectedError).
Proof.
  split; [|split].
  - intros cfg s sv0 sv c Hs fresh closed.
    assert (Imap.connected closed = false) as Hclosed.
    { subst closed. cbn [disconnect Imap.provider].
      destruct (imap_disconnect_state sv0 s) as (_ & _ & ->).
      destruct (Imap.imap s) eqn:E; [done|].
      destruct (Imap.connected s) eqn:Ec; [|done].
      apply imap_reachable_inv in Hs. destruct (Hs Ec) as [? ?]. congruence. }
    repeat split; [|done|]; by rewrite imap_call_disconnected.
  - intros s api0 api c fresh closed.
    repeat split; by rewrite gmail_call_disconnected.
  - intros s sv0 sv c fresh closed.
    repeat split; by rewrite jmap_call_disconnected.
Qed.

(** C5.  For each of the three providers testConnection() never throws: it
    returns true when connect() succeeds and false when connect() throws.
    After a successful test the IMAP and JMAP instances are disconnected
    and the Gmail instance is connected. *)
Theorem C5_testConnection_reports_and_never_throws `{rt : Runtime.t} :
  (forall (sv : Imap.Server) (s : Imap.t),
      fst (testConnection sv s)
        = Returned (succeeded (fst (connect sv s))) /\
      (succeeded (fst (connect sv s)) = true ->
       isConnected (snd (testConnection sv s)) = false))
  /\ (forall (api : Gmail.Api) (s : Gmail.t),
      fst (testConnection api s)
        = Returned (succeeded (fst (connect api s))) /\
      (succeeded (fst (connect api s)) = true ->
       isConnected (snd (testConnection api s)) = true))
  /\ (forall (sv : Jmap.Server) (s : Jmap.t),
      fst (testConnection sv s)
        = Returned (succeeded (fst (connect sv s))) /\
      (succeeded (fst (connect sv s)) = true ->
       isConnected (snd (testConnection sv s)) = false)).
Proof.
  split; [|split].
  - intros sv s. rewrite imap_testConnection_state.
    cbn [connect isConnected Imap.provider fst snd].
    destruct (imap_connect_state sv s) as (Hi & _ & ->).
    destruct (Imap.onConnect sv) as [err|]; cbn [succeeded]; [done|].
    split; [done|]. intros _.
    destruct (imap_disconnect_state sv (snd (Imap.connect sv s)))
      as (_ & _ & ->).
    by rewrite Hi.
  - intros api s. rewrite gmail_testConnection_state.
    cbn [connect isConnected Gmail.provider fst snd].
    split; [done|]. rewrite gmail_connect_state.
    by destruct (Gmail.getProfile api).
  - intros sv s. rewrite jmap_testConnection_state.
    cbn [connect isConnected Jmap.provider fst snd].
    split; [done|]. by intros ->.
Qed.

(** C10.  For each of the three providers, when connect() throws, in
    whatever state the instance was, the instance is left with the
    connected flag false; every data-fetching call made after that, in any
    number and order, throws the error of ensureConnected and leaves the
    instance as it is; and a later connect() that succeeds sets the flag. *)
Theorem C10_failed_connect_leaves_disconnected `{rt : Runtime.t} :
  (forall (sv : Imap.Server) (s : Imap.t) (e : JsError),
      fst (connect sv s) = Thrown e ->
      let s' := snd (connect sv s) in
      isConnected s' = false /\
      (forall cs : list (Imap.Server * DataCall),
          calls cs s'
            = (List.map (fun _ => Thrown notConnectedError) cs, s')) /\
      (forall sv', succeeded (fst (connect sv' s')) = true ->
                   isConnected (snd (connect sv' s')) = true))
  /\ (forall (api : Gmail.Api) (s : Gmail.t) (e : JsError),
      fst (connect api s) = Thrown e ->
      let s' := snd (connect api s) in
      isConnected s' = false /\
      (forall cs : list (Gmail.Api * DataCall),
          calls cs s'
            = (List.map (fun _ => Thrown notConnectedError) cs, s')) /\
      (forall api', succeeded (fst (connect api' s')) = true ->
                    isConnected (snd (connect api' s')) = true))
  /\ (forall (sv : Jmap.Server) (s : Jmap.t) (e : JsError),
      fst (connect sv s) = Thrown e ->
      let s' := snd (connect sv s) in
      isConnected s' = false /\
      (forall cs : list (Jmap.Server * DataCall),
          calls cs s'
            = (List.map (fun _ => Thrown notConnectedError) cs, s')) /\
      (forall sv', succeeded (fst (connect sv' s')) = true ->
                   isConnected (snd (connect sv' s')) = true)).
Proof.
  split; [|split].
  - intros sv s e He s'.
    assert (Imap.connected s' = false) as Hoff.
    { subst s'. cbn [connect Imap.provider] in *.
      destruct (imap_connect_state sv s) as (_ & -> & Ho).
      rewrite Ho in He. by destruct (Imap.onConnect sv). }
    split; [done|]. split.
    + apply calls_disconnected. intros sv1 c.
      by apply imap_call_disconnected.
    + intros sv'. cbn [connect isConnected Imap.provider].
      destruct (imap_connect_state sv' s') as (_ & -> & ->).
      by destruct (Imap.onConnect sv').
  - intros api s e He s'.
    assert (Gmail.connected s' = false) as Hoff.
    { subst s'. cbn [connect Gmail.provider] in *.
      rewrite gmail_connect_state in *.
      by destruct (Gmail.getProfile api). }
    split; [done|]. split.
    + apply calls_disconnected. intros api1 c.
      by apply gmail_call_disconnected.
    + intros api'. cbn [connect isConnected Gmail.provider].
      rewrite gmail_connect_state. by destruct (Gmail.getProfile api').
  - intros sv s e He s'.
    assert (Jmap.connected s' = false) as Hoff.
    { subst s'. cbn [connect Jmap.provider] in *.
      pose proof (jmap_connect_state sv s) as H. by rewrite He in H. }
    split; [done|]. split.
    + apply calls_disconnected. intros sv1 c.
      by apply jmap_call_disconnected.
    + intros sv'. cbn [connect isConnected Jmap.provider].
      pose proof (jmap_connect_state sv' s') as H.
      by destruct (fst (Jmap.connect sv' s')).
Qed.


(** ** IMAP: the range fetched by getMessages *)

Lemma run_ensureConnected {S A} (f : S -> bool) (k : unit -> M S A) s :
  f s = true -> bind (ensureConnected f) k s = k tt s.
Proof. intros H. unfold bind, ensureConnected. by rewrite H. Qed.

Lemma run_lift_returned {S A B} (a : A) (k : A -> M S B) s :
  bind (lift (Returned a)) k s = k a s.
Proof. done. Qed.

Lemma run_imap_client `{rt : Runtime.t} {A} (k : unit -> M Imap.t A) s :
  is_Some (Imap.imap s) -> bind Imap.client k s = k tt s.
Proof. intros [c H]. unfold bind, Imap.client. by rewrite H. Qed.

Lemma run_imap_request `{rt : Runtime.t} {A} r (k : unit -> M Imap.t A) s :
  bind (Imap.request r) k s
  = k tt {| Imap.imap := Imap.imap s; Imap.config := Imap.config s;
            Imap.connected := Imap.connected s;
            Imap.trace := Imap.trace s ++ [r] |}.
Proof. done. Qed.

Lemma fetchStart_rangeStart limit total :
  (0 <= limit)%Z -> (1 <= total)%Z ->
  Imap.fetchStart limit total = Spec.rangeStart limit total.
Proof.
  intros Hl Ht. unfold Imap.fetchStart, Spec.rangeStart.
  destruct (Z.ltb_spec 0 limit), (Z.ltb_spec limit total),
    (Z.eqb_spec limit 0); cbn [andb]; lia.
Qed.

(** C6.  On a connected IMAP instance, for a folder that the server opens
    with [total] messages and a limit that is not negative: when total is 0
    the result is the empty sequence and the only request is the opening of
    the folder, no fetch; when total is at least 1 the requests are the
    opening of the folder, read-only, and one fetch of the sequence-number
    range start:total, where start is max(1, total - limit + 1) for a
    positive limit and 1 for limit 0; with limit at least total the range
    is 1:total. *)
Theorem C6_imap_fetch_range `{rt : Runtime.t} (sv : Imap.Server)
    (s : Imap.t) (folder : str) (limit total : Z) :
  Imap.connected s = true ->
  is_Some (Imap.imap s) ->
  Imap.openBox sv folder true = Returned total ->
  (0 <= limit)%Z ->
  (total = 0%Z ->
     fst (Imap.getMessages sv folder limit s) = Returned [] /\
     Imap.trace (snd (Imap.getMessages sv folder limit s))
       = Imap.trace s ++ [Imap.ReqOpenBox folder true])
  /\ ((1 <= total)%Z ->
     Imap.trace (snd (Imap.getMessages sv folder limit s))
       = Imap.trace s
           ++ [Imap.ReqOpenBox folder true;
               Imap.ReqSeqFetch
                 (zToString (Spec.rangeStart limit total) ++ lit ":"
                    ++ zToString total)] /\
     ((total <= limit)%Z -> Spec.rangeStart limit total = 1%Z)).
Proof.
  intros Hc Hi Ho Hl. unfold Imap.getMessages.
  rewrite run_ensureConnected by done.
  rewrite run_imap_client by done.
  rewrite run_imap_request, Ho, run_lift_returned.
  split.
  - intros ->. by cbn.
  - intros Ht. destruct (Z.eqb_spec total 0) as [->|_]; [lia|].
    rewrite run_imap_client by done. rewrite run_imap_request.
    unfold Imap.fetchRange. rewrite fetchStart_rangeStart by done.
    split.
    + destruct (Imap.seqFetch sv _) as [delivered [err|]];
        cbn; by rewrite <- app_assoc.
    + intros H. unfold Spec.rangeStart. destruct (Z.eqb_spec limit 0); lia.
Qed.


(** ** JMAP: keywords and flags *)

(** C7.  The flags of a converted JMAP email contain "\Seen" exactly when
    the keyword "$seen" is set, "\Flagged" exactly when "$flagged" is set,
    "\Answered" exactly when "$answered" is set, "\Draft" exactly when
    "$draft" is set, and nothing else; setting or clearing any other
    keyword leaves the flags as they are. *)
Theorem C7_jmap_flags_from_keywords `{rt : Runtime.t}
    (cache : gmap (list N) Jmap.JmapMailbox) (email : Jmap.JmapEmail)
    (folder : str) :
  (exists fl : list str,
      flags (Jmap.convertJmapEmail cache email folder) = Some fl /\
      forall f : str,
        f ∈ fl <->
        (f = lit "\Seen" /\ Spec.keywordIsSet email (lit "$seen")) \/
        (f = lit "\Flagged" /\ Spec.keywordIsSet email (lit "$flagged")) \/
        (f = lit "\Answered" /\ Spec.keywordIsSet email (lit "$answered")) \/
        (f = lit "\Draft" /\ Spec.keywordIsSet email (lit "$draft")))
  /\ (forall (kw : gmap (list N) bool) (k : str) (b : bool),
      Jmap.e_keywords email = Some kw ->
      k ∉ [lit "$seen"; lit "$flagged"; lit "$answered"; lit "$draft"] ->
      flags (Jmap.convertJmapEmail cache
               (Spec.withKeywords (Some (<[k := b]> kw)) email) folder)
        = flags (Jmap.convertJmapEmail cache email folder)).
Proof.
  split.
  - eexists. split; [reflexivity|]. intros f.
    unfold Jmap.keywordsToFlags, Spec.keywordIsSet.
    destruct (Jmap.e_keywords email) as [kw|].
    + unfold Jmap.keywordSet.
      rewrite !elem_of_app.
      assert (forall (k v : str),
                 f ∈ (if match kw !! k with Some true => true | _ => false end
                      then [v] else [])
                 <-> f = v /\ kw !! k = Some true) as Hone.
      { intros k v.
        destruct (kw !! k) as [[]|];
          rewrite ?list_elem_of_singleton, ?elem_of_nil; naive_solver. }
      rewrite !Hone. naive_solver.
    + rewrite elem_of_nil. naive_solver.
  - intros kw k b Hkw Hk. cbn [flags Jmap.convertJmapEmail].
    f_equal. unfold Spec.withKeywords. cbn [Jmap.e_keywords].
    rewrite Hkw. unfold Jmap.keywordsToFlags, Jmap.keywordSet.
    rewrite !lookup_insert_ne; [done|..]; intros ->; apply Hk;
      rewrite !elem_of_cons; tauto.
Qed.


(** ** The default subject *)

Lemma imap_default_subject `{rt : Runtime.t} (parsed : Imap.ParsedMail)
    (uid : number) (folder : str) :
  truthyOpt (Imap.p_subject parsed) = false ->
  subject (Imap.parseMessage parsed uid folder) = lit "(No Subject)".
Proof.
  intros H. cbn [subject Imap.parseMessage]. unfold orOpt, orStr.
  destruct (Imap.p_subject parsed); [|done]. cbn in H. by rewrite H.
Qed.

Lemma jmap_default_subject `{rt : Runtime.t} cache (email : Jmap.JmapEmail)
    (folder : str) :
  truthyOpt (Jmap.e_subject email) = false ->
  subject (Jmap.convertJmapEmail cache email folder) = lit "(No Subject)".
Proof.
  intros H. cbn [subject Jmap.convertJmapEmail]. unfold orOpt, orStr.
  destruct (Jmap.e_subject email); [|done]. cbn in H. by rewrite H.
Qed.

Lemma gmail_subject_without_headers `{rt : Runtime.t} (message : Gmail.Message) :
  match Gmail.m_payload message with
  | Some p => Gmail.partHeadersOf p = None \/ Gmail.partHeadersOf p = Some []
  | None => True
  end ->
  subject (Gmail.parseGmailMessage message) = [].
Proof.
  cbn [subject Gmail.parseGmailMessage].
  destruct (Gmail.m_payload message) as [p|]; [|done].
  by intros [-> | ->].
Qed.

(** C3, the Gmail provider on a message without a Subject header: the
    subject of the normalised message is the empty string, not
    "(No Subject)". *)
Theorem C3_gmail_subject_without_header_is_empty :
  subject (Gmail.parseGmailMessage (rt:=Sample.runtime) Sample.gmailNoSubject)
    = []
  /\ subject (Gmail.parseGmailMessage (rt:=Sample.runtime) Sample.gmailNoSubject)
    <> lit "(No Subject)".
Proof. split; [by vm_compute|]. vm_compute. discriminate. Qed.


(** ** Folder names *)


Lemma skipWhile_length p s : (length (skipWhile p s) <= length s)%nat.
Proof.
  induction s as [|c s IH]; simpl; [lia|]. destruct (p c); simpl; lia.
Qed.

Lemma starGreedy_Some p pv s cs :
  exists pv', starGreedy p Some pv s cs = Some (MState pv' (skipWhile p s) cs).
Proof.
  revert pv. induction s as [|c s IH]; intros pv; simpl; [by eexists|].
  destruct (p c); [|by eexists].
  destruct (IH (Some c)) as [pv' ->]. by eexists.
Qed.

Lemma replaceLoop_Chars p by_ fuel pv s :
  (length s < fuel)%nat ->
  replaceLoop (Chars p) by_ fuel pv s
  = flat_map (fun c => if p c then by_ else [c]) s.
Proof.
  revert pv s. induction fuel as [|fuel IH]; intros pv s Hlen; [lia|].
  destruct s as [|c s]; [done|]. simpl in Hlen.
  cbn [replaceLoop flat_map]. unfold matchAt. cbn [run]. unfold step.
  cbn [rest caps prev]. destruct (p c).
  - cbn [rest prev length]. destruct (Nat.ltb_spec (length s) (S (length s)));
      [|lia]. f_equal. apply IH. lia.
  - cbn [app]. f_equal. apply IH. lia.
Qed.

Lemma collapse_skip s :
  Spec.collapse true s = Spec.collapse false (skipWhile (only 95) s).
Proof.
  induction s as [|c s IH]; [done|]. simpl. unfold only at 1.
  destruct (c =? 95) eqn:E; [done|]. simpl. by rewrite E.
Qed.

Lemma replaceLoop_underscores fuel pv s :
  (length s < fuel)%nat ->
  replaceLoop (Plus true (only 95)) (lit "_") fuel pv s = Spec.collapse false s.
Proof.
  revert pv s. induction fuel as [|fuel IH]; intros pv s Hlen; [lia|].
  destruct s as [|c s]; [done|]. simpl in Hlen.
  cbn [replaceLoop Spec.collapse]. unfold matchAt, Plus. cbn [run]. unfold step.
  cbn [rest caps prev]. unfold only at 1. destruct (c =? 95) eqn:E.
  - apply N.eqb_eq in E as ->. cbn [run prev rest caps].
    match goal with
    | |- context [starGreedy ?p Some ?v ?t ?cs] =>
        destruct (starGreedy_Some p v t cs) as [pv' ->]
    end.
    cbn [rest prev length]. pose proof (skipWhile_length (only 95) s).
    destruct (Nat.ltb_spec (length (skipWhile (only 95) s)) (S (length s)));
      [|lia].
    rewrite IH by lia. by rewrite collapse_skip.
  - cbn [app]. f_equal. apply IH. lia.
Qed.

Lemma replaceAll_unsafe s :
  replaceAll (Chars Mbox.notFolderSafe) (lit "_") s
  = List.map Spec.replaceUnsafe s.
Proof.
  unfold replaceAll. rewrite replaceLoop_Chars by lia.
  induction s as [|c s IH]; [done|]. cbn [flat_map List.map]. rewrite IH.
  unfold Mbox.notFolderSafe, Spec.replaceUnsafe, Spec.isFolderSafe.
  by destruct (isLower c || isUpper c || isDigit c || (c =? 95) || (c =? 45)).
Qed.

Lemma replaceUnsafe_ascii c : isAscii (Spec.replaceUnsafe c) = true.
Proof.
  unfold Spec.replaceUnsafe, Spec.isFolderSafe, isLower, isUpper, isDigit,
    isAscii.
  destruct (N.leb_spec 97 c), (N.leb_spec c 122), (N.leb_spec 65 c),
    (N.leb_spec c 90), (N.leb_spec 48 c), (N.leb_spec c 57),
    (N.eqb_spec c 95), (N.eqb_spec c 45); cbn [andb orb];
    apply N.ltb_lt; lia.
Qed.

Lemma collapse_Forall (P : char -> Prop) b s :
  Forall P s -> Forall P (Spec.collapse b s).
Proof.
  intros H. revert b. induction H as [|c s Hc Hs IH]; intros b; [done|].
  simpl. destruct (c =? 95), b; auto.
Qed.

Lemma sanitizeFolderName_spec `{rt : Runtime.t} `{!Spec.RuntimeLaws rt}
    (folder : str) :
  Mbox.sanitizeFolderName folder = Spec.sanitize folder.
Proof.
  unfold Mbox.sanitizeFolderName, Mbox.reUnsafe, Mbox.reUnderscores,
    Spec.sanitize.
  rewrite replaceAll_unsafe. unfold replaceAll.
  rewrite replaceLoop_underscores by lia.
  apply Spec.toLowerCase_ascii, collapse_Forall.
  apply List.Forall_map, Forall_forall. intros c _.
  apply replaceUnsafe_ascii.
Qed.

(** C8.  In a runtime that lower-cases ASCII text as ECMAScript does, the
    folder-name sanitisation of the MBOX exporter replaces every code unit
    outside A-Z, a-z, 0-9, "_" and "-" by "_", then drops every "_" that
    follows a "_", then lower-cases; the EML and the JSON exporter compute
    the same function; and "Inbox/Archive" and "Inbox\Archive" both give
    "inbox_archive". *)
Theorem C8_sanitizeFolderName_same_everywhere `{rt : Runtime.t}
    (laws : Spec.RuntimeLaws rt) (folder : str) :
  Mbox.sanitizeFolderName folder = Spec.sanitize folder
  /\ Eml.sanitizeFolderName folder = Mbox.sanitizeFolderName folder
  /\ Json.sanitizeFolderName folder = Mbox.sanitizeFolderName folder
  /\ Mbox.sanitizeFolderName (lit "Inbox/Archive") = lit "inbox_archive"
  /\ Mbox.sanitizeFolderName (lit "Inbox\Archive") = lit "inbox_archive".
Proof.
  split; [apply sanitizeFolderName_spec|].
  split; [reflexivity|]. split; [reflexivity|].
  split; rewrite sanitizeFolderName_spec; by vm_compute.
Qed.

Lemma sample_runtime_laws : Spec.RuntimeLaws Sample.runtime.
Proof.
  split.
  - reflexivity.
  - intros []; vm_compute; repeat constructor.
  - intros []; vm_compute; repeat constructor.
Qed.

Lemma natToString_line n :
  Forall (fun c => isLineTerminator c = false) (natToString n).
Proof.
  unfold natToString, lit. generalize (Nat.to_uint n). intros u.
  assert (Forall (fun c => isLineTerminator c = false)
            (List.map N_of_ascii
               (String.list_ascii_of_string (NilEmpty.string_of_uint u))))
    as H.
  { induction u;
      cbn [NilEmpty.string_of_uint String.list_ascii_of_string List.map];
      constructor; done. }
  destruct u; try exact H. by repeat constructor.
Qed.

Lemma sample_mime_laws : Spec.MimeLaws Sample.runtime.
Proof.
  split.
  - intros n. cbn [boundaryStamp Sample.runtime]. apply Forall_app. split.
    + vm_compute. repeat constructor.
    + apply natToString_line.
  - intros bytes. constructor.
Qed.

(** ** JSON export *)




Lemma messageToJson_serialises `{rt : Runtime.t} (msg : EmailMessage) :
  is_Some (Date_toISOString (date msg)) ->
  exists obj, Json.messageToJson msg = Returned obj /\ serialises msg obj.
Proof.
  intros [iso Hiso]. unfold Json.messageToJson. rewrite Hiso.
  eexists. split; [reflexivity|]. unfold serialises. rewrite Hiso.
  repeat split; by vm_compute.
Qed.

Lemma attachmentToJson_shape `{rt : Runtime.t} (att : Attachment) :
  Json.keys (Json.attachmentToJson att) = attachmentKeys /\
  Json.field (lit "filename") (Json.attachmentToJson att)
    = Some (Json.VString (filename att)) /\
  Json.field (lit "contentType") (Json.attachmentToJson att)
    = Some (Json.VString (contentType att)) /\
  Json.field (lit "size") (Json.attachmentToJson att)
    = Some (Json.VNumber (Int (size att))) /\
  Json.field (lit "hasContent") (Json.attachmentToJson att)
    = Some (Json.VBool (bool_decide (is_Some (content att)))).
Proof. repeat split; by vm_compute. Qed.

(** C9, as the code has it.  For every sequence of messages whose dates are valid
    times (toISOString does not throw), the JSON export builds one object
    per message, in order; the object has exactly the keys id, uid, subject,
    from, to, cc, bcc, date, headers, text, html, attachments, labels,
    folder and flags, each holding the field of the message (the date as
    its ISO text); every attachment is an object with exactly the keys
    filename, contentType, size and hasContent, where hasContent is true
    exactly when the attachment has content; the object does not depend on
    the content bytes. *)
Theorem C9_json_export_marks_attachment_content `{rt : Runtime.t}
    (messages : list EmailMessage) :
  Forall (fun msg => is_Some (Date_toISOString (date msg))) messages ->
  (exists objs : list Json.value,
      Json.messagesToJson messages = Returned objs /\
      Forall2 serialises messages objs)
  /\ (forall att : Attachment,
      Json.keys (Json.attachmentToJson att) = attachmentKeys /\
      Json.field (lit "filename") (Json.attachmentToJson att)
        = Some (Json.VString (filename att)) /\
      Json.field (lit "contentType") (Json.attachmentToJson att)
        = Some (Json.VString (contentType att)) /\
      Json.field (lit "size") (Json.attachmentToJson att)
        = Some (Json.VNumber (Int (size att))) /\
      Json.field (lit "hasContent") (Json.attachmentToJson att)
        = Some (Json.VBool (bool_decide (is_Some (content att)))) /\
      forall bytes bytes' : list N,
        Json.attachmentToJson
          {| filename := filename att; contentType := contentType att;
             size := size att; content := Some bytes;
             contentId := contentId att |}
        = Json.attachmentToJson
            {| filename := filename att; contentType := contentType att;
               size := size att; content := Some bytes';
               contentId := contentId att |}).
Proof.
  intros Hvalid. split.
  - unfold Json.messagesToJson.
    induction Hvalid as [|msg messages Hmsg _ (objs & Hobjs & Hall)].
    + by exists [].
    + destruct (messageToJson_serialises msg Hmsg) as (obj & Hobj & Hser).
      exists (obj :: objs). cbn [mapOutcome]. rewrite Hobj, Hobjs.
      split; [done|]. by constructor.
  - intros att.
    destruct (attachmentToJson_shape att) as (? & ? & ? & ? & ?).
    repeat split; done.
Qed.

(** C9, counterexample.  A message whose date is not a valid time makes the
    export throw: nothing is serialised. *)
Lemma C9_invalid_date_throws :
  Json.messagesToJson (rt:=Sample.runtime) [Sample.withAttachment false]
    = Thrown (rangeError (lit "Invalid Date")).
Proof. reflexivity. Qed.


(** ** What a successful match looks like *)


Lemma step_sound p k x z :
  step p k x = Some z -> exists y, den (Chars p) x y /\ k y = Some z.
Proof.
  unfold step. destruct x as [pv [|c s] cs]; cbn [rest caps]; [done|].
  destruct (p c) eqn:Hp; [|done]. intros Hk.
  exists (MState (Some c) s cs). split; [|done]. by exists c.
Qed.

Lemma starGreedy_sound p k pv s cs z :
  starGreedy p k pv s cs = Some z ->
  exists a b, s = a ++ b /\ Forall (fun c => p c = true) a
              /\ k (MState (lastOr pv a) b cs) = Some z.
Proof.
  revert pv. induction s as [|c s IH]; intros pv; cbn [starGreedy].
  - intros H. by exists [], [].
  - destruct (p c) eqn:Hp; [|intros H; by exists [], (c :: s)].
    destruct (starGreedy p k (Some c) s cs) as [y|] eqn:E.
    + intros [= ->]. destruct (IH _ E) as (a & b & -> & Ha & Hk).
      exists (c :: a), b. rewrite lastOr_cons. repeat split; [|done].
      by constructor.
    + intros H. by exists [], (c :: s).
Qed.

Lemma starLazy_sound p k pv s cs z :
  starLazy p k pv s cs = Some z ->
  exists a b, s = a ++ b /\ Forall (fun c => p c = true) a
              /\ k (MState (lastOr pv a) b cs) = Some z.
Proof.
  revert pv. induction s as [|c s IH]; intros pv; cbn [starLazy].
  - destruct (k (MState pv [] cs)) eqn:E; [|done].
    intros [= ->]. by exists [], [].
  - destruct (k (MState pv (c :: s) cs)) eqn:E.
    + intros [= ->]. by exists [], (c :: s).
    + destruct (p c) eqn:Hp; [|done]. intros H.
      destruct (IH _ H) as (a & b & -> & Ha & Hk).
      exists (c :: a), b. rewrite lastOr_cons. repeat split; [|done].
      by constructor.
Qed.

Lemma run_sound r k x z :
  run r k x = Some z -> exists y, den r x y /\ k y = Some z.
Proof.
  revert k x z.
  induction r as [p|p|g p|m|m|r1 IH1 r2 IH2|n r IH|]; intros k x z;
    cbn [run].
  - apply step_sound.
  - destruct (step p k x) as [y|] eqn:E.
    + intros [= ->]. destruct (step_sound _ _ _ _ E) as (y' & Hy & Hk).
      exists y'. split; [by left|done].
    + intros H. exists x. split; [by right|done].
  - destruct g; intros H;
      [apply starGreedy_sound in H|apply starLazy_sound in H];
      destruct H as (a & b & Hs & Ha & Hk);
      (eexists; split; [|exact Hk]); by exists a.
  - destruct (atLineStart m (prev x)) eqn:E; [|done]. intros H. by exists x.
  - destruct (atLineEnd m (rest x)) eqn:E; [|done]. intros H. by exists x.
  - intros H. destruct (IH1 _ _ _ H) as (y1 & H1 & H').
    destruct (IH2 _ _ _ H') as (y & H2 & Hk).
    exists y. split; [by exists y1|done].
  - intros H. destruct (IH _ _ _ H) as (y' & Hy & Hk).
    eexists. split; [|exact Hk]. by exists y'.
  - intros H. by exists x.
Qed.

Lemma matchAt_sound r pv s y :
  matchAt r pv s = Some y -> den r (MState pv s []) y.
Proof.
  intros H. apply run_sound in H as (y' & Hd & [= ->]). done.
Qed.

(** A match consumes a prefix of the input. *)
Lemma den_suffix r x y : den r x y -> exists a, rest x = a ++ rest y.
Proof.
  revert x y.
  induction r as [p|p|g p|m|m|r1 IH1 r2 IH2|n r IH|]; intros x y; cbn [den].
  - intros (c & -> & _). by exists [c].
  - intros [(c & -> & _)| ->]; [by exists [c]|by exists []].
  - intros (a & -> & _). by exists a.
  - intros [_ ->]. by exists [].
  - intros [_ ->]. by exists [].
  - intros (z & [a Ha]%IH1 & [b Hb]%IH2). exists (a ++ b).
    by rewrite Ha, Hb, app_assoc.
  - intros (y' & [a Ha]%IH & ->). by exists a.
  - intros ->. by exists [].
Qed.

(** The greedy star keeps the longest run when the rest of the pattern
    accepts it. *)
Lemma starGreedy_longest p k pv a b cs z :
  Forall (fun c => p c = true) a ->
  starGreedy p k (lastOr pv a) b cs = Some z ->
  starGreedy p k pv (a ++ b) cs = Some z.
Proof.
  intros Ha. revert pv. induction Ha as [|c a Hc Ha IH]; intros pv H; [done|].
  cbn [app starGreedy]. rewrite Hc. rewrite lastOr_cons in H.
  by rewrite (IH _ H).
Qed.

Lemma starGreedy_stop p k pv b cs :
  match b with [] => True | c :: _ => p c = false end ->
  starGreedy p k pv b cs = k (MState pv b cs).
Proof. destruct b as [|c b]; [done|]. simpl. by intros ->. Qed.

(** No match anywhere when no suffix of the input matches. *)
Lemma search_None r i pv s :
  (forall pv' t, matchAt r pv' t = None \/ ~ (exists a, s = a ++ t)) ->
  search r i pv s = None.
Proof.
  revert i pv. induction s as [|c s IH]; intros i pv H; cbn [search].
  - destruct (H pv []) as [->|Hn]; [done|]. destruct Hn. by exists [].
  - destruct (H pv (c :: s)) as [->|Hn]; [|destruct Hn; by exists []].
    apply IH. intros pv' t. destruct (H pv' t) as [?|Hn]; [by left|].
    right. intros [a ->]. apply Hn. by exists (c :: a).
Qed.


(** ** The header pattern *)

Lemma take_app_length' {A} (a b : list A) n :
  n = length a -> take n (a ++ b) = a.
Proof. intros ->. by rewrite take_app_length. Qed.

Lemma search_hit r i pv s y :
  matchAt r pv s = Some y ->
  search r i pv s
  = Some (Result i (take (length s - length (rest y)) s) (caps y)).
Proof. intros H. destruct s; cbn [search]; by rewrite H. Qed.

Lemma matchAt_reHeader_line (K V : str) :
  K <> [] ->
  Forall (fun c => c <> 58) K ->
  Forall (fun c => isLineTerminator c = false) V ->
  match V with [] => False | v :: _ => isWhiteSpace v = false end ->
  matchAt Mbox.reHeader None (K ++ 58 :: 32 :: V)
  = Some (MState (lastOr (Some 32) V) [] [(2%nat, V); (1%nat, K)]).
Proof.
  intros HK0 HK HV Hv. destruct K as [|k0 K]; [done|]. clear HK0.
  inversion_clear HK as [|?? Hk0 HK'].
  unfold matchAt, Mbox.reHeader, Plus.
  cbn [run atLineStart prev]. unfold step at 1. cbn [rest caps app].
  unfold except at 1. apply N.eqb_neq in Hk0. rewrite Hk0. cbn [negb].
  cbn [run prev rest caps].
  apply starGreedy_longest.
  { eapply Forall_impl; [exact HK'|]. intros c Hc. unfold except.
    apply N.eqb_neq in Hc. by rewrite Hc. }
  rewrite starGreedy_stop by done. cbn [prev rest caps].
  unfold step at 1. cbn [prev rest caps]. unfold only at 1.
  rewrite N.eqb_refl.
  change (32 :: V) with ([32] ++ V).
  apply starGreedy_longest; [by repeat constructor|].
  rewrite starGreedy_stop by (destruct V; [done|by cbn in *]).
  cbn [prev rest caps lastOr last].
  rewrite <- (app_nil_r V) at 1.
  apply starGreedy_longest.
  { eapply Forall_impl; [exact HV|]. intros c Hc. unfold dot. by rewrite Hc. }
  cbn [starGreedy rest prev caps atLineEnd].
  cbn [length]. rewrite Nat.sub_0_r, firstn_all. do 5 f_equal.
  change (k0 :: K ++ 58 :: [32] ++ V) with ((k0 :: K) ++ 58 :: 32 :: V).
  apply take_app_length'. rewrite length_app. cbn [length app]. lia.
Qed.

Lemma exec_reHeader_line (K V : str) :
  K <> [] ->
  Forall (fun c => c <> 58) K ->
  Forall (fun c => isLineTerminator c = false) V ->
  match V with [] => False | v :: _ => isWhiteSpace v = false end ->
  exists m, exec Mbox.reHeader (K ++ 58 :: 32 :: V) = Some m
            /\ groups m = [(2%nat, V); (1%nat, K)].
Proof.
  intros HK0 HK HV Hv. eexists. split; [|shelve].
  unfold exec. apply search_hit.
  apply (matchAt_reHeader_line K V HK0 HK HV Hv).
  Unshelve. done.
Qed.



Lemma search_reHeader_inside i c t : search Mbox.reHeader i (Some c) t = None.
Proof.
  revert i c. induction t as [|d t IH]; intros i c; cbn [search]; [done|].
  apply IH.
Qed.

(** When the header pattern matches a line, the first group is the text
    before the first colon. *)
Lemma exec_reHeader_key l m k :
  exec Mbox.reHeader l = Some m ->
  group 1 (groups m) = Some k ->
  startsWith (k ++ [58]) l = true.
Proof.
  unfold exec. intros Hm Hk.
  assert (exists y, matchAt Mbox.reHeader None l = Some y
                    /\ groups m = caps y) as (y & Hy & Hg).
  { destruct l as [|c l]; cbn [search] in Hm.
    - destruct (matchAt Mbox.reHeader None []) as [y|]; [|done].
      injection Hm as <-. by exists y.
    - destruct (matchAt Mbox.reHeader None (c :: l)) as [y|].
      + injection Hm as <-. by exists y.
      + by rewrite search_reHeader_inside in Hm. }
  rewrite Hg in Hk. clear Hm Hg m.
  apply matchAt_sound in Hy. unfold Mbox.reHeader, Plus in Hy.
  cbn [den] in Hy.
  destruct Hy as (z1 & [_ ->] & z2 & (y' & (w & (c & Hl & _) & (a & Hw & _))
                    & ->) & z3 & (c3 & H3 & Hc3 & _ & Hcaps3)
                    & z4 & (a4 & _ & _ & _ & Hcaps4)
                    & z5 & (y5 & (a5 & _ & _ & _ & Hcaps5) & ->) & [_ ->]).
  cbn [rest caps prev] in *.
  rewrite Hcaps5, Hcaps4, Hcaps3 in Hk. cbn [group Nat.eqb] in Hk.
  injection Hk as <-.
  apply N.eqb_eq in Hc3 as ->.
  rewrite Hl, Hw, H3.
  rewrite (take_app_length' (c :: a) (58 :: rest z3))
    by (cbn [length app]; rewrite !length_app; cbn [length]; lia).
  change (c :: a ++ 58 :: rest z3) with ((c :: a) ++ [58] ++ rest z3).
  rewrite app_assoc. apply startsWith_refl_app.
Qed.


(** ** The address pattern *)

Lemma orElse_Some {A} (x alt : option A) (z : A) :
  x = Some z -> match x with Some y => Some y | None => alt end = Some z.
Proof. by intros ->. Qed.

Lemma matchAt_reAddress_named_at (pv0 : option char) (nm addr : str) :
  Forall (fun c => c <> QUOTE) nm ->
  addr <> [] ->
  Forall (fun c => isLineTerminator c = false) addr ->
  exists pv,
    matchAt Mbox.reAddress pv0 (QUOTE :: nm ++ QUOTE :: 32 :: 60 :: addr ++ [62])
    = Some (MState pv [] [(2%nat, addr); (1%nat, nm)]).
Proof.
  intros Hnm Ha0 Ha. destruct addr as [|a0 addr]; [done|]. clear Ha0.
  inversion_clear Ha as [|?? Ha0 Ha'].
  eexists.
  unfold matchAt, Mbox.reAddress, Plus.
  cbn [run]. unfold step at 1. cbn [rest caps prev]. unfold only at 1.
  rewrite N.eqb_refl.
  cbn [run prev rest caps].
  apply orElse_Some.
  apply starGreedy_longest.
  { eapply Forall_impl; [exact Hnm|]. intros c Hc. unfold except.
    apply N.eqb_neq in Hc. by rewrite Hc. }
  rewrite starGreedy_stop by done. cbn [prev rest caps].
  apply orElse_Some. unfold step at 1. cbn [prev rest caps].
  unfold only at 1. rewrite N.eqb_refl.
  change (32 :: 60 :: (a0 :: addr) ++ [62])
    with ([32] ++ 60 :: (a0 :: addr) ++ [62]).
  apply starGreedy_longest; [by repeat constructor|].
  rewrite starGreedy_stop by done. cbn [prev rest caps].
  unfold step at 1. cbn [prev rest caps]. unfold only at 1.
  rewrite N.eqb_refl.
  unfold step at 1. cbn [prev rest caps app]. unfold dot at 1.
  rewrite Ha0. cbn [negb].
  apply starGreedy_longest.
  { eapply Forall_impl; [exact Ha'|]. intros c Hc. unfold dot. by rewrite Hc. }
  cbn [starGreedy]. unfold dot at 1. cbn [isLineTerminator N.eqb Pos.eqb orb negb].
  cbn [prev rest caps]. unfold step. cbn [prev rest caps].
  unfold only at 1. rewrite N.eqb_refl.
  change (a0 :: addr ++ [62]) with ((a0 :: addr) ++ [62]).
  rewrite (take_app_length' (a0 :: addr) [62])
    by (rewrite length_app; cbn [length]; lia).
  rewrite (take_app_length' nm (QUOTE :: 32 :: 60 :: (a0 :: addr) ++ [62]))
    by (rewrite length_app; lia).
  reflexivity.
Qed.


Lemma matchAt_reAddress_named (nm addr : str) :
  Forall (fun c => c <> QUOTE) nm ->
  addr <> [] ->
  Forall (fun c => isLineTerminator c = false) addr ->
  exists pv,
    matchAt Mbox.reAddress None (QUOTE :: nm ++ QUOTE :: 32 :: 60 :: addr ++ [62])
    = Some (MState pv [] [(2%nat, addr); (1%nat, nm)]).
Proof. apply matchAt_reAddress_named_at. Qed.

Lemma parseAddress_named `{rt : Runtime.t} (nm addr : str) :
  Forall (fun c => c <> QUOTE) nm ->
  addr <> [] ->
  Forall (fun c => isLineTerminator c = false) addr ->
  trim addr = addr ->
  address (Mbox.parseAddress
             (QUOTE :: nm ++ QUOTE :: 32 :: 60 :: addr ++ [62])) = addr.
Proof.
  intros Hnm Ha0 Ha Htrim.
  destruct (matchAt_reAddress_named nm addr Hnm Ha0 Ha) as [pv Hm].
  unfold Mbox.parseAddress, exec. rewrite (search_hit _ _ _ _ _ Hm).
  cbn [groups caps group Nat.eqb address]. rewrite Htrim.
  unfold orStr. by destruct addr.
Qed.

Lemma matchAt_reAddress_needs_angle pv t y :
  matchAt Mbox.reAddress pv t = Some y -> 60 ∈ t.
Proof.
  intros H%matchAt_sound. unfold Mbox.reAddress in H.
  destruct H as (z1 & H1 & z2 & H2 & z3 & H3 & z4 & H4 & z5 & H5 & _).
  apply den_suffix in H1 as [a1 E1], H2 as [a2 E2], H3 as [a3 E3],
    H4 as [a4 E4].
  destruct H5 as (c & E5 & ->%N.eqb_eq & _).
  cbn [rest] in E1. rewrite E1, E2, E3, E4, E5.
  rewrite !elem_of_app. do 4 right. apply elem_of_cons. by left.
Qed.

Lemma parseAddress_bare `{rt : Runtime.t} (addr : str) :
  60 ∉ addr ->
  trim addr = addr ->
  address (Mbox.parseAddress addr) = addr.
Proof.
  intros Hno Htrim. unfold Mbox.parseAddress, exec.
  rewrite search_None.
  - cbn [address]. rewrite !Htrim. unfold orStr. by destruct addr.
  - intros pv t. destruct (matchAt Mbox.reAddress pv t) as [y|] eqn:E;
      [|by left].
    right. intros [a ->]. apply matchAt_reAddress_needs_angle in E.
    apply Hno. apply elem_of_app. by right.
Qed.

Lemma matchAt_reAddress_needs_close pv t y :
  matchAt Mbox.reAddress pv t = Some y -> 62 ∈ t.
Proof.
  intros H%matchAt_sound. unfold Mbox.reAddress in H.
  destruct H as (z1 & H1 & z2 & H2 & z3 & H3 & z4 & H4 & z5 & H5 & z6 & H6
                 & H7).
  apply den_suffix in H1 as [a1 E1], H2 as [a2 E2], H3 as [a3 E3],
    H4 as [a4 E4], H5 as [a5 E5], H6 as [a6 E6].
  destruct H7 as (c & E7 & ->%N.eqb_eq & _).
  cbn [rest] in E1. rewrite E1, E2, E3, E4, E5, E6, E7.
  rewrite !elem_of_app. do 6 right. apply elem_of_cons. by left.
Qed.

Lemma parseAddress_plain `{rt : Runtime.t} (addr : str) :
  (60 ∉ addr) \/ (62 ∉ addr) ->
  trim addr = addr ->
  address (Mbox.parseAddress addr) = addr.
Proof.
  intros Hno Htrim. unfold Mbox.parseAddress, exec.
  rewrite search_None.
  - cbn [address]. rewrite !Htrim. unfold orStr. by destruct addr.
  - intros pv t. destruct (matchAt Mbox.reAddress pv t) as [y|] eqn:E;
      [|by left].
    right. intros [a ->]. destruct Hno as [Hno|Hno]; apply Hno.
    + apply matchAt_reAddress_needs_angle in E. apply elem_of_app. by right.
    + apply matchAt_reAddress_needs_close in E. apply elem_of_app. by right.
Qed.

(** *** A display name that holds double quotes

    The pattern takes at most two double quotes before its "<", the
    first of them at the start of the match. *)

Lemma matchAt_reAddress_shape pv t y :
  matchAt Mbox.reAddress pv t = Some y ->
  exists o1 g o2 ws r,
    t = o1 ++ g ++ o2 ++ ws ++ 60 :: r
    /\ (o1 = [] \/ o1 = [QUOTE]) /\ Forall (fun c => c <> QUOTE) g
    /\ (o2 = [] \/ o2 = [QUOTE])
    /\ Forall (fun c => isWhiteSpace c = true) ws.
Proof.
  intros H%matchAt_sound. unfold Mbox.reAddress in H. cbn [den] in H.
  destruct H as (z1 & H1 & z2 & (y2 & (g & Hg & HgQ & _) & ->) & z3 & H3
                 & z4 & (ws & Hws & HwsW & _) & z5 & (c & H5 & ->%N.eqb_eq & _)
                 & _).
  cbn [rest] in *.
  assert (exists o1, t = o1 ++ rest z1 /\ (o1 = [] \/ o1 = [QUOTE]))
    as (o1 & E1 & Ho1).
  { destruct H1 as [(q & E & ->%N.eqb_eq & _)| ->].
    - exists [QUOTE]. cbn [rest] in E. split; [done|by right].
    - exists []. split; [done|by left]. }
  assert (exists o2, rest y2 = o2 ++ rest z3 /\ (o2 = [] \/ o2 = [QUOTE]))
    as (o2 & E3 & Ho2).
  { destruct H3 as [(q & E & ->%N.eqb_eq & _)| ->].
    - exists [QUOTE]. cbn [rest] in E. split; [done|by right].
    - exists []. split; [done|by left]. }
  exists o1, g, o2, ws, (rest z5).
  rewrite E1, Hg, E3, Hws, H5. repeat split; try done.
  eapply Forall_impl; [exact HgQ|]. intros q Hq. unfold except in Hq.
  intros ->. done.
Qed.

Lemma prefix_before {A} (c : A) (a tl P r : list A) :
  c ∉ a -> a ++ tl = P ++ c :: r -> exists a', P = a ++ a'.
Proof.
  revert P. induction a as [|x a IH]; intros P Hc E; [by exists P|].
  destruct P as [|p P].
  - cbn in E. injection E as <- _. exfalso. apply Hc. by left.
  - cbn in E. injection E as <- E.
    destruct (IH P) as [a' ->]; [|done|by exists a'].
    intros ?. apply Hc. by right.
Qed.

Lemma quotes_app a b : quotes (a ++ b) = (quotes a + quotes b)%nat.
Proof. apply count_occ_app. Qed.

Lemma quotes_none s : Forall (fun c => c <> QUOTE) s -> quotes s = 0%nat.
Proof.
  intros H. apply count_occ_not_In. rewrite Forall_forall in H.
  intros Hin. apply (H QUOTE); [by apply list_elem_of_In|done].
Qed.

Lemma quotes_ws s :
  Forall (fun c => isWhiteSpace c = true) s -> quotes s = 0%nat.
Proof.
  intros H. apply quotes_none. eapply Forall_impl; [exact H|].
  by intros c Hc ->.
Qed.

(** No match starts before the last two double quotes that precede the
    first "<". *)
Lemma matchAt_reAddress_early pv (s1 last tl : str) :
  s1 <> [] -> 60 ∉ s1 -> 60 ∉ last ->
  matchAt Mbox.reAddress pv (s1 ++ QUOTE :: last ++ QUOTE :: tl) = None.
Proof.
  intros Hs1 H1 H2.
  destruct (matchAt Mbox.reAddress pv _) as [y|] eqn:E; [exfalso|done].
  apply matchAt_reAddress_shape in E
    as (o1 & g & o2 & ws & r & E & Ho1 & Hg & Ho2 & Hws).
  assert (s1 ++ QUOTE :: last ++ QUOTE :: tl
          = (s1 ++ QUOTE :: last ++ [QUOTE]) ++ tl) as E'
    by (by rewrite <- !app_assoc; cbn; rewrite <- app_assoc).
  rewrite E' in E. clear E'.
  assert (o1 ++ g ++ o2 ++ ws ++ 60 :: r
          = (o1 ++ g ++ o2 ++ ws) ++ 60 :: r) as E'
    by (by rewrite <- !app_assoc).
  rewrite E' in E. clear E'.
  apply prefix_before in E as [a' E].
  2:{ rewrite elem_of_app, elem_of_cons, elem_of_app, elem_of_cons,
        elem_of_nil. intros [?|[?|[?|[?|?]]]]; done. }
  assert (quotes (o1 ++ g ++ o2 ++ ws) = (quotes o1 + quotes o2)%nat) as Hq.
  { rewrite !quotes_app, (quotes_none g), (quotes_ws ws) by done. lia. }
  rewrite E in Hq. rewrite !quotes_app in Hq.
  change (QUOTE :: last ++ [QUOTE]) with ([QUOTE] ++ last ++ [QUOTE]) in Hq.
  rewrite !quotes_app in Hq.
  change (quotes [QUOTE]) with 1%nat in Hq.
  destruct s1 as [|c s1]; [done|].
  destruct Ho1 as [-> | ->].
  - change (quotes []) with 0%nat in Hq.
    destruct Ho2 as [-> | ->]; cbn in Hq; lia.
  - cbn [app] in E. injection E as <- E.
    change (quotes (QUOTE :: s1)) with (S (quotes s1)) in Hq.
    destruct Ho2 as [-> | ->]; cbn in Hq; lia.
Qed.

(** Start positions at which no match begins are passed over. *)
Lemma search_skip r (s1 t : str) i pv :
  (forall a b pv', s1 = a ++ b -> b <> [] -> matchAt r pv' (b ++ t) = None) ->
  search r i pv (s1 ++ t) = search r (i + length s1) (lastOr pv s1) t.
Proof.
  revert i pv. induction s1 as [|c s1 IH]; intros i pv H.
  - cbn [app length]. by rewrite Nat.add_0_r.
  - assert (matchAt r pv (c :: s1 ++ t) = None) as H0
      by (by apply (H [] (c :: s1) pv)).
    cbn [app search]. rewrite H0.
    rewrite IH.
    + rewrite lastOr_cons. f_equal. cbn [length]. lia.
    + intros a b pv' -> Hb. by apply (H (c :: a) b pv').
Qed.

Lemma parseAddress_quoted `{rt : Runtime.t} (nm addr : str) :
  60 ∉ nm ->
  addr <> [] ->
  Forall (fun c => isLineTerminator c = false) addr ->
  trim addr = addr ->
  address (Mbox.parseAddress
             (QUOTE :: nm ++ QUOTE :: 32 :: 60 :: addr ++ [62])) = addr.
Proof.
  intros Hnm Ha0 Ha Htrim.
  destruct (decide (QUOTE ∈ nm)) as [Hq|Hq].
  - apply list_elem_of_split_r in Hq as (pre & last & -> & Hlast).
    assert (QUOTE :: (pre ++ QUOTE :: last) ++ QUOTE :: 32 :: 60 :: addr ++ [62]
            = (QUOTE :: pre)
                ++ QUOTE :: last ++ QUOTE :: 32 :: 60 :: addr ++ [62]) as ->
      by (by cbn [app]; rewrite <- app_assoc).
    destruct (matchAt_reAddress_named_at (lastOr None (QUOTE :: pre)) last addr)
      as [pv Hm]; [|done..|].
    { apply Forall_forall. by intros c Hc ->. }
    unfold Mbox.parseAddress, exec. rewrite search_skip.
    + rewrite (search_hit _ _ _ _ _ Hm).
      cbn [groups caps group Nat.eqb address]. rewrite Htrim.
      unfold orStr. by destruct addr.
    + intros a b pv' E Hb. apply matchAt_reAddress_early; [done| |].
      * intros Hin. assert (60 ∈ QUOTE :: pre) as Hin'
          by (rewrite E; apply elem_of_app; by right).
        apply elem_of_cons in Hin' as [?|Hin']; [done|].
        apply Hnm, elem_of_app. by left.
      * intros Hin. apply Hnm, elem_of_app. right. by right.
  - apply parseAddress_named; try done.
    apply Forall_forall. by intros c Hc ->.
Qed.

(** ** Trimming *)

Lemma trimStart_snoc_nonws s c :
  isWhiteSpace c = false -> trimStart (s ++ [c]) <> [].
Proof.
  intros Hc. induction s as [|d s IH]; simpl.
  - by rewrite Hc.
  - destruct (isWhiteSpace d); [done|]. done.
Qed.

Lemma trim_head_nonws c s :
  isWhiteSpace c = false -> truthy (trim (c :: s)) = true.
Proof.
  intros Hc. unfold trim. cbn [trimStart]. rewrite Hc.
  unfold trimEnd.
  destruct (rev (c :: s)) as [|d r] eqn:Er.
  { apply (f_equal (@length _)) in Er. rewrite length_rev in Er. done. }
  destruct (trimStart (d :: r)) as [|e t] eqn:Et.
  - exfalso. rewrite <- Er in Et. cbn [rev] in Et.
    by apply (trimStart_snoc_nonws (rev s) c Hc).
  - cbn [rev]. by destruct (rev t).
Qed.


(** ** Splitting at line feeds, and the quoting *)


Lemma noLT_noLF s : noLT s -> noLF s.
Proof.
  unfold noLT, noLF. intros H. eapply Forall_impl; [exact H|].
  intros c Hc ->. done.
Qed.

Lemma split_nonempty sep s : split sep s <> [].
Proof.
  destruct s as [|c s]; simpl; [done|].
  destruct (c =? sep); [done|]. by destruct (split sep s).
Qed.

Lemma split_noLF s : noLF s -> split LF s = [s].
Proof.
  induction 1 as [|c s Hc Hs IH]; [done|]. cbn [split].
  apply N.eqb_neq in Hc. by rewrite Hc, IH.
Qed.

Lemma split_app_LF a b : split LF (a ++ LF :: b) = split LF a ++ split LF b.
Proof.
  induction a as [|c a IH]; [done|]. cbn [app split]. rewrite IH.
  destruct (c =? LF); [done|].
  destruct (split LF a) as [|l ls] eqn:E; [by destruct (split_nonempty LF a)|].
  done.
Qed.

Lemma split_join (L : list str) :
  L <> [] -> split LF (join [LF] L) = flat_map (split LF) L.
Proof.
  induction L as [|x L IH]; [done|]. intros _.
  destruct L as [|y L].
  - cbn. by rewrite app_nil_r.
  - change (join [LF] (x :: y :: L)) with (x ++ LF :: join [LF] (y :: L)).
    rewrite split_app_LF, IH by done. done.
Qed.

Lemma startsWith_cut p a b :
  noLF p -> startsWith p (a ++ LF :: b) = startsWith p a.
Proof.
  intros Hp. revert a. induction Hp as [|x p Hx Hp IH]; intros a; [done|].
  destruct a as [|c a]; cbn [app startsWith].
  - destruct (N.eqb_spec LF x) as [<-|]; done.
  - by rewrite IH.
Qed.

Lemma startsWith_firstSplit p s l ls :
  noLF p -> split LF s = l :: ls -> startsWith p s = startsWith p l.
Proof.
  intros Hp. revert s l ls. induction Hp as [|x p Hx Hp IH]; intros s l ls E;
    [done|].
  destruct s as [|c s]; cbn [split] in E.
  - by inversion E.
  - destruct (N.eqb_spec c LF) as [->|Hc].
    + inversion E; subst. cbn [startsWith].
      destruct (N.eqb_spec LF x) as [<-|]; done.
    + destruct (split LF s) as [|l' ls'] eqn:E'; inversion E; subst.
      * by destruct (split_nonempty LF s).
      * cbn [startsWith]. f_equal. by eapply IH.
Qed.

Lemma fromAt_head pv c s : fromAt pv (c :: s) = true -> c = 70.
Proof.
  unfold fromAt. intros [_ H]%andb_true_iff. revert H. eval_lits.
  cbn [startsWith]. by intros [->%N.eqb_eq _]%andb_true_iff.
Qed.

Lemma split_escapeFrom pv s :
  split LF (escapeFrom pv s)
  = match split LF s with
    | l :: ls => escapeFrom pv l :: List.map (escapeFrom (Some LF)) ls
    | [] => []
    end.
Proof.
  revert pv. induction s as [|c s IH]; intros pv; [done|].
  cbn [escapeFrom split]. specialize (IH (Some c)).
  destruct (split LF s) as [|l ls] eqn:E; [by destruct (split_nonempty LF s)|].
  destruct (N.eqb_spec c LF) as [->|Hc].
  - destruct (fromAt pv (LF :: s)) eqn:Hf.
    { by apply fromAt_head in Hf. }
    cbn [app split]. rewrite N.eqb_refl, IH. done.
  - assert (fromAt pv (c :: s) = fromAt pv (c :: l)) as Hsame.
    { unfold fromAt. f_equal.
      apply (startsWith_firstSplit _ _ _ ls); [by repeat constructor|].
      cbn [split]. apply N.eqb_neq in Hc. by rewrite Hc, E. }
    cbn [escapeFrom]. rewrite <- Hsame. apply N.eqb_neq in Hc.
    destruct (fromAt pv (c :: s)); cbn [app split]; rewrite ?Hc, IH;
      cbn [N.eqb]; done.
Qed.

Lemma escapeFromLines_split s :
  split LF (Mbox.escapeFromLines s)
  = List.map (escapeFrom (Some LF)) (split LF s).
Proof.
  rewrite escapeFromLines_escapeFrom, split_escapeFrom.
  destruct (split LF s) as [|l ls]; [done|]. cbn [List.map]. f_equal.
  by apply escapeFrom_lineStart.
Qed.

Lemma escapeFrom_clean pv l :
  noLT l -> startsWith (lit "From ") l = false -> escapeFrom pv l = l.
Proof.
  intros Hl Hs. destruct l as [|c l]; [done|].
  inversion_clear Hl as [|?? Hc Hl']. cbn [escapeFrom].
  unfold fromAt at 1. rewrite Hs, andb_false_r. cbn [app]. f_equal.
  rewrite <- (app_nil_r l) at 1.
  rewrite escapeFrom_inside; [by rewrite app_nil_r| |done].
  cbn [atLineStart andb]. done.
Qed.

(** Quoting does not change whether a text starts with a given prefix that
    has no line terminator in it and is followed by the end or a line
    terminator. *)
Lemma startsWith_escapeFrom_inside P pv s w :
  noLT P ->
  atLineStart true pv = false ->
  match w with [] => True | c :: _ => isLineTerminator c = true end ->
  startsWith P (escapeFrom pv s ++ w) = startsWith P s.
Proof.
  intros HP. revert pv s.
  induction HP as [|x P Hx HP IH]; intros pv s Hpv Hw; [done|].
  destruct s as [|c s].
  - cbn [escapeFrom app startsWith]. destruct w as [|d w]; [done|].
    cbn [startsWith]. destruct (N.eqb_spec d x) as [->|]; [congruence|done].
  - cbn [escapeFrom]. unfold fromAt at 1. rewrite Hpv. cbn [andb app startsWith].
    destruct (N.eqb_spec c x) as [->|]; [|done]. cbn [andb].
    apply IH; [|done]. cbn [atLineStart andb]. done.
Qed.

Lemma startsWith_escapeFrom P pv l :
  noLT P ->
  match P with [] => False | x :: _ => x <> 62 end ->
  startsWith P l = false -> startsWith P (escapeFrom pv l) = false.
Proof.
  intros HP Hhead Hl. destruct P as [|x P]; [done|].
  inversion_clear HP as [|?? Hx HP'].
  destruct l as [|c l]; [done|]. cbn [escapeFrom].
  destruct (fromAt pv (c :: l)) eqn:Hf; cbn [app startsWith].
  - destruct (N.eqb_spec 62 x) as [<-|]; done.
  - cbn [startsWith] in Hl. destruct (N.eqb_spec c x) as [->|]; [|done].
    cbn [andb] in *.
    rewrite <- (app_nil_r (escapeFrom (Some x) l)).
    rewrite startsWith_escapeFrom_inside; [done|done| |done].
    cbn [atLineStart andb]. done.
Qed.

Lemma escapeFrom_head pv c l :
  c <> 70 -> exists l', escapeFrom pv (c :: l) = c :: l'.
Proof.
  intros Hc. cbn [escapeFrom].
  destruct (fromAt pv (c :: l)) eqn:Hf; [by apply fromAt_head in Hf|].
  by eexists.
Qed.

Lemma escapeFrom_noLF pv s : noLF s -> noLF (escapeFrom pv s).
Proof.
  intros H. revert pv. induction H as [|c s Hc Hs IH]; intros pv; [constructor|].
  cbn [escapeFrom]. destruct (fromAt pv (c :: s)); cbn [app];
    repeat constructor; try done; apply IH.
Qed.


(** ** The header loop of the importer *)

Lemma get_update_eq {V} k (v : V) o :
  get k o <> None -> get k (update k v o) = Some v.
Proof.
  induction o as [|[k' v'] o IH]; cbn [update get]; [done|].
  destruct (decide (k' = k)) as [->|Hne]; cbn [get].
  - by rewrite decide_True.
  - by rewrite decide_False.
Qed.

Lemma get_update_ne {V} k k' (v : V) o :
  k' <> k -> get k (update k' v o) = get k o.
Proof.
  intros Hne. induction o as [|[k0 v0] o IH]; cbn [update get]; [done|].
  destruct (decide (k0 = k')) as [->|H0]; cbn [get].
  - by rewrite !decide_False.
  - by destruct (decide (k0 = k)).
Qed.

Lemma get_insertIndex_eq {V} i k (v : V) o :
  get k o = None -> get k (insertIndex i k v o) = Some v.
Proof.
  induction o as [|[k' v'] o IH]; cbn [insertIndex get].
  - by rewrite decide_True.
  - destruct (decide (k' = k)) as [->|Hne]; [done|]. intros H.
    destruct (indexKey k') as [j|]; [destruct (j <? i)|]; cbn [get].
    + rewrite decide_False by done. by apply IH.
    + by rewrite decide_True.
    + by rewrite decide_True.
Qed.

Lemma get_insertIndex_ne {V} i k k' (v : V) o :
  k' <> k -> get k (insertIndex i k' v o) = get k o.
Proof.
  intros Hne. induction o as [|[k0 v0] o IH]; cbn [insertIndex get].
  - by rewrite decide_False.
  - destruct (indexKey k0) as [j|]; [destruct (j <? i)|]; cbn [get].
    + by rewrite IH.
    + by rewrite (decide_False (P:=k' = k)).
    + by rewrite (decide_False (P:=k' = k)).
Qed.

Lemma get_snoc_eq {V} k (v : V) o :
  get k o = None -> get k (o ++ [(k, v)]) = Some v.
Proof.
  induction o as [|[k' v'] o IH]; cbn [app get].
  - by rewrite decide_True.
  - by destruct (decide (k' = k)).
Qed.

Lemma get_snoc_ne {V} k k' (v : V) o :
  k' <> k -> get k (o ++ [(k', v)]) = get k o.
Proof.
  intros Hne. induction o as [|[k0 v0] o IH]; cbn [app get].
  - by rewrite decide_False.
  - by rewrite IH.
Qed.

Lemma get_put_eq {V} k (v : V) o : get k (put k v o) = Some v.
Proof.
  unfold put. destruct (get k o) as [x|] eqn:E.
  - apply get_update_eq. by rewrite E.
  - destruct (indexKey k) as [i|].
    + by apply get_insertIndex_eq.
    + by apply get_snoc_eq.
Qed.

Lemma get_put_ne {V} k k' (v : V) o : k' <> k -> get k (put k' v o) = get k o.
Proof.
  intros Hne. unfold put. destruct (get k' o) as [x|].
  - by apply get_update_ne.
  - destruct (indexKey k') as [i|].
    + by apply get_insertIndex_ne.
    + by apply get_snoc_ne.
Qed.

Lemma get_setStr_ne k k' v o : k' <> k -> get k (setStr k' v o) = get k o.
Proof.
  intros Hne. unfold setStr. destruct (decide _); [done|].
  by apply get_put_ne.
Qed.

Lemma get_setStr_eq k v o :
  k <> lit "__proto__" -> get k (setStr k v o) = Some v.
Proof.
  intros Hne. unfold setStr. rewrite decide_False by done.
  apply get_put_eq.
Qed.



Lemma recordHeader_neutral (K l : str) hs :
  neutralFor K l -> get K (Mbox.recordHeader l hs) = get K hs.
Proof.
  intros Hn. unfold Mbox.recordHeader.
  destruct (exec Mbox.reHeader l) as [m|] eqn:Em; [|done].
  destruct (group 1 (groups m)) as [k|] eqn:Ek; [|done].
  destruct (group 2 (groups m)) as [v|]; [|done].
  destruct (truthy k && truthy v); [|done].
  apply get_setStr_ne. intros ->.
  pose proof (exec_reHeader_key _ _ _ Em Ek) as H.
  unfold neutralFor in Hn. congruence.
Qed.

Lemma parseHeaderLines_neutral (K : str) lines i hs :
  Forall (neutralFor K) lines ->
  get K (fst (Mbox.parseHeaderLines lines i hs)) = get K hs.
Proof.
  intros H. revert i hs. induction H as [|l lines Hl Hls IH]; intros i hs;
    cbn [Mbox.parseHeaderLines]; [done|].
  destruct (negb (truthy l)); [apply IH|].
  destruct (negb (truthy (trim l))); [done|].
  rewrite IH. by apply recordHeader_neutral.
Qed.

Lemma parseHeaderLines_live l lines i hs :
  live l ->
  Mbox.parseHeaderLines (l :: lines) i hs
  = Mbox.parseHeaderLines lines (S i) (Mbox.recordHeader l hs).
Proof.
  intros Hl. destruct l as [|c l]; [done|]. cbn [Mbox.parseHeaderLines truthy negb].
  by rewrite trim_head_nonws.
Qed.

Lemma recordHeader_line (K V : str) hs :
  K <> [] ->
  Forall (fun c => c <> 58) K ->
  K <> lit "__proto__" ->
  noLT V -> live V ->
  get K (Mbox.recordHeader (K ++ 58 :: 32 :: V) hs) = Some V.
Proof.
  intros HK0 HK Hproto HV Hlive. unfold Mbox.recordHeader.
  destruct (exec_reHeader_line K V HK0 HK HV Hlive) as (m & -> & ->).
  cbn [group Nat.eqb].
  destruct K as [|k K]; [done|]. destruct V as [|v V]; [done|].
  cbn [truthy andb]. by apply get_setStr_eq.
Qed.

(** The header that a live line sets, when the lines before it are live
    and the lines after it are neutral, is what the loop ends with. *)
Lemma parseHeaderLines_sets (K V : str) pre post i hs :
  K <> [] ->
  Forall (fun c => c <> 58) K ->
  K <> lit "__proto__" ->
  live K ->
  noLT V -> live V ->
  Forall live pre ->
  Forall (neutralFor K) post ->
  get K (fst (Mbox.parseHeaderLines (pre ++ (K ++ 58 :: 32 :: V) :: post) i hs))
  = Some V.
Proof.
  intros HK0 HK Hproto HKl HV HVl Hpre Hpost. revert i hs.
  induction Hpre as [|l pre Hl Hpre IH]; intros i hs; cbn [app].
  - rewrite parseHeaderLines_live.
    + rewrite parseHeaderLines_neutral by done.
      by apply recordHeader_line.
    + destruct K as [|k K]; [done|]. exact HKl.
  - rewrite parseHeaderLines_live by done. apply IH.
Qed.


(** ** Splitting a mailbox at its envelope lines *)

Lemma splitLoop_nomatch f pv piece c s :
  fromAt pv (c :: s) = false ->
  splitLoop Mbox.reFromLine (S f) pv piece (c :: s)
  = splitLoop Mbox.reFromLine f (Some c) (piece ++ [c]) s.
Proof. intros H. cbn [splitLoop]. by rewrite matchAt_reFromLine, H. Qed.

Lemma splitLoop_match f pv piece t :
  atLineStart true pv = true ->
  splitLoop Mbox.reFromLine (S f) pv piece (lit "From " ++ t)
  = piece :: splitLoop Mbox.reFromLine f (Some 32) [] t.
Proof.
  intros H.
  assert (fromAt pv (lit "From " ++ t) = true) as Hf.
  { unfold fromAt. by rewrite H, startsWith_refl_app. }
  change (lit "From " ++ t) with (70 :: ([114; 111; 109; 32] ++ t)) in *.
  cbn [splitLoop]. rewrite matchAt_reFromLine, Hf. cbn [rest prev drop app].
  rewrite drop_0.
  destruct (Nat.eqb_spec (length t)
              (length (70%N :: 114%N :: 111%N :: 109%N :: 32%N :: t)))
    as [E|_]; [cbn [length] in E; lia|]. done.
Qed.


Lemma splitLoop_quiet u pv piece v f :
  quiet pv u v = true ->
  splitLoop Mbox.reFromLine (length u + f) pv piece (u ++ v)
  = splitLoop Mbox.reFromLine f (lastOr pv u) (piece ++ u) v.
Proof.
  revert pv piece. induction u as [|c u IH]; intros pv piece H.
  - by rewrite app_nil_r.
  - cbn [quiet] in H. apply andb_true_iff in H as [Hc Hu].
    apply negb_true_iff in Hc.
    cbn [length Nat.add app]. rewrite splitLoop_nomatch by done.
    rewrite IH by done. rewrite lastOr_cons.
    by rewrite <- app_assoc.
Qed.

Lemma quiet_app pv a b v :
  quiet pv (a ++ b) v = quiet pv a (b ++ v) && quiet (lastOr pv a) b v.
Proof.
  revert pv. induction a as [|c a IH]; intros pv; [done|].
  cbn [app quiet]. rewrite IH, lastOr_cons, <- app_assoc.
  by rewrite andb_assoc.
Qed.

Lemma quiet_inside pv a v :
  atLineStart true pv = false -> noLT a -> quiet pv a v = true.
Proof.
  intros Hpv Ha. revert pv Hpv. induction Ha as [|c a Hc Ha IH]; intros pv Hpv;
    [done|].
  cbn [quiet]. unfold fromAt. rewrite Hpv. cbn [andb negb].
  apply IH. cbn [atLineStart andb]. done.
Qed.

Lemma quiet_one pv c v : c <> 70 -> quiet pv [c] v = true.
Proof.
  intros Hc. cbn [quiet app]. rewrite andb_true_r. apply negb_true_iff.
  destruct (fromAt pv (c :: v)) eqn:E; [|done]. by apply fromAt_head in E.
Qed.

Lemma quiet_escapeFrom pv s w :
  match w with [] => True | c :: _ => isLineTerminator c = true end ->
  quiet pv (escapeFrom pv s) w = true.
Proof.
  intros Hw. revert pv. induction s as [|c s IH]; intros pv; [done|].
  cbn [escapeFrom]. destruct (fromAt pv (c :: s)) eqn:Hf.
  - pose proof (fromAt_head _ _ _ Hf) as ->.
    cbn [app quiet]. rewrite IH, andb_true_r.
    apply negb_true_iff.
    destruct (fromAt pv (62 :: _)) eqn:E; [|done].
    by apply fromAt_head in E.
  - cbn [app quiet]. rewrite IH, andb_true_r. apply negb_true_iff.
    unfold fromAt in *. destruct (atLineStart true pv); [|done].
    cbn [andb] in *. revert Hf. eval_lits. cbn [startsWith].
    destruct (N.eqb_spec c 70) as [->|]; [|done]. cbn [andb].
    intros Hf.
    change (startsWith [114; 111; 109; 32] s = false) in Hf.
    change (startsWith [114; 111; 109; 32] (escapeFrom (Some 70) s ++ w)
            = false).
    rewrite (startsWith_escapeFrom_inside [114; 111; 109; 32]);
      [done|by repeat constructor|done|done].
Qed.


Lemma splitLoop_pieces ps u pv piece f :
  separated ps ->
  quiet pv u (concat (List.map (app (lit "From ")) ps)) = true ->
  (ps = [] \/ atLineStart true (lastOr pv u) = true) ->
  (length (u ++ concat (List.map (app (lit "From ")) ps)) < f)%nat ->
  splitLoop Mbox.reFromLine f pv piece
    (u ++ concat (List.map (app (lit "From ")) ps))
  = (piece ++ u) :: ps.
Proof.
  intros Hps. revert u pv piece f.
  induction Hps as [|p ps Hq Hend Hps IH]; intros u pv piece f Hu Hstart Hf.
  - cbn [List.map concat] in *. rewrite app_nil_r in Hf.
    replace f with (length u + S (f - length u - 1))%nat by lia.
    rewrite splitLoop_quiet by done. done.
  - destruct Hstart as [?|Hstart]; [done|].
    cbn [List.map concat] in *. rewrite !length_app in Hf.
    change (length (lit "From ")) with 5%nat in Hf.
    replace f with (length u + S (f - length u - 1))%nat by lia.
    rewrite splitLoop_quiet by done.
    rewrite <- app_assoc, splitLoop_match by done. f_equal.
    rewrite (IH p (Some 32) []); [done|done|by right|].
    rewrite !length_app. lia.
Qed.

Lemma filter_live (l : list str) :
  Forall live l -> List.filter (fun entry => truthy (trim entry)) l = l.
Proof.
  induction 1 as [|q qs Hq Hqs IH]; [done|].
  cbn [List.filter]. destruct q as [|c q]; [done|].
  rewrite trim_head_nonws by done. by rewrite IH.
Qed.

Lemma splitRe_nonempty r s :
  s <> [] -> splitRe r s = splitLoop r (2 * length s + 1) None [] s.
Proof. by destruct s. Qed.

Lemma splitRe_pieces ps :
  separated ps ->
  Forall live ps ->
  List.filter (fun entry => truthy (trim entry))
    (splitRe Mbox.reFromLine (concat (List.map (app (lit "From ")) ps)))
  = ps.
Proof.
  intros Hsep Hlive. destruct ps as [|p ps]; [done|].
  rewrite splitRe_nonempty by done.
  pose proof (splitLoop_pieces (p :: ps) [] None []
                (2 * length (concat (List.map (app (lit "From ")) (p :: ps)))
                 + 1) Hsep eq_refl (or_intror eq_refl)) as H.
  cbn [app] in H. rewrite H by lia.
  change (List.filter (fun entry => truthy (trim entry)) ([] :: p :: ps))
    with (List.filter (fun entry => truthy (trim entry)) (p :: ps)).
  by apply filter_live.
Qed.


(** ** The MBOX round trip *)

Ltac lit_forall :=
  unfold noLF, noLT; eval_lits; repeat constructor; done.

Lemma noLF_app a b : noLF a -> noLF b -> noLF (a ++ b).
Proof. unfold noLF. intros. by apply Forall_app. Qed.

Lemma noLT_app a b : noLT a -> noLT b -> noLT (a ++ b).
Proof. unfold noLT. intros. by apply Forall_app. Qed.

Lemma noLF_join sep (l : list str) :
  noLF sep -> Forall noLF l -> noLF (join sep l).
Proof.
  intros Hsep H. induction H as [|x l Hx Hl IH]; [constructor|].
  destruct l as [|y l]; [done|].
  change (join sep (x :: y :: l)) with (x ++ sep ++ join sep (y :: l)).
  by repeat apply noLF_app.
Qed.

Lemma flat_map_split_noLF (l : list str) :
  Forall noLF l -> flat_map (split LF) l = l.
Proof.
  induction 1 as [|x l Hx Hl IH]; [done|].
  cbn [flat_map]. by rewrite split_noLF, IH.
Qed.

Lemma neutralFor_escapeFrom (K : str) pv l :
  noLT K ->
  match K with [] => False | k :: _ => k <> 62 end ->
  neutralFor K l -> neutralFor K (escapeFrom pv l).
Proof.
  intros HK Hhead. unfold neutralFor. apply startsWith_escapeFrom.
  - apply noLT_app; [done|by repeat constructor].
  - destruct K; [done|]. done.
Qed.

Lemma neutralFor_head (K l : str) :
  match K, l with
  | k :: _, c :: _ => c <> k
  | _ :: _, [] => True
  | [], _ => False
  end -> neutralFor K l.
Proof.
  unfold neutralFor. destruct K as [|k K], l as [|c l]; try done.
  intros Hc. cbn [app startsWith]. apply N.eqb_neq in Hc. by rewrite Hc.
Qed.

Lemma plainHead_escapeFrom pv l :
  plainHead l ->
  live (escapeFrom pv l) /\ neutralFor (lit "From") (escapeFrom pv l).
Proof.
  destruct l as [|c l]; [done|]. intros [Hws Hc].
  destruct (escapeFrom_head pv c l Hc) as [l' ->].
  split; [done|]. by apply neutralFor_head.
Qed.

(** When a header name that has no colon in it starts a line and is
    followed there by a colon, the line cannot start with another such
    name and a colon. *)
Lemma startsWith_key (K key rest : str) :
  58 ∉ K -> 58 ∉ key ->
  startsWith (K ++ [58]) (key ++ 58 :: rest) = true -> K = key.
Proof.
  revert key. induction K as [|k K IH]; intros key HK Hkey.
  - destruct key as [|c key]; [done|]. cbn [app startsWith].
    intros [->%N.eqb_eq _]%andb_true_iff. destruct Hkey. by left.
  - destruct key as [|c key]; cbn [app startsWith].
    + intros [E%N.eqb_eq _]%andb_true_iff. destruct HK. rewrite <- E. by left.
    + intros [->%N.eqb_eq H]%andb_true_iff. f_equal. apply IH; [| |done].
      * intros ?. apply HK. by right.
      * intros ?. apply Hkey. by right.
Qed.


Lemma elem_of_startsWith p l (c : char) :
  startsWith p l = true -> c ∈ p -> c ∈ l.
Proof.
  intros H Hc. rewrite (startsWith_app _ _ H). apply elem_of_app. by left.
Qed.

Section RoundTrip.
Context `{rt : Runtime.t} (laws : Spec.RuntimeLaws rt)
  (mime : Spec.MimeLaws rt).

Lemma boundary_noLF n : noLF (fst (Mbox.generateBoundary n)).
Proof.
  unfold Mbox.generateBoundary. cbn [fst]. apply noLF_app; [lit_forall|].
  apply noLT_noLF, Spec.boundaryStamp_line.
Qed.

Lemma formatAddress_noLF a : safeRecipient a -> noLF (Mbox.formatAddress a).
Proof.
  intros [Ha Hn]. unfold Mbox.formatAddress.
  destruct (truthyOpt (name a)); [|done].
  repeat apply noLF_app; try done; lit_forall.
Qed.

Lemma recipients_noLF l :
  Forall safeRecipient l ->
  noLF (join (lit ", ") (List.map Mbox.formatAddress l)).
Proof.
  intros H. apply noLF_join; [lit_forall|].
  apply List.Forall_map. eapply Forall_impl; [exact H|].
  apply formatAddress_noLF.
Qed.

Lemma formatAddress_sender a :
  safeSender a ->
  cleanText (Mbox.formatAddress a) /\
  address (Mbox.parseAddress (Mbox.formatAddress a)) = address a.
Proof.
  intros ([Hlt Hlive] & Htrim & Hname). unfold Mbox.formatAddress.
  destruct (truthyOpt (name a)).
  - destruct Hname as [Hn Hq]. split.
    + split; [|done]. eval_lits.
      repeat apply noLT_app; try done; by repeat constructor.
    + eval_lits. cbn [app].
      assert (address a <> []) as Ha by (by destruct (address a)).
      destruct Hq as [Hq|Hq].
      * apply parseAddress_named; try done.
        apply Forall_forall. intros c Hc ->. done.
      * by apply parseAddress_quoted.
  - split; [done|]. by apply parseAddress_plain.
Qed.

(** The lines of the reconstructed message of a safe message. *)
Lemma buildHeaders_safe m n :
  roundTripSafe m ->
  exists mid tail n',
    Mbox.buildHeaders m n
    = ((lit "From" ++ 58 :: 32 :: Mbox.formatAddress (from m))
         :: mid ++ (lit "Subject" ++ 58 :: 32 :: subject m) :: tail, n')
    /\ Forall noLF mid /\ Forall plainHead mid
    /\ Forall noLF tail
    /\ Forall (neutralFor (lit "Subject")) tail
    /\ Forall (neutralFor (lit "From")) tail.
Proof.
  intros (Hraw & Hatt & Hsubj & Hfrom & Hto & Hcc & Hid & Hhs & Hbody).
  unfold Mbox.buildHeaders.
  set (extra := flat_map _ (headers m)).
  assert (Forall noLF extra /\ Forall (neutralFor (lit "Subject")) extra
          /\ Forall (neutralFor (lit "From")) extra) as (He1 & He2 & He3).
  { subst extra. clear -laws Hhs.
    induction Hhs as [|[key value] hs (Hk & Hcolon & Hv) Hhs IH];
      [by repeat split|].
    cbn [flat_map]. cbn [fst snd] in *.
    destruct IH as (IH1 & IH2 & IH3).
    case_bool_decide as Hskip; [by repeat split|]. cbn [app].
    assert (forall K : str,
               58 ∉ K -> Forall (fun c => isAscii c = true) K ->
               List.map lowerAscii K ∈ Mbox.skippedHeaders ->
               neutralFor K (key ++ lit ": " ++ headerValueToString value))
      as Hneutral.
    { intros K HK Hascii Hin. unfold neutralFor.
      destruct (startsWith _ _) eqn:E; [|done]. exfalso.
      eval_lits. cbn [app] in E.
      apply startsWith_key in E; [|done..]. subst key.
      apply Hskip. by rewrite Spec.toLowerCase_ascii. }
    repeat split; constructor; try done.
    - repeat apply noLF_app; try done. lit_forall.
    - apply Hneutral; [|by vm_compute; repeat constructor|].
      + rewrite list_elem_of_In. vm_compute. intuition discriminate.
      + rewrite list_elem_of_In. vm_compute. tauto.
    - apply Hneutral; [|by vm_compute; repeat constructor|].
      + rewrite list_elem_of_In. vm_compute. intuition discriminate.
      + rewrite list_elem_of_In. vm_compute. tauto. }
  set (ct := if Mbox.hasAttachments m then _ else _).
  assert (exists c n', ct = ([c], n') /\ noLF c
                       /\ neutralFor (lit "Subject") c
                       /\ neutralFor (lit "From") c)
    as (c & n' & -> & Hc1 & Hc2 & Hc3).
  { subst ct. destruct (Mbox.hasAttachments m).
    - eexists _, _. split; [reflexivity|]. repeat split; try done.
      apply noLF_app; [lit_forall|]. apply noLF_app; [lit_forall|].
      apply noLF_app; [apply boundary_noLF|lit_forall].
    - destruct (truthyOpt (html m)); eexists _, _;
        (split; [reflexivity|]); repeat split; try done; lit_forall. }
  set (ccL := match cc m with
              | Some (c0 :: cs) => _
              | _ => []
              end).
  assert (Forall noLF ccL /\ Forall plainHead ccL) as [Hcc1 Hcc2].
  { subst ccL. destruct (cc m) as [[|c0 cs]|]; [done| |done].
    split; (constructor; [|done]); [|done].
    apply noLF_app; [lit_forall|]. by apply recipients_noLF. }
  exists ((lit "To: " ++ join (lit ", ") (List.map Mbox.formatAddress (to m)))
            :: ccL),
    ([lit "Date: " ++ Date_toUTCString (date m);
      lit "Message-ID: " ++ id m] ++ [c] ++ extra), n'.
  split; [|split; [|split; [|split; [|split]]]].
  - reflexivity.
  - constructor; [|done]. apply noLF_app; [lit_forall|].
    by apply recipients_noLF.
  - constructor; [|done]. done.
  - cbn [app]. constructor; [|constructor; [|by constructor]].
    + apply noLF_app; [lit_forall|]. apply noLT_noLF.
      apply Spec.Date_toUTCString_line.
    + apply noLF_app; [lit_forall|done].
  - cbn [app]. constructor; [|constructor; [|by constructor]]; reflexivity.
  - cbn [app]. constructor; [|constructor; [|by constructor]]; reflexivity.
Qed.

(** A line without a colon sets no header. *)
Lemma neutralLine_nocolon l : 58 ∉ l -> neutralLine l.
Proof.
  intros H. split; unfold neutralFor;
    (destruct (startsWith _ l) eqn:E; [|done]); exfalso; apply H;
    apply (elem_of_startsWith _ _ 58 E); apply elem_of_app; right; by left.
Qed.

Lemma neutralLine_split l :
  noLF l -> neutralLine l -> Forall neutralLine (split LF l).
Proof. intros H N. rewrite split_noLF by done. by constructor. Qed.

Lemma attachmentLines_neutral b a :
  noLF b -> safeAttachment a ->
  Forall neutralLine (flat_map (split LF) (Mbox.attachmentLines b a)).
Proof.
  intros Hb [Hct Hfn]. unfold Mbox.attachmentLines.
  cbn [flat_map]. rewrite !Forall_app. repeat split.
  - by repeat constructor.
  - apply neutralLine_split; [|done]. by apply noLF_app; [lit_forall|].
  - apply neutralLine_split; [|done]. by apply noLF_app; [lit_forall|].
  - apply neutralLine_split; [lit_forall|done].
  - apply neutralLine_split; [|done].
    apply noLF_app; [lit_forall|]. apply noLF_app; [lit_forall|].
    by apply noLF_app; [|lit_forall].
  - by repeat constructor.
  - destruct (content a) as [bytes|].
    + pose proof (Spec.Buffer_toBase64_alphabet bytes) as Hb64.
      apply neutralLine_split.
      * eapply Forall_impl; [exact Hb64|]. intros c Hc ->. done.
      * apply neutralLine_nocolon. intros Hin.
        rewrite Forall_forall in Hb64. by specialize (Hb64 _ Hin).
    + apply neutralLine_split; [lit_forall|done].
  - constructor.
Qed.

(** The lines of a multipart body set neither the subject nor the
    sender. *)
Lemma buildMultipartBody_neutral m b :
  noLF b ->
  Forall safeAttachment (attachments m) ->
  safeBody (bodyText m) ->
  Forall neutralLine (flat_map (split LF) (Mbox.buildMultipartBody m b)).
Proof.
  intros Hb Hatt Hbody. unfold Mbox.buildMultipartBody.
  rewrite !flat_map_app, !Forall_app. repeat split.
  - cbn [flat_map]. rewrite app_nil_r. apply neutralLine_split; [|done].
    by apply noLF_app; [lit_forall|].
  - assert ((if truthyOpt (html m) then default [] (html m)
             else orOpt (text m) []) = bodyText m) as Ebody.
    { unfold bodyText, orStr, orOpt, truthyOpt.
      destruct (html m) as [[|c h]|]; done. }
    destruct (truthyOpt (html m)); cbn [flat_map];
      rewrite app_nil_r, !Forall_app; repeat split;
      try (apply neutralLine_split; [lit_forall|done]);
      try (by repeat constructor);
      rewrite Ebody; exact Hbody.
  - induction Hatt as [|a atts Ha _ IH]; [constructor|].
    cbn [flat_map]. rewrite flat_map_app, Forall_app. split; [|done].
    by apply attachmentLines_neutral.
  - cbn [flat_map]. rewrite app_nil_r. constructor; [done|].
    apply neutralLine_split; [|done].
    apply noLF_app; [lit_forall|]. by apply noLF_app; [|lit_forall].
Qed.
End RoundTrip.


(** ** Reading back one exported entry *)

Lemma indexOfFrom_line (a b : str) i :
  noLF a -> indexOfFrom LF i (a ++ LF :: b) = (i + Z.of_nat (length a))%Z.
Proof.
  intros H. revert i. induction H as [|c a Hc Ha IH]; intros i.
  - cbn. lia.
  - cbn [app indexOfFrom length]. apply N.eqb_neq in Hc. rewrite Hc, IH. lia.
Qed.

Lemma substring_after_line (a b : str) :
  noLF a -> substring (indexOf LF (a ++ LF :: b) + 1) (a ++ LF :: b) = b.
Proof.
  intros H. unfold substring, indexOf. rewrite indexOfFrom_line by done.
  replace (Z.to_nat (0 + Z.of_nat (length a) + 1)) with (length (a ++ [LF]))
    by (rewrite length_app; cbn; lia).
  rewrite (cons_middle LF a b), app_assoc. apply drop_app_length.
Qed.

Lemma escapeFrom_header (K V : str) pv :
  noLT K -> noLT V ->
  startsWith (lit "From ") (K ++ 58 :: 32 :: V) = false ->
  escapeFrom pv (K ++ 58 :: 32 :: V) = K ++ 58 :: 32 :: V.
Proof.
  intros HK HV Hs. apply escapeFrom_clean; [|done].
  apply noLT_app; [done|]. by repeat constructor.
Qed.

Lemma neutralFor_lines (K : str) (ls : list str) :
  noLT K ->
  match K with [] => False | k :: _ => k <> 62 end ->
  Forall (neutralFor K) ls ->
  Forall (neutralFor K) (List.map (escapeFrom (Some LF)) ls).
Proof.
  intros HK Hk H. apply List.Forall_map. eapply Forall_impl; [exact H|].
  intros l Hl. by apply neutralFor_escapeFrom.
Qed.

(** The lines that [parseMessage] sees for a reconstructed message. *)
Lemma exported_lines (hs body : list str) :
  Forall noLF hs ->
  split LF (Mbox.escapeFromLines (join [LF] (hs ++ [[]] ++ body)) ++ [LF; LF])
  = List.map (escapeFrom (Some LF)) hs
      ++ [] :: List.map (escapeFrom (Some LF)) (flat_map (split LF) body)
      ++ [[]; []].
Proof.
  intros Hhs.
  rewrite (split_app_LF _ [LF]), escapeFromLines_split.
  rewrite split_join by (by destruct hs).
  rewrite flat_map_app, flat_map_split_noLF by done.
  cbn [flat_map app split]. rewrite map_app. cbn [List.map escapeFrom].
  rewrite <- app_assoc. done.
Qed.

Section ReadBack.
Context `{rt : Runtime.t}.

Lemma parseMessage_reads (F S : str) (mid tail body : list str) uid :
  cleanText F -> cleanText S ->
  Forall noLF mid -> Forall plainHead mid ->
  Forall noLF tail ->
  Forall (neutralFor (lit "Subject")) tail ->
  Forall (neutralFor (lit "From")) tail ->
  Forall neutralLine (flat_map (split LF) body) ->
  let hs := (lit "From" ++ 58 :: 32 :: F)
              :: mid ++ (lit "Subject" ++ 58 :: 32 :: S) :: tail in
  let p := Mbox.parseMessage
             (Mbox.escapeFromLines (join [LF] (hs ++ [[]] ++ body))
                ++ [LF; LF]) uid in
  subject p = S /\ from p = Mbox.parseAddress F.
Proof.
  intros [HF HFl] [HS HSl] Hmid Hplain Htail HtS HtF Hbody hs p.
  assert (Forall noLF hs) as Hhs.
  { subst hs. constructor; [|apply Forall_app; split; [done|constructor]].
    - apply noLF_app; [lit_forall|]. repeat constructor; try done.
      by apply noLT_noLF.
    - apply noLF_app; [lit_forall|]. repeat constructor; try done.
      by apply noLT_noLF.
    - done. }
  subst p. unfold Mbox.parseMessage. rewrite exported_lines by done.
  set (esc := escapeFrom (Some LF)).
  set (rest := [] :: List.map esc (flat_map (split LF) body) ++ [[]; []]).
  assert (Forall (neutralFor (lit "Subject")) rest
          /\ Forall (neutralFor (lit "From")) rest) as [HrS HrF].
  { subst rest.
    split; (constructor; [done|]); (apply Forall_app; split;
      [|by repeat constructor]); apply neutralFor_lines;
      try lit_forall; try (by eval_lits);
      (eapply Forall_impl; [exact Hbody|]); by intros l [? ?]. }
  assert (List.map esc hs
          = (lit "From" ++ 58 :: 32 :: F)
              :: List.map esc mid
              ++ (lit "Subject" ++ 58 :: 32 :: S) :: List.map esc tail)
    as ->.
  { subst hs esc. cbn [List.map]. rewrite map_app. cbn [List.map].
    rewrite !escapeFrom_header; try done; lit_forall. }
  set (lines := _ ++ rest).
  assert (lines
          = ((lit "From" ++ 58 :: 32 :: F) :: List.map esc mid)
              ++ (lit "Subject" ++ 58 :: 32 :: S)
              :: (List.map esc tail ++ rest)) as Hlines.
  { subst lines. cbn [app]. by rewrite <- app_assoc. }
  destruct (Mbox.parseHeaderLines lines 0 []) as [headers start] eqn:E.
  cbn [subject from].
  assert (get (lit "Subject") headers = Some S) as ->.
  { change headers with (fst (headers, start)). rewrite <- E, Hlines.
    apply parseHeaderLines_sets; try done; try lit_forall.
    - constructor; [done|]. apply List.Forall_map.
      eapply Forall_impl; [exact Hplain|].
      intros l Hl. by apply plainHead_escapeFrom.
    - apply Forall_app; split; [|done].
      apply neutralFor_lines; [lit_forall|by eval_lits|done]. }
  assert (get (lit "From") headers = Some F) as ->.
  { change headers with (fst (headers, start)). rewrite <- E, Hlines.
    cbn [app].
    apply (parseHeaderLines_sets (lit "From") F []); try done; try lit_forall.
    apply Forall_app; split.
    - apply List.Forall_map. eapply Forall_impl; [exact Hplain|].
      intros l Hl. by apply plainHead_escapeFrom.
    - constructor; [done|]. apply Forall_app; split; [|done].
      apply neutralFor_lines; [lit_forall|by eval_lits|done]. }
  unfold orOpt, orStr. destruct S; [done|]. destruct F; [done|]. done.
Qed.
End ReadBack.


(** ** Writing entries and reading them back *)

Lemma lastOr_end pv (a : str) c : lastOr pv (a ++ [c]) = Some c.
Proof. unfold lastOr. by rewrite last_snoc. Qed.

Lemma quiet_two pv (w : str) : quiet pv [LF; LF] w = true.
Proof.
  change [LF; LF] with ([LF] ++ [LF]).
  rewrite quiet_app, !quiet_one; done.
Qed.

(** What follows the envelope line of an entry holds no envelope line. *)
Lemma quiet_entry (A s w : str) :
  noLT A ->
  quiet (Some 32) (A ++ LF :: Mbox.escapeFromLines s ++ [LF; LF]) w = true.
Proof.
  intros HA. rewrite quiet_app, quiet_inside by done. cbn [andb].
  change (LF :: Mbox.escapeFromLines s ++ [LF; LF])
    with ([LF] ++ Mbox.escapeFromLines s ++ [LF; LF]).
  rewrite quiet_app, quiet_one by done. cbn [andb].
  change (lastOr (lastOr (Some 32) A) [LF]) with (Some LF).
  rewrite quiet_app, quiet_two, andb_true_r.
  rewrite escapeFromLines_escapeFrom.
  rewrite (escapeFrom_lineStart None (Some LF)) by done.
  by apply quiet_escapeFrom.
Qed.

Section WriteRead.
Context `{rt : Runtime.t} (laws : Spec.RuntimeLaws rt)
  (mime : Spec.MimeLaws rt).

Lemma messageToMboxEntry_safe m n :
  roundTripSafe m ->
  exists p n', Mbox.messageToMboxEntry m n = (lit "From " ++ p, n')
               /\ entryOf m p.
Proof.
  intros Hsafe.
  destruct (buildHeaders_safe laws mime m n Hsafe)
    as (mid & tail & n1 & Hb & Hmid & Hplain & Htail & HtS & HtF).
  destruct Hsafe as (Hraw & Hatt & Hsubj & Hfrom & _ & _ & _ & _ & Hbody).
  destruct (formatAddress_sender _ Hfrom) as [HF Haddr].
  destruct Hfrom as ([Hlt Hlive] & _ & _).
  unfold Mbox.messageToMboxEntry, Mbox.messageContent. rewrite Hraw.
  unfold Mbox.reconstructRawMessage. rewrite Hb.
  set (written := if Mbox.hasAttachments m then _ else _).
  assert (exists body n2,
             written = (body, n2)
             /\ Forall neutralLine (flat_map (split LF) body))
    as (body & n2 & -> & Hlines).
  { subst written. destruct (Mbox.hasAttachments m).
    - eexists _, _. split; [reflexivity|].
      apply buildMultipartBody_neutral; try done.
      apply (boundary_noLF mime n1).
    - eexists _, _. split; [reflexivity|].
      cbn [flat_map]. rewrite app_nil_r. exact Hbody. }
  set (content := join [LF] _).
  set (A := address (from m) ++ lit " " ++ Date_toString (date m)).
  assert (noLT A) as HA.
  { subst A. apply noLT_app; [done|]. apply noLT_app; [lit_forall|].
    apply Spec.Date_toString_line. }
  exists (A ++ LF :: Mbox.escapeFromLines content ++ [LF; LF]), n2.
  split; [|split; [|split; [|split]]].
  - f_equal. unfold Mbox.createFromLine, orStr.
    destruct (address (from m)) as [|c addr] eqn:E; [done|].
    cbn [truthy]. subst A. by rewrite <- !app_assoc.
  - intros w. by apply quiet_entry.
  - change (A ++ LF :: Mbox.escapeFromLines content ++ [LF; LF])
      with (A ++ (LF :: Mbox.escapeFromLines content) ++ [LF] ++ [LF]).
    by rewrite !app_assoc, lastOr_end.
  - subst A. by destruct (address (from m)).
  - intros uid. rewrite substring_after_line by (by apply noLT_noLF).
    destruct (parseMessage_reads (Mbox.formatAddress (from m)) (subject m)
                mid tail body uid) as [Hs Hf]; try done.
    split; [exact Hs|]. subst content.
    etransitivity; [|exact Haddr]. f_equal. exact Hf.
Qed.

Lemma messagesToMboxFrom_safe ms n mbox :
  Forall roundTripSafe ms ->
  exists ps n',
    Mbox.messagesToMboxFrom ms n mbox
    = (mbox ++ concat (List.map (app (lit "From ")) ps), n')
    /\ Forall2 entryOf ms ps.
Proof.
  intros H. revert n mbox. induction H as [|m ms Hm Hms IH]; intros n mbox.
  - exists [], n. by rewrite app_nil_r.
  - cbn [Mbox.messagesToMboxFrom].
    destruct (messageToMboxEntry_safe m n Hm) as (p & n1 & -> & Hp).
    destruct (IH n1 (mbox ++ lit "From " ++ p)) as (ps & n2 & -> & Hps).
    exists (p :: ps), n2. split; [|by constructor].
    cbn [List.map concat]. by rewrite <- !app_assoc.
Qed.

Lemma entries_separated ms ps :
  Forall2 entryOf ms ps -> separated ps /\ Forall live ps.
Proof.
  induction 1 as [|m p ms ps (Hq & He & Hl & _) _ [IH1 IH2]].
  - split; constructor.
  - split; constructor; done.
Qed.

Lemma parseEntries_reads ms ps i :
  Forall2 entryOf ms ps ->
  List.map subject (Mbox.parseEntries ps i) = List.map subject ms
  /\ List.map (fun r => address (from r)) (Mbox.parseEntries ps i)
     = List.map (fun m => address (from m)) ms.
Proof.
  intros H. revert i.
  induction H as [|m p ms ps (_ & _ & Hl & Hr) _ IH]; intros i; [done|].
  cbn [Mbox.parseEntries]. destruct p as [|c p]; [done|].
  cbn [truthy negb List.map].
  destruct (Hr (i + 1)%nat) as [-> ->]. destruct (IH (S i)) as [-> ->].
  done.
Qed.
End WriteRead.

(** C2, as the code has it.  For messages that the exporter rebuilds from
    their fields (no raw text), with a subject and a sender that fit on a
    header line (not empty, no line terminator, no leading white space;
    the address without surrounding white space; a display name that does
    not hold both a double quote and a "<"; an address without display
    name that does not hold both a "<" and a ">"), with recipients,
    message id, additional headers and attachment names and types free of
    line feeds (header names also free of colons), and with a body none of
    whose lines starts with "Subject:" or "From:": importing the exported
    mailbox gives as many messages, with the same subjects and the same
    sender addresses, position by position.  The messages may carry
    attachments, and neither subjects nor senders need be distinct. *)
Theorem C2_mbox_round_trip `{rt : Runtime.t} (laws : Spec.RuntimeLaws rt)
    (mime : Spec.MimeLaws rt) (messages : list EmailMessage) (n : nat) :
  Forall roundTripSafe messages ->
  let imported := Mbox.parseMbox (fst (Mbox.messagesToMbox messages n)) in
  length imported = length messages
  /\ List.map subject imported = List.map subject messages
  /\ List.map (fun m => address (from m)) imported
     = List.map (fun m => address (from m)) messages.
Proof.
  intros Hsafe imported.
  destruct (messagesToMboxFrom_safe laws mime messages n [] Hsafe)
    as (ps & n' & Hout & Hps).
  destruct (entries_separated _ _ Hps) as [Hsep Hlive].
  assert (imported = Mbox.parseEntries ps 0) as ->.
  { subst imported. unfold Mbox.messagesToMbox, Mbox.parseMbox.
    rewrite Hout. cbn [fst app]. by rewrite splitRe_pieces. }
  destruct (parseEntries_reads _ _ 0%nat Hps) as [Hs Hf].
  split; [|done].
  rewrite <- (length_map subject), Hs. apply length_map.
Qed.

(** C2, counterexample.  Two messages with distinct subjects and distinct
    senders, the first with the empty subject: two messages are imported,
    and the first has the subject "(No Subject)". *)
Lemma C2_empty_subject_not_restored :
  let messages :=
    [Sample.plainMessage [] Sample.bob (Some (lit "hello")) None;
     Sample.plainMessage (lit "Hi") Sample.alice (Some (lit "hello")) None] in
  let imported :=
    Mbox.parseMbox (rt:=Sample.runtime)
      (fst (Mbox.messagesToMbox messages 0)) in
  List.map subject imported = [lit "(No Subject)"; lit "Hi"]
  /\ List.map subject imported <> List.map subject messages.
Proof. split; [by vm_compute|]. vm_compute. discriminate. Qed.


(** The body is read as headers too: the header loop skips empty lines
    before it tests for the blank line that ends the headers, so a body
    line "Subject: Other" replaces the subject. *)
Lemma body_line_replaces_subject :
  let message :=
    Sample.plainMessage (lit "Hi") Sample.bob
      (Some (lit "Subject: Other")) None in
  List.map subject
    (Mbox.parseMbox (rt:=Sample.runtime)
       (fst (Mbox.messagesToMbox [message] 0)))
  = [lit "Other"].
Proof. by vm_compute. Qed.

(** The conditions on the sender cannot be dropped: a display name that
    holds a double quote and then a "<", and an address without display
    name that holds "<" and ">", are not read back. *)
Lemma sender_not_restored :
  let named :=
    {| name := Some (lit "a" ++ [QUOTE] ++ lit "<x");
       address := lit "bob@example.com" |} in
  let bare := {| name := None; address := lit "a<b>" |} in
  List.map (fun m => address (from m))
    (Mbox.parseMbox (rt:=Sample.runtime)
       (fst (Mbox.messagesToMbox
               [Sample.plainMessage (lit "Hi") named (Some (lit "hello")) None;
                Sample.plainMessage (lit "Yo") bare (Some (lit "hello")) None]
               0)))
  = [lit "x" ++ [QUOTE] ++ lit " <bob@example.com"; lit "b"].
Proof. by vm_compute. Qed.


(* ================================================================== *)
(** * Further properties of the code                                   *)
(* ================================================================== *)

(** ** MBOX: what escaping guarantees *)

Lemma quoteLine_noFrom l : startsWith (lit "From ") (Spec.quoteLine l) = false.
Proof.
  unfold Spec.quoteLine. destruct (startsWith (lit "From ") l) eqn:E; [|done].
  by eval_lits.
Qed.

Lemma linesOf_cons_inside c s l ls :
  isLineTerminator c = false ->
  Spec.linesOf s = l :: ls -> Spec.linesOf (c :: s) = (c :: l) :: ls.
Proof. intros Hc E. cbn [Spec.linesOf]. by rewrite Hc, E. Qed.

Lemma linesOf_escapeFrom pv s :
  Spec.linesOf (escapeFrom pv s) =
  match Spec.linesOf s with
  | l :: ls =>
      (if atLineStart true pv then Spec.quoteLine l else l)
        :: List.map Spec.quoteLine ls
  | [] => []
  end.
Proof.
  revert pv. induction s as [|c s IH]; intros pv.
  - cbn. by destruct (atLineStart true pv).
  - cbn [escapeFrom]. specialize (IH (Some c)).
    destruct (Spec.linesOf s) as [|l ls] eqn:E.
    { by destruct (linesOf_nonempty s). }
    destruct (fromAt pv (c :: s)) eqn:Hf.
    + pose proof (fromAt_head _ _ _ Hf) as ->.
      unfold fromAt in Hf. apply andb_true_iff in Hf as [Hpv Hs].
      rewrite Hpv. cbn [app].
      assert (Spec.linesOf (70 :: s) = (70 :: l) :: ls) as E'
        by (by apply linesOf_cons_inside).
      rewrite E'.
      assert (startsWith (lit "From ") (70 :: l) = true) as Hl.
      { rewrite <- (startsWith_firstLine _ (70 :: s) _ ls); [done|lit_forall|done]. }
      unfold Spec.quoteLine at 1. rewrite Hl.
      change (atLineStart true (Some 70)) with false in IH.
      rewrite (linesOf_cons_inside 62 _ (70 :: l) (List.map Spec.quoteLine ls));
        [done|done|].
      by apply linesOf_cons_inside.
    + cbn [app]. destruct (isLineTerminator c) eqn:Hc.
      * cbn [Spec.linesOf]. rewrite Hc, E, IH.
        cbn [atLineStart andb]. rewrite Hc. cbn [List.map].
        assert (Spec.quoteLine [c] = [c]) as ->; [|by destruct (atLineStart true pv)].
        unfold Spec.quoteLine. eval_lits. cbn [startsWith].
        by destruct (N.eqb_spec c 70) as [->|].
      * assert (Spec.linesOf (c :: s) = (c :: l) :: ls) as ->
          by (by apply linesOf_cons_inside).
        cbn [atLineStart andb] in IH. rewrite Hc in IH.
        rewrite (linesOf_cons_inside c _ l (List.map Spec.quoteLine ls));
          [|done|done].
        destruct (atLineStart true pv) eqn:Hpv; [|done].
        unfold fromAt in Hf. rewrite Hpv in Hf. cbn [andb] in Hf.
        assert (startsWith (lit "From ") (c :: l) = false) as Hl.
        { rewrite <- (startsWith_firstLine _ (c :: s) _ ls);
            [done|lit_forall|by apply linesOf_cons_inside]. }
        unfold Spec.quoteLine. by rewrite Hl.
Qed.

(** X1.  Whatever the message content is, after the exporter's escaping no
    line of it begins with "From ": the lines of the escaped content are the
    lines of the content, each line that began with "From " with one ">" in
    front.  Lines end at the ECMAScript line terminators. *)
Theorem escaped_content_has_no_From_line (content : str) :
  Spec.linesOf (Mbox.escapeFromLines content)
    = List.map Spec.quoteLine (Spec.linesOf content)
  /\ Forall (fun l => startsWith (lit "From ") l = false)
       (Spec.linesOf (Mbox.escapeFromLines content)).
Proof.
  assert (Spec.linesOf (Mbox.escapeFromLines content)
          = List.map Spec.quoteLine (Spec.linesOf content)) as E.
  { rewrite escapeFromLines_escapeFrom, linesOf_escapeFrom.
    destruct (Spec.linesOf content) eqn:E; [by destruct (linesOf_nonempty content)|].
    done. }
  split; [exact E|]. rewrite E. apply List.Forall_map, Forall_forall.
  intros l _. apply quoteLine_noFrom.
Qed.

(** ** MBOX: exporting in batches *)

Section Batches.
Context `{rt : Runtime.t}.

Lemma messagesToMboxFrom_acc ms n mbox :
  Mbox.messagesToMboxFrom ms n mbox
  = (mbox ++ fst (Mbox.messagesToMboxFrom ms n []),
     snd (Mbox.messagesToMboxFrom ms n [])).
Proof.
  revert n mbox. induction ms as [|m ms IH]; intros n mbox.
  - cbn. by rewrite app_nil_r.
  - cbn [Mbox.messagesToMboxFrom].
    destruct (Mbox.messageToMboxEntry m n) as [entry n'].
    rewrite (IH n' (mbox ++ entry)), (IH n' ([] ++ entry)).
    cbn [fst snd app]. by rewrite app_assoc.
Qed.

Lemma messagesToMboxFrom_app a b n mbox :
  Mbox.messagesToMboxFrom (a ++ b) n mbox
  = Mbox.messagesToMboxFrom b (snd (Mbox.messagesToMboxFrom a n mbox))
      (fst (Mbox.messagesToMboxFrom a n mbox)).
Proof.
  revert n mbox. induction a as [|m a IH]; intros n mbox; [done|].
  cbn [app Mbox.messagesToMboxFrom].
  destruct (Mbox.messageToMboxEntry m n) as [entry n']. apply IH.
Qed.

(** X2.  The mailbox text of a list of messages is the text of its first
    part followed by the text of the rest, the rest exported with the
    boundary counter the first part left; the empty list gives the empty
    text.  Exporting in batches and appending gives the same mailbox. *)
Theorem messagesToMbox_app (a b : list EmailMessage) (n : nat) :
  Mbox.messagesToMbox [] n = ([], n)
  /\ fst (Mbox.messagesToMbox (a ++ b) n)
     = fst (Mbox.messagesToMbox a n)
         ++ fst (Mbox.messagesToMbox b (snd (Mbox.messagesToMbox a n)))
  /\ snd (Mbox.messagesToMbox (a ++ b) n)
     = snd (Mbox.messagesToMbox b (snd (Mbox.messagesToMbox a n))).
Proof.
  split; [done|]. unfold Mbox.messagesToMbox.
  rewrite messagesToMboxFrom_app, messagesToMboxFrom_acc. done.
Qed.
End Batches.


(** ** MBOX: what an import of an export holds *)

Section ImportOfExport.
Context `{rt : Runtime.t} (laws : Spec.RuntimeLaws rt).

(** The text of one entry after its leading "From ". *)
Lemma messageToMboxEntry_shape m n :
  envelopeSafe m ->
  exists A,
    noLT A /\ live A /\
    Mbox.messageToMboxEntry m n
    = (lit "From " ++ A ++ LF
         :: Mbox.escapeFromLines (fst (Mbox.messageContent m n)) ++ [LF; LF],
       snd (Mbox.messageContent m n)).
Proof.
  intros [Hlt Hws].
  exists (orStr (address (from m)) (lit "unknown") ++ lit " "
            ++ Date_toString (date m)).
  split; [|split].
  - apply noLT_app.
    + unfold orStr. destruct (address (from m)); [lit_forall|done].
    + apply noLT_app; [lit_forall|apply Spec.Date_toString_line].
  - unfold orStr. by destruct (address (from m)).
  - unfold Mbox.messageToMboxEntry, Mbox.createFromLine.
    destruct (Mbox.messageContent m n) as [c n']. cbn [fst snd].
    f_equal; by rewrite <- ?app_assoc.
Qed.

Lemma messagesToMboxFrom_shape ms n mbox :
  Forall envelopeSafe ms ->
  exists ps,
    fst (Mbox.messagesToMboxFrom ms n mbox)
    = mbox ++ concat (List.map (app (lit "From ")) ps)
    /\ Forall2
         (fun c p => exists A, noLT A /\ live A /\
                       p = A ++ LF :: Mbox.escapeFromLines c ++ [LF; LF])
         (contentsFrom ms n) ps.
Proof.
  intros H. revert n mbox. induction H as [|m ms Hm Hms IH]; intros n mbox.
  - exists []. split; [by rewrite app_nil_r|constructor].
  - cbn [Mbox.messagesToMboxFrom contentsFrom].
    destruct (messageToMboxEntry_shape m n Hm) as (A & HA & HAl & ->).
    destruct (Mbox.messageContent m n) as [c n']. cbn [fst snd].
    destruct (IH n' (mbox ++ lit "From " ++ A ++ LF
                       :: Mbox.escapeFromLines c ++ [LF; LF]))
      as (ps & -> & Hps).
    exists ((A ++ LF :: Mbox.escapeFromLines c ++ [LF; LF]) :: ps).
    split; [cbn [List.map concat]; by rewrite <- !app_assoc|].
    constructor; [by exists A|done].
Qed.

Lemma lastOr_entry (A E : str) :
  atLineStart true (lastOr (Some 32) (A ++ LF :: E ++ [LF; LF])) = true.
Proof.
  change (A ++ LF :: E ++ [LF; LF]) with (A ++ (LF :: E) ++ [LF] ++ [LF]).
  by rewrite !app_assoc, lastOr_end.
Qed.

Lemma live_app (A B : str) : live A -> live (A ++ B).
Proof. by destruct A. Qed.

Lemma raw_parseMessage content uid :
  raw (Mbox.parseMessage content uid) = Some content.
Proof.
  unfold Mbox.parseMessage.
  by destruct (Mbox.parseHeaderLines (split LF content) 0 []).
Qed.

Lemma entries_read_raw (cs ps : list str) i :
  Forall2
    (fun c p => exists A, noLT A /\ live A /\
                  p = A ++ LF :: Mbox.escapeFromLines c ++ [LF; LF])
    cs ps ->
  separated ps /\ Forall live ps /\
  List.map raw (Mbox.parseEntries ps i)
  = List.map (fun c => Some (Mbox.escapeFromLines c ++ [LF; LF])) cs.
Proof.
  intros H. revert i.
  induction H as [|c p cs ps (A & HA & HAl & ->) _ IH]; intros i.
  - repeat split; constructor.
  - destruct (IH (S i)) as (Hsep & Hlive & Hraw).
    split; [|split].
    + constructor; [by apply quiet_entry|apply lastOr_entry|done].
    + constructor; [by apply live_app|done].
    + cbn [Mbox.parseEntries].
      destruct (A ++ LF :: Mbox.escapeFromLines c ++ [LF; LF]) as [|x e] eqn:E.
      { by destruct A. }
      cbn [truthy negb List.map]. rewrite Hraw, <- E.
      rewrite substring_after_line by (by apply noLT_noLF).
      by rewrite raw_parseMessage.
Qed.

End ImportOfExport.

(** X3.  For messages whose sender address has no line terminator and no
    white space in front (it may be empty), whatever else they hold (raw
    text, attachments, any subject or body): importing the exported mailbox
    gives as many messages as were exported, in order, and the raw text of
    each is the escaped content of the exported message followed by two
    line feeds.  The importer does not undo the escaping. *)
Theorem import_keeps_count_and_escaped_raw `{rt : Runtime.t}
    (laws : Spec.RuntimeLaws rt) (messages : list EmailMessage) (n : nat) :
  Forall envelopeSafe messages ->
  let imported := Mbox.parseMbox (fst (Mbox.messagesToMbox messages n)) in
  length imported = length messages
  /\ List.map raw imported
     = List.map (fun c => Some (Mbox.escapeFromLines c ++ [LF; LF]))
         (contentsFrom messages n).
Proof.
  intros Hsafe imported.
  destruct (messagesToMboxFrom_shape laws messages n [] Hsafe)
    as (ps & Hout & Hps).
  destruct (entries_read_raw _ _ 0%nat Hps) as (Hsep & Hlive & Hraw).
  assert (imported = Mbox.parseEntries ps 0) as ->.
  { subst imported. unfold Mbox.messagesToMbox, Mbox.parseMbox.
    rewrite Hout. cbn [app]. by rewrite splitRe_pieces. }
  split; [|done].
  rewrite <- (length_map raw), Hraw, length_map.
  clear. revert n. induction messages as [|m ms IH]; intros n; [done|].
  cbn [contentsFrom]. destruct (Mbox.messageContent m n) as [c n'].
  cbn [length]. by rewrite IH.
Qed.


(** ** MBOX: the body and the defaults of an imported message *)

Lemma join_split s : join [LF] (split LF s) = s.
Proof.
  induction s as [|c s IH]; [done|]. cbn [split].
  destruct (split LF s) as [|l ls] eqn:E; [by destruct (split_nonempty LF s)|].
  destruct (c =? LF) eqn:Hc.
  - apply N.eqb_eq in Hc as ->.
    change (join [LF] ([] :: l :: ls)) with ([] ++ [LF] ++ join [LF] (l :: ls)).
    cbn [app]. by rewrite IH.
  - destruct ls as [|l2 ls].
    + cbn [join] in *. by rewrite IH.
    + change (join [LF] ((c :: l) :: l2 :: ls))
        with ((c :: l) ++ [LF] ++ join [LF] (l2 :: ls)).
      change (join [LF] (l :: l2 :: ls))
        with (l ++ [LF] ++ join [LF] (l2 :: ls)) in IH.
      cbn [app] in *. by rewrite IH.
Qed.

Section ImportedBody.
Context `{rt : Runtime.t}.

Lemma parseHeaderLines_noBlank lines i hs :
  Forall (fun l => blank l = false) lines ->
  snd (Mbox.parseHeaderLines lines i hs) = 0%nat.
Proof.
  intros H. revert i hs. induction H as [|l lines Hl _ IH]; intros i hs; [done|].
  cbn [Mbox.parseHeaderLines]. unfold blank in Hl.
  destruct (truthy l); cbn [negb andb] in *; [|apply IH].
  rewrite Hl. apply IH.
Qed.

Lemma parseHeaderLines_blank pre l post i hs :
  Forall (fun l => blank l = false) pre ->
  blank l = true ->
  snd (Mbox.parseHeaderLines (pre ++ l :: post) i hs)
  = (i + length pre + 1)%nat.
Proof.
  intros H Hb. revert i hs.
  induction H as [|x pre Hx _ IH]; intros i hs; cbn [app Mbox.parseHeaderLines].
  - unfold blank in Hb. apply andb_true_iff in Hb as [-> ->]. cbn. lia.
  - unfold blank in Hx.
    destruct (truthy x); cbn [negb andb length] in *;
      [rewrite Hx|]; rewrite IH; lia.
Qed.

Lemma text_parseMessage content uid :
  text (Mbox.parseMessage content uid)
  = Some (join [LF]
            (drop (snd (Mbox.parseHeaderLines (split LF content) 0 []))
               (split LF content))).
Proof.
  unfold Mbox.parseMessage.
  by destruct (Mbox.parseHeaderLines (split LF content) 0 []).
Qed.

(** X4.  The body of an imported message.  When no line of the entry is a
    non-empty line of white space, the text of the message is the whole
    entry, header lines included (an empty line does not end the headers).
    Otherwise the text is what follows the first such line. *)
Theorem imported_text_is_whole_entry_without_blank_line
    (content : str) (uid : nat) :
  (Forall (fun l => blank l = false) (split LF content) ->
   text (Mbox.parseMessage content uid) = Some content)
  /\ (forall pre l post,
        split LF content = pre ++ l :: post ->
        Forall (fun l => blank l = false) pre ->
        blank l = true ->
        text (Mbox.parseMessage content uid) = Some (join [LF] post)).
Proof.
  split.
  - intros H. rewrite text_parseMessage, parseHeaderLines_noBlank by done.
    by rewrite drop_0, join_split.
  - intros pre l post E Hpre Hl. rewrite text_parseMessage, E.
    rewrite parseHeaderLines_blank by done.
    replace (0 + length pre + 1)%nat with (length (pre ++ [l]))
      by (rewrite length_app; cbn; lia).
    by rewrite (cons_middle l pre post), app_assoc, drop_app_length.
Qed.

Lemma recordHeader_nocolon l hs : 58 ∉ l -> Mbox.recordHeader l hs = hs.
Proof.
  intros Hl. unfold Mbox.recordHeader.
  destruct (exec Mbox.reHeader l) as [m|] eqn:E; [|done].
  destruct (group 1 (groups m)) as [k|] eqn:Ek; [|done].
  exfalso. apply Hl.
  apply (elem_of_startsWith (k ++ [58])); [by eapply exec_reHeader_key|].
  apply elem_of_app. right. by apply list_elem_of_singleton.
Qed.

Lemma parseHeaderLines_nocolon lines i hs :
  Forall (fun l => 58 ∉ l) lines ->
  fst (Mbox.parseHeaderLines lines i hs) = hs.
Proof.
  intros H. revert i hs. induction H as [|l lines Hl _ IH]; intros i hs; [done|].
  cbn [Mbox.parseHeaderLines].
  destruct (negb (truthy l)); [apply IH|].
  destruct (negb (truthy (trim l))); [done|].
  by rewrite IH, recordHeader_nocolon.
Qed.

Lemma split_Forall (P : char -> Prop) sep s :
  Forall P s -> Forall (Forall P) (split sep s).
Proof.
  induction 1 as [|c s Hc Hs IH]; [by repeat constructor|].
  cbn [split]. destruct (c =? sep); [by repeat constructor|].
  destruct (split sep s) as [|l ls]; [by repeat constructor|].
  inversion IH; subst. by repeat constructor.
Qed.

(** X5.  An entry without any colon has no header: the imported message
    has no headers, the subject "(No Subject)", the sender "unknown"
    without display name, no recipients, the running number of the entry as
    id, the current time as date, and the entry as raw text. *)
Theorem entry_without_colon_gets_defaults (content : str) (uid : nat) :
  58 ∉ content ->
  let m := Mbox.parseMessage content uid in
  headers m = [] /\
  subject m = lit "(No Subject)" /\
  from m = {| name := None; address := lit "unknown" |} /\
  to m = [] /\ cc m = Some [] /\
  id m = natToString uid /\
  date m = Date_now /\
  raw m = Some content.
Proof.
  intros Hc m. subst m. unfold Mbox.parseMessage.
  assert (fst (Mbox.parseHeaderLines (split LF content) 0 []) = []) as E.
  { apply parseHeaderLines_nocolon.
    assert (Forall (fun c => c <> 58) content) as H
      by (apply Forall_forall; by intros c Hin ->).
    apply (split_Forall _ LF) in H.
    eapply Forall_impl; [exact H|]. intros l Hl Hin.
    by apply (proj1 (Forall_forall _ _) Hl 58). }
  destruct (Mbox.parseHeaderLines (split LF content) 0 []) as [hs start].
  cbn [fst] in E. subst hs. cbn [headers subject from to cc id date raw get].
  repeat split; by vm_compute.
Qed.
End ImportedBody.


(** ** MBOX: a text without envelope line *)

Lemma quiet_linesOf pv s :
  match Spec.linesOf s with
  | l :: ls =>
      (atLineStart true pv = true -> startsWith (lit "From ") l = false)
      /\ Forall (fun l => startsWith (lit "From ") l = false) ls
  | [] => True
  end ->
  quiet pv s [] = true.
Proof.
  revert pv. induction s as [|c s IH]; intros pv; [done|].
  cbn [quiet Spec.linesOf]. rewrite app_nil_r.
  destruct (Spec.linesOf s) as [|l ls] eqn:E.
  { by destruct (linesOf_nonempty s). }
  destruct (isLineTerminator c) eqn:Hc.
  - intros [_ H]. inversion H as [|? ? Hl Hls]; subst.
    rewrite IH by (by rewrite ?E). rewrite andb_true_r.
    unfold fromAt. eval_lits. cbn [startsWith].
    destruct (N.eqb_spec c 70) as [->|]; [done|].
    by rewrite andb_false_r.
  - intros [Hl Hls]. rewrite IH.
    + rewrite andb_true_r. unfold fromAt.
      destruct (atLineStart true pv) eqn:Hpv; [|done]. cbn [andb].
      rewrite (startsWith_firstLine _ (c :: s) (c :: l) ls);
        [by rewrite Hl|lit_forall|by apply linesOf_cons_inside].
    + split; [|done]. cbn [atLineStart andb]. by rewrite Hc.
Qed.

Lemma splitRe_quiet s :
  s <> [] -> quiet None s [] = true -> splitRe Mbox.reFromLine s = [s].
Proof.
  intros Hs Hq. rewrite splitRe_nonempty by done.
  replace (2 * length s + 1)%nat with (length s + S (length s))%nat by lia.
  rewrite <- (app_nil_r s) at 3.
  rewrite splitLoop_quiet by done. done.
Qed.

(** X6.  A text in which no line begins with "From " is not split: when it
    holds something other than white space it is read as one message,
    numbered 1, made of what follows the first line feed (all of the text
    when there is no line feed); otherwise no message is read. *)
Theorem text_without_envelope_is_one_message `{rt : Runtime.t}
    (content : str) :
  Forall (fun l => startsWith (lit "From ") l = false)
    (Spec.linesOf content) ->
  Mbox.parseMbox content
  = if truthy (trim content)
    then [Mbox.parseMessage
            (substring (indexOf LF content + 1) content) 1]
    else [].
Proof.
  intros H. unfold Mbox.parseMbox.
  destruct content as [|c s]; [done|].
  rewrite splitRe_quiet; [|done|].
  - cbn [List.filter]. destruct (truthy (trim (c :: s))); done.
  - apply quiet_linesOf.
    destruct (Spec.linesOf (c :: s)) as [|l ls]; [done|].
    inversion H; subst. by split.
Qed.


(** ** Folder names after sanitisation *)

Ltac n_cases :=
  repeat match goal with
         | |- context [(?a <=? ?b)] => destruct (N.leb_spec a b)
         | |- context [(?a =? ?b)] => destruct (N.eqb_spec a b)
         | |- context [(?a <? ?b)] => destruct (N.ltb_spec a b)
         end;
  cbn [andb orb negb] in *; try done; try lia.

Lemma folderChar_sanitized c :
  folderChar (lowerAscii (Spec.replaceUnsafe c)) = true.
Proof.
  unfold folderChar, lowerAscii, Spec.replaceUnsafe, Spec.isFolderSafe,
    isLower, isUpper, isDigit.
  destruct (N.leb_spec 97 c), (N.leb_spec c 122), (N.leb_spec 65 c),
    (N.leb_spec c 90), (N.leb_spec 48 c), (N.leb_spec c 57),
    (N.eqb_spec c 95), (N.eqb_spec c 45); cbn [andb orb]; n_cases.
Qed.

Lemma lowerAscii_underscore c : (lowerAscii c =? 95) = (c =? 95).
Proof. unfold lowerAscii, isUpper. n_cases. Qed.

Lemma folderChar_fixed c :
  folderChar c = true ->
  Spec.replaceUnsafe c = c /\ lowerAscii c = c.
Proof.
  unfold folderChar, Spec.replaceUnsafe, Spec.isFolderSafe, lowerAscii,
    isLower, isUpper, isDigit. intros H.
  destruct (N.leb_spec 97 c), (N.leb_spec c 122), (N.leb_spec 65 c),
    (N.leb_spec c 90), (N.leb_spec 48 c), (N.leb_spec c 57),
    (N.eqb_spec c 95), (N.eqb_spec c 45); cbn [andb orb] in *;
    try done; lia.
Qed.

Lemma doubled_lower u : doubled (List.map lowerAscii u) = doubled u.
Proof.
  induction u as [|a u IH]; [done|]. cbn [List.map doubled]. rewrite IH.
  destruct u as [|b u]; [done|]. cbn [List.map].
  by rewrite !lowerAscii_underscore.
Qed.

Lemma doubled_collapse b s :
  doubled (Spec.collapse b s) = false
  /\ (b = true ->
      match Spec.collapse b s with c :: _ => c <> 95 | [] => True end).
Proof.
  revert b. induction s as [|c s IH]; intros b; [done|].
  cbn [Spec.collapse]. destruct (N.eqb_spec c 95) as [->|Hc].
  - destruct b; [apply IH|]. destruct (IH true) as [H1 H2].
    split; [|done]. cbn [doubled]. rewrite H1, orb_false_r.
    specialize (H2 eq_refl).
    destruct (Spec.collapse true s) as [|d t]; [done|].
    apply N.eqb_neq in H2. by rewrite H2, andb_false_r.
  - destruct (IH false) as [H1 _]. split; [|done].
    cbn [doubled]. rewrite H1, orb_false_r.
    destruct (Spec.collapse false s); [done|].
    apply N.eqb_neq in Hc. by rewrite Hc.
Qed.

Lemma collapse_fixed b u :
  doubled u = false ->
  (b = true -> match u with c :: _ => c <> 95 | [] => True end) ->
  Spec.collapse b u = u.
Proof.
  revert b. induction u as [|c u IH]; intros b Hd Hb; [done|].
  cbn [Spec.collapse]. cbn [doubled] in Hd.
  apply orb_false_iff in Hd as [Hd1 Hd2].
  destruct (N.eqb_spec c 95) as [->|Hc].
  - destruct b; [by specialize (Hb eq_refl)|].
    f_equal. apply IH; [done|]. intros _.
    destruct u as [|d u]; [done|]. cbn in Hd1.
    by destruct (N.eqb_spec d 95).
  - f_equal. by apply IH.
Qed.

Lemma collapse_length b s : (length (Spec.collapse b s) <= length s)%nat.
Proof.
  revert b. induction s as [|c s IH]; intros b; [done|].
  cbn [Spec.collapse length].
  pose proof (IH true). pose proof (IH false).
  destruct (c =? 95), b; cbn [length]; lia.
Qed.

Lemma doubled_inside (a b : str) : doubled (a ++ 95 :: 95 :: b) = true.
Proof.
  induction a as [|x a IH]; [done|]. cbn [app doubled].
  change ((fix app (l m : list N) {struct l} : list N :=
             match l with [] => m | a0 :: l1 => a0 :: app l1 m end)
            a (95 :: 95 :: b)) with (a ++ 95 :: 95 :: b).
  by rewrite IH, orb_true_r.
Qed.

Lemma sanitize_clean folder :
  Forall (fun c => folderChar c = true) (Spec.sanitize folder)
  /\ doubled (Spec.sanitize folder) = false.
Proof.
  unfold Spec.sanitize. split.
  - apply List.Forall_map.
    apply (collapse_Forall (fun c => folderChar (lowerAscii c) = true)).
    apply List.Forall_map, Forall_forall. intros c _.
    apply folderChar_sanitized.
  - rewrite doubled_lower. apply doubled_collapse.
Qed.

Lemma sanitize_fixed u :
  Forall (fun c => folderChar c = true) u -> doubled u = false ->
  Spec.sanitize u = u.
Proof.
  intros Hu Hd. unfold Spec.sanitize.
  assert (List.map Spec.replaceUnsafe u = u) as ->.
  { clear Hd. induction Hu as [|c u Hc _ IH]; [done|]. cbn [List.map].
    rewrite IH. by destruct (folderChar_fixed c Hc) as [-> _]. }
  rewrite collapse_fixed by done.
  induction Hu as [|c u Hc _ IH]; [done|]. cbn [List.map].
  cbn [doubled] in Hd. apply orb_false_iff in Hd as [_ Hd].
  rewrite IH by done. by destruct (folderChar_fixed c Hc) as [_ ->].
Qed.

(** X7.  In a runtime that lower-cases ASCII text as ECMAScript does, a
    sanitised folder name consists of a-z, 0-9, "_" and "-" only, has no
    two underscores in a row, is not longer than the folder name, and is
    left unchanged when sanitised again. *)
Theorem sanitized_folder_name_is_safe_and_stable `{rt : Runtime.t}
    (laws : Spec.RuntimeLaws rt) (folder : str) :
  let out := Mbox.sanitizeFolderName folder in
  Forall (fun c => folderChar c = true) out
  /\ (forall a b : str, out <> a ++ 95 :: 95 :: b)
  /\ (length out <= length folder)%nat
  /\ Mbox.sanitizeFolderName out = out.
Proof.
  intros out. subst out. rewrite !sanitizeFolderName_spec.
  destruct (sanitize_clean folder) as [Hc Hd].
  split; [done|]. split; [|split].
  - intros a b E. rewrite E, doubled_inside in Hd. done.
  - unfold Spec.sanitize. rewrite length_map.
    etransitivity; [apply collapse_length|]. by rewrite length_map.
  - by apply sanitize_fixed.
Qed.


(** ** MBOX: addresses written and read back *)

(** X8.  An address that the exporter writes in plain form is read back
    by the importer as it was, display name included. *)
Theorem parseAddress_formatAddress `{rt : Runtime.t} (a : EmailAddress) :
  plainAddress a -> Mbox.parseAddress (Mbox.formatAddress a) = a.
Proof.
  destruct a as [nm addr]. intros (Hlt & Htrim & Hname).
  cbn [name address] in *. unfold Mbox.formatAddress. cbn [name address].
  destruct nm as [nm|].
  - destruct Hname as (Hn0 & Hq & Hnt & Ha0).
    assert (truthyOpt (Some nm) = true) as -> by (by destruct nm).
    cbn [default]. eval_lits. cbn [app].
    destruct (matchAt_reAddress_named nm addr) as [pv Hm]; try done.
    { apply Forall_forall. by intros c Hc ->. }
    unfold Mbox.parseAddress, exec. rewrite (search_hit _ _ _ _ _ Hm).
    cbn [groups caps group Nat.eqb]. rewrite Htrim, Hnt.
    unfold orStr. destruct nm; [done|]. by destruct addr.
  - cbn [truthyOpt]. unfold Mbox.parseAddress, exec.
    rewrite search_None.
    + rewrite !Htrim. unfold orStr. by destruct addr.
    + intros pv t. destruct (matchAt Mbox.reAddress pv t) as [y|] eqn:E;
        [|by left].
      right. intros [b ->]. apply matchAt_reAddress_needs_angle in E.
      apply Hname. apply elem_of_app. by right.
Qed.

(** ** MBOX: the boundaries of a multipart message *)

(** X9.  For a message with attachments and without raw text the exporter
    draws two boundaries: the Content-Type header names the first draw,
    the parts of the body are delimited by the second, and the counter
    advances by two.  The header names the delimiter of the body only when
    the two draws coincide. *)
Theorem multipart_boundaries_are_two_draws `{rt : Runtime.t}
    (m : EmailMessage) (n : nat) :
  truthyOpt (raw m) = false ->
  attachments m <> [] ->
  let declared := fst (Mbox.generateBoundary n) in
  let used := fst (Mbox.generateBoundary (S n)) in
  exists hs,
    Mbox.buildHeaders m n = (hs, S n)
    /\ (lit "Content-Type: multipart/mixed; boundary=" ++ [QUOTE]
          ++ declared ++ [QUOTE]) ∈ hs
    /\ Mbox.messageContent m n
       = (join [LF] (hs ++ [[]] ++ Mbox.buildMultipartBody m used),
          S (S n))
    /\ (declared = used <-> boundaryStamp n = boundaryStamp (S n)).
Proof.
  intros Hraw Hatt declared used.
  assert (Mbox.hasAttachments m = true) as Hhas.
  { unfold Mbox.hasAttachments. by destruct (attachments m). }
  exists (fst (Mbox.buildHeaders m n)).
  assert (Mbox.buildHeaders m n = (fst (Mbox.buildHeaders m n), S n)
          /\ (lit "Content-Type: multipart/mixed; boundary=" ++ [QUOTE]
                ++ declared ++ [QUOTE]) ∈ fst (Mbox.buildHeaders m n))
    as [Hb Hin].
  { unfold Mbox.buildHeaders. rewrite Hhas. cbn [Mbox.generateBoundary fst snd].
    split; [done|].
    rewrite !elem_of_app. do 3 right. left.
    apply list_elem_of_singleton. done. }
  split; [done|]. split; [done|]. split.
  - unfold Mbox.messageContent. rewrite Hraw.
    unfold Mbox.reconstructRawMessage. rewrite Hb, Hhas. done.
  - subst declared used. cbn [Mbox.generateBoundary fst]. split.
    + intros E. by apply app_inv_head in E.
    + by intros ->.
Qed.


(** ** EML: file names *)

Lemma squeeze_skip p by_ s :
  squeeze p by_ true s = squeeze p by_ false (skipWhile p s).
Proof.
  induction s as [|c s IH]; [done|]. cbn [squeeze skipWhile].
  destruct (p c) eqn:E; [done|]. cbn [squeeze]. by rewrite E.
Qed.

Lemma replaceLoop_Plus p by_ fuel pv s :
  (length s < fuel)%nat ->
  replaceLoop (Plus true p) by_ fuel pv s = squeeze p by_ false s.
Proof.
  revert pv s. induction fuel as [|fuel IH]; intros pv s Hlen; [lia|].
  destruct s as [|c s]; [done|]. simpl in Hlen.
  cbn [replaceLoop squeeze]. unfold matchAt, Plus. cbn [run]. unfold step.
  cbn [rest caps prev]. destruct (p c) eqn:E.
  - cbn [run prev rest caps].
    match goal with
    | |- context [starGreedy ?q Some ?v ?t ?cs] =>
        destruct (starGreedy_Some q v t cs) as [pv' ->]
    end.
    cbn [rest prev length]. pose proof (skipWhile_length p s).
    destruct (Nat.ltb_spec (length (skipWhile p s)) (S (length s))); [|lia].
    rewrite IH by lia. by rewrite squeeze_skip.
  - cbn [app]. f_equal. apply IH. lia.
Qed.

Lemma squeeze_collapse b s :
  squeeze (only 95) (lit "_") b s = Spec.collapse b s.
Proof.
  revert b. induction s as [|c s IH]; intros b; [done|].
  cbn [squeeze Spec.collapse]. unfold only at 1.
  destruct (c =? 95) eqn:E.
  - apply N.eqb_eq in E as ->. destruct b; rewrite IH; done.
  - by rewrite IH.
Qed.

Lemma squeeze_length p (x : char) b s :
  (length (squeeze p [x] b s) <= length s)%nat.
Proof.
  revert b. induction s as [|c s IH]; intros b; [done|].
  pose proof (IH true). pose proof (IH false).
  cbn [squeeze length]. destruct (p c), b; cbn [app length]; lia.
Qed.

Lemma squeeze_whitespace b s :
  Forall (fun c => Spec.isFolderSafe c || isWhiteSpace c = true) s ->
  Forall (fun c => Spec.isFolderSafe c = true)
    (squeeze isWhiteSpace (lit "_") b s).
Proof.
  intros H. revert b. induction H as [|c s Hc _ IH]; intros b; [constructor|].
  cbn [squeeze]. destruct (isWhiteSpace c) eqn:E.
  - destruct b; [apply IH|]. constructor; [done|apply IH].
  - constructor; [|apply IH]. by rewrite orb_false_r in Hc.
Qed.

Lemma doubled_take n s : doubled s = false -> doubled (take n s) = false.
Proof.
  revert n. induction s as [|a s IH]; intros n H; [by destruct n|].
  destruct n as [|n]; [done|]. cbn [take doubled] in *.
  apply orb_false_iff in H as [H1 H2]. rewrite IH by done.
  rewrite orb_false_r. destruct s as [|b s]; [by destruct n|].
  by destruct n.
Qed.

Lemma flat_map_replace (p : cset) (x : char) s :
  flat_map (fun c => if p c then [x] else [c]) s
  = List.map (fun c => if p c then x else c) s.
Proof.
  induction s as [|c s IH]; [done|]. cbn [flat_map List.map]. rewrite IH.
  by destruct (p c).
Qed.

Lemma notFileSafe_replaced c :
  let r := if EmlExporter.notFileSafe c then 95 else c in
  Spec.isFolderSafe r || isWhiteSpace r = true.
Proof.
  unfold EmlExporter.notFileSafe.
  destruct (isLower c || isUpper c || isDigit c || (c =? 95) || (c =? 45))
    eqn:E1; cbn [orb negb].
  - unfold Spec.isFolderSafe. by rewrite E1.
  - destruct (isWhiteSpace c) eqn:E2; cbn [negb].
    + by rewrite E2, orb_true_r.
    + done.
Qed.

Lemma sanitizeFilename_clean name :
  Forall (fun c => Spec.isFolderSafe c = true)
    (EmlExporter.sanitizeFilename name)
  /\ doubled (EmlExporter.sanitizeFilename name) = false
  /\ (length (EmlExporter.sanitizeFilename name) <= length name)%nat.
Proof.
  unfold EmlExporter.sanitizeFilename, replaceAll.
  rewrite replaceLoop_Chars by lia.
  change (lit "_") with [95]. rewrite flat_map_replace.
  set (s1 := List.map _ name).
  assert (Forall (fun c => Spec.isFolderSafe c || isWhiteSpace c = true) s1)
    as H1.
  { subst s1. apply List.Forall_map, Forall_forall. intros c _.
    apply notFileSafe_replaced. }
  assert (length s1 = length name) as L1 by (subst s1; apply length_map).
  rewrite (replaceLoop_Plus isWhiteSpace) by lia.
  set (s2 := squeeze isWhiteSpace _ false s1).
  assert (length s2 <= length name)%nat as L2.
  { subst s2. rewrite <- L1. apply squeeze_length. }
  rewrite (replaceLoop_Plus (only 95)) by lia.
  change [95] with (lit "_"). rewrite squeeze_collapse. split; [|split].
  - apply collapse_Forall. by apply squeeze_whitespace.
  - apply doubled_collapse.
  - etransitivity; [apply collapse_length|done].
Qed.

(** X10.  The name of the file an EML message is written to.  For a date
    that is not a valid time no name is made: the RangeError of
    toISOString is thrown, with the message the engine gives it.
    Otherwise the name is the date part of the ISO text, "_", the text of
    the uid padded with zeros to six places, "_", a text and ".eml", where
    the text has at most 50 code units, all of them ASCII letters, digits,
    "_" or "-", and no two underscores in a row.  The text of the uid is
    the one JavaScript prints: the decimal digits of an integer below 2^53
    in absolute value, the engine's rendering beyond, "NaN" for NaN. *)
Theorem generateFilename_shape `{rt : Runtime.t} (message : EmailMessage) :
  (Date_toISOString (date message) = None ->
   EmlExporter.generateFilename message
   = Thrown (rangeError Date_rangeMessage))
  /\ (forall iso, Date_toISOString (date message) = Some iso ->
      exists subj,
        EmlExporter.generateFilename message
        = Returned (default [] (head (split 84 iso)) ++ lit "_"
                      ++ EmlExporter.padStart 6 (numberToString (uid message))
                      ++ lit "_" ++ subj ++ lit ".eml")
        /\ (length subj <= 50)%nat
        /\ Forall (fun c => Spec.isFolderSafe c = true) subj
        /\ (forall a b : str, subj <> a ++ 95 :: 95 :: b)).
Proof.
  unfold EmlExporter.generateFilename. split; [by intros ->|].
  intros iso ->. eexists. split; [reflexivity|].
  destruct (sanitizeFilename_clean (subject message)) as (Hc & Hd & _).
  split; [|split].
  - rewrite length_take. lia.
  - by apply Forall_take.
  - intros a b E. apply (doubled_take 50) in Hd.
    rewrite E, doubled_inside in Hd. done.
Qed.


(** ** EML and MBOX write the same message text *)

(** X11.  For a message without attachments all of whose additional
    headers are among those the MBOX exporter writes itself (From, To, Cc,
    Subject, Date, Message-ID, Content-Type, in any case), the content the
    MBOX exporter escapes is the content the EML exporter writes: the raw
    text when there is one, the same reconstruction otherwise; no boundary
    is drawn. *)
Theorem mbox_content_is_eml_content `{rt : Runtime.t}
    (m : EmailMessage) (n : nat) :
  attachments m = [] ->
  Forall (fun kv => toLowerCase (fst kv) ∈ Mbox.skippedHeaders) (headers m) ->
  Mbox.messageContent m n = (EmlExporter.emlContent m, n).
Proof.
  intros Hatt Hhs. unfold Mbox.messageContent, EmlExporter.emlContent.
  destruct (truthyOpt (raw m)); [done|].
  unfold Mbox.reconstructRawMessage, Mbox.buildHeaders, Mbox.hasAttachments,
    EmlExporter.reconstructEml.
  rewrite Hatt. cbn [length Nat.ltb Nat.leb].
  assert (flat_map
            (fun '(key, value) =>
               if bool_decide (toLowerCase key ∈ Mbox.skippedHeaders)
               then []
               else [key ++ lit ": " ++ headerValueToString value])
            (headers m) = []) as ->.
  { induction Hhs as [|[k v] hs Hk _ IH]; [done|]. cbn [flat_map fst] in *.
    by rewrite bool_decide_true. }
  destruct (truthyOpt (html m)); f_equal; rewrite app_nil_r;
    by rewrite <- !app_assoc.
Qed.

(** ** Exports on the file system *)

Section OnDisk.
Context `{rt : Runtime.t} (h : Host.t).
Hypothesis writes : forall fs path content,
  Host.writeError h fs path content = None.

Lemma write_ok path content s :
  Host.write h path content s
  = (Returned tt,
     {| Host.files := <[path := content]> (Host.files s);
        Host.drawn := Host.drawn s |}).
Proof. unfold Host.write. by rewrite writes. Qed.

Lemma forEach_app {S A} (a b : list A) (body : A -> M S unit) s :
  forEach (a ++ b) body s
  = match forEach a body s with
    | (Returned _, s') => forEach b body s'
    | (Thrown e, s') => (Thrown e, s')
    end.
Proof.
  revert s. induction a as [|x a IH]; intros s; [done|].
  cbn [app forEach]. unfold bind.
  destruct (body x s) as [[[]|e] s']; [apply IH|done].
Qed.

Lemma mbox_export_ok messages path s :
  MboxExporter.export h messages path s
  = (Returned tt,
     {| Host.files :=
          <[path := fst (Mbox.messagesToMbox messages (Host.drawn s))]>
            (Host.files s);
        Host.drawn := snd (Mbox.messagesToMbox messages (Host.drawn s)) |}).
Proof.
  unfold MboxExporter.export, bind, gets.
  destruct (Mbox.messagesToMbox messages (Host.drawn s)) as [text n'].
  unfold modify, tryCatch. cbn [fst snd]. by rewrite write_ok.
Qed.

Lemma mbox_exportByFolder_other folders dir p s :
  Forall (fun fm => mboxPath h dir (fst fm) <> p) folders ->
  fst (MboxExporter.exportByFolder h folders dir s) = Returned tt
  /\ Host.files (snd (MboxExporter.exportByFolder h folders dir s)) !! p
     = Host.files s !! p.
Proof.
  intros H. revert s. induction H as [|[f ms] folders Hf _ IH]; intros s.
  - done.
  - unfold MboxExporter.exportByFolder. cbn [forEach]. unfold bind.
    rewrite mbox_export_ok.
    match goal with
    | |- context [forEach folders ?body ?s'] =>
        change (forEach folders body s')
          with (MboxExporter.exportByFolder h folders dir s');
        destruct (IH s') as [-> ->]
    end.
    split; [done|]. cbn [Host.files fst] in *.
    by rewrite lookup_insert_ne.
Qed.

Lemma mbox_exportByFolder_ok folders dir s :
  fst (MboxExporter.exportByFolder h folders dir s) = Returned tt.
Proof.
  revert s. induction folders as [|[f ms] folders IH]; intros s; [done|].
  unfold MboxExporter.exportByFolder. cbn [forEach]. unfold bind.
  rewrite mbox_export_ok. apply IH.
Qed.
End OnDisk.


(** X12.  Writing mailboxes by folder, when every write succeeds: the call
    returns, and the file of a folder that no later folder shares holds
    the mailbox of that folder's messages.  Folders whose sanitised names
    coincide share a file: each export replaces what was there, so the
    file holds the mailbox of the last such folder only. *)
Theorem mbox_exportByFolder_last_folder_wins `{rt : Runtime.t}
    (h : Host.t) (pre post : list (str * list EmailMessage))
    (folder : str) (messages : list EmailMessage) (dir : str)
    (s : Host.Disk) :
  (forall fs path content, Host.writeError h fs path content = None) ->
  Forall (fun fm => mboxPath h dir (fst fm) <> mboxPath h dir folder) post ->
  let r := MboxExporter.exportByFolder h
             (pre ++ (folder, messages) :: post) dir s in
  fst r = Returned tt
  /\ exists n,
       Host.files (snd r) !! mboxPath h dir folder
       = Some (fst (Mbox.messagesToMbox messages n)).
Proof.
  intros writes Hpost r. subst r.
  split; [by apply mbox_exportByFolder_ok|].
  unfold MboxExporter.exportByFolder. rewrite forEach_app.
  pose proof (mbox_exportByFolder_ok h writes pre dir s) as Hpre.
  unfold MboxExporter.exportByFolder in Hpre.
  destruct (forEach pre _ s) as [[[]|e] s1]; [clear Hpre|done].
  cbn [forEach]. unfold bind. rewrite mbox_export_ok by done.
  match goal with
  | |- context [forEach post ?body ?s'] =>
      change (forEach post body s')
        with (MboxExporter.exportByFolder h post dir s');
      destruct (mbox_exportByFolder_other h writes post dir
                  (mboxPath h dir folder) s' Hpost) as [_ ->]
  end.
  exists (Host.drawn s1). cbn [Host.files]. unfold mboxPath.
  by rewrite lookup_insert_eq.
Qed.

(** ** EML export on the file system *)

Section EmlOnDisk.
Context `{rt : Runtime.t} (h : Host.t).
Hypothesis writes : forall fs path content,
  Host.writeError h fs path content = None.

Lemma eml_exportMessage_ok m dir fn s :
  EmlExporter.generateFilename m = Returned fn ->
  EmlExporter.exportMessage h m dir s
  = (Returned tt,
     {| Host.files :=
          <[Host.pathJoin h dir fn := EmlExporter.emlContent m]>
            (Host.files s);
        Host.drawn := Host.drawn s |}).
Proof.
  intros E. unfold EmlExporter.exportMessage, bind, lift. rewrite E.
  unfold tryCatch. by rewrite write_ok.
Qed.

Lemma eml_exportMessage_invalid m dir s :
  Date_toISOString (date m) = None ->
  EmlExporter.exportMessage h m dir s
  = (Thrown (rangeError Date_rangeMessage), s).
Proof.
  intros E. unfold EmlExporter.exportMessage, bind, lift,
    EmlExporter.generateFilename. by rewrite E.
Qed.

Lemma generateFilename_valid m :
  is_Some (Date_toISOString (date m)) ->
  exists fn, EmlExporter.generateFilename m = Returned fn.
Proof.
  intros [iso E]. unfold EmlExporter.generateFilename. rewrite E.
  by eexists.
Qed.

Lemma eml_export_ok messages dir s :
  Forall (fun m => is_Some (Date_toISOString (date m))) messages ->
  fst (EmlExporter.export h messages dir s) = Returned tt.
Proof.
  intros H. revert s. induction H as [|m ms Hm _ IH]; intros s; [done|].
  destruct (generateFilename_valid m Hm) as [fn E].
  unfold EmlExporter.export. cbn [forEach]. unfold bind.
  rewrite (eml_exportMessage_ok m dir fn) by done. apply IH.
Qed.

Lemma eml_export_other messages dir p s :
  Forall (fun m => is_Some (Date_toISOString (date m))) messages ->
  Forall (fun m => forall fn, EmlExporter.generateFilename m = Returned fn ->
                     Host.pathJoin h dir fn <> p) messages ->
  Host.files (snd (EmlExporter.export h messages dir s)) !! p
  = Host.files s !! p.
Proof.
  intros H. revert s. induction H as [|m ms Hm _ IH]; intros s Hp; [done|].
  inversion Hp as [|? ? Hp1 Hp2]; subst.
  destruct (generateFilename_valid m Hm) as [fn E].
  unfold EmlExporter.export. cbn [forEach]. unfold bind.
  rewrite (eml_exportMessage_ok m dir fn) by done.
  match goal with
  | |- context [forEach ms ?body ?s'] =>
      change (forEach ms body s') with (EmlExporter.export h ms dir s');
      rewrite (IH s') by done
  end.
  cbn [Host.files]. rewrite lookup_insert_ne; [done|]. by apply Hp1.
Qed.
End EmlOnDisk.

(** X13.  Writing EML files, when every date is a valid time and every
    write succeeds: the call returns, and the file named after a message
    holds the content of that message (its raw text, or the reconstruction
    when it has none) provided no later message of the list gets the same
    file.  Messages that get the same file name replace one another: only
    the last is kept. *)
Theorem eml_export_last_message_wins `{rt : Runtime.t} (h : Host.t)
    (pre post : list EmailMessage) (m : EmailMessage) (fn dir : str)
    (s : Host.Disk) :
  (forall fs path content, Host.writeError h fs path content = None) ->
  Forall (fun m => is_Some (Date_toISOString (date m)))
    (pre ++ m :: post) ->
  EmlExporter.generateFilename m = Returned fn ->
  Forall (fun m' => forall fn', EmlExporter.generateFilename m' = Returned fn' ->
                      Host.pathJoin h dir fn' <> Host.pathJoin h dir fn)
    post ->
  let r := EmlExporter.export h (pre ++ m :: post) dir s in
  fst r = Returned tt
  /\ Host.files (snd r) !! Host.pathJoin h dir fn
     = Some (EmlExporter.emlContent m).
Proof.
  intros writes Hvalid Hfn Hpost r. subst r.
  split; [by apply eml_export_ok|].
  apply Forall_app in Hvalid as [Hpre Hrest].
  inversion Hrest as [|? ? _ Hpostv]; subst.
  unfold EmlExporter.export. rewrite forEach_app.
  pose proof (eml_export_ok h writes pre dir s Hpre) as Hok.
  unfold EmlExporter.export in Hok.
  destruct (forEach pre _ s) as [[[]|e] s1]; [clear Hok|done].
  cbn [forEach]. unfold bind.
  rewrite (eml_exportMessage_ok h writes m dir fn) by done.
  match goal with
  | |- context [forEach post ?body ?s'] =>
      change (forEach post body s') with (EmlExporter.export h post dir s');
      rewrite (eml_export_other h writes post dir _ s') by done
  end.
  cbn [Host.files]. by rewrite lookup_insert_eq.
Qed.

(** X14.  Writing EML files stops at the first message whose date is not a
    valid time: the messages before it are written, the call fails with
    the RangeError of toISOString (not wrapped in a write error), and the
    messages after it are not written. *)
Theorem eml_export_stops_at_invalid_date `{rt : Runtime.t} (h : Host.t)
    (pre post : list EmailMessage) (m : EmailMessage) (dir : str)
    (s : Host.Disk) :
  (forall fs path content, Host.writeError h fs path content = None) ->
  Forall (fun m => is_Some (Date_toISOString (date m))) pre ->
  Date_toISOString (date m) = None ->
  EmlExporter.export h (pre ++ m :: post) dir s
  = (Thrown (rangeError Date_rangeMessage),
     snd (EmlExporter.export h pre dir s)).
Proof.
  intros writes Hpre Hm.
  pose proof (eml_export_ok h writes pre dir s Hpre) as Hok.
  unfold EmlExporter.export in *. rewrite forEach_app.
  destruct (forEach pre _ s) as [[[]|e] s1]; [|done].
  cbn [forEach snd]. unfold bind.
  by rewrite eml_exportMessage_invalid.
Qed.


(** ** JSON export on the file system *)

Lemma messagesToJson_invalid `{rt : Runtime.t} (messages : list EmailMessage) :
  Exists (fun m => Date_toISOString (date m) = None) messages ->
  Json.messagesToJson messages
  = Thrown (rangeError Date_rangeMessage).
Proof.
  unfold Json.messagesToJson. induction messages as [|m ms IH]; intros H.
  - inversion H.
  - cbn [mapOutcome]. unfold Json.messageToJson at 1.
    destruct (Date_toISOString (date m)) as [iso|] eqn:E; [|done].
    inversion H as [? ? Hm|? ? Hms]; subst; [congruence|].
    by rewrite IH.
Qed.

Lemma messagesToJson_valid `{rt : Runtime.t} (messages : list EmailMessage) :
  Forall (fun m => is_Some (Date_toISOString (date m))) messages ->
  exists objs, Json.messagesToJson messages = Returned objs
               /\ Forall2 serialises messages objs.
Proof.
  unfold Json.messagesToJson. induction 1 as [|m ms Hm _ (objs & IH & Hs)].
  - by exists [].
  - destruct (messageToJson_serialises m Hm) as (obj & E & Hobj).
    exists (obj :: objs). cbn [mapOutcome]. rewrite E, IH.
    split; [done|by constructor].
Qed.

(** X15.  Writing a JSON file is all or nothing.  When one message of the
    list has a date that is not a valid time, the call fails with the
    RangeError of toISOString (not wrapped in a write error) and no file
    is written or changed, the other messages included.  When all dates
    are valid times and the write succeeds, the file holds the text of the
    array of one object per message, in order. *)
Theorem json_export_all_or_nothing `{rt : Runtime.t} (h : Host.t)
    (messages : list EmailMessage) (path : str) (s : Host.Disk) :
  (Exists (fun m => Date_toISOString (date m) = None) messages ->
   JsonExporter.export h messages path s
   = (Thrown (rangeError Date_rangeMessage), s))
  /\ (Forall (fun m => is_Some (Date_toISOString (date m))) messages ->
      (forall content, Host.writeError h (Host.files s) path content = None) ->
      exists objs,
        Forall2 serialises messages objs /\
        JsonExporter.export h messages path s
        = (Returned tt,
           {| Host.files :=
                <[path := Host.stringify h (Json.VArray objs)]>
                  (Host.files s);
              Host.drawn := Host.drawn s |})).
Proof.
  split.
  - intros H. unfold JsonExporter.export, bind, lift.
    by rewrite messagesToJson_invalid.
  - intros H Hw. destruct (messagesToJson_valid messages H) as (objs & E & Hs).
    exists objs. split; [done|].
    unfold JsonExporter.export, bind, lift, tryCatch, Host.write.
    by rewrite E, Hw.
Qed.


(** ** Providers: what fetched messages hold *)

Section Fetched.
Context `{rt : Runtime.t}.

Lemma processPart_content :
  forall part, Forall (fun a => content a = None) (Gmail.processPart part).
Proof.
  fix IH 1. intros [mimeType partFilename hs body parts].
  cbn [Gmail.processPart]. apply Forall_app. split.
  - destruct partFilename as [fname|]; [|constructor].
    destruct body as [b|]; [|constructor].
    destruct (truthy fname && truthyOpt (Gmail.b_attachmentId b));
      by repeat constructor.
  - destruct parts as [ps|]; [|constructor].
    induction ps as [|p ps IHps]; [constructor|].
    cbn [flat_map]. apply Forall_app. split; [apply IH|exact IHps].
Qed.

Lemma hasContent_None (a : Attachment) :
  content a = None ->
  Json.field (lit "hasContent") (Json.attachmentToJson a)
  = Some (Json.VBool false).
Proof. intros H. unfold Json.attachmentToJson. rewrite H. by vm_compute. Qed.
End Fetched.

(** X16.  No attachment of a message fetched through the Gmail API or
    through JMAP carries content, whatever the server sent: the providers
    keep the name, type, size and id of an attachment and never fetch its
    bytes.  In a JSON export every such attachment has hasContent false. *)
Theorem fetched_attachments_have_no_content `{rt : Runtime.t} :
  (forall message : Gmail.Message,
      Forall (fun a => content a = None
                       /\ Json.field (lit "hasContent") (Json.attachmentToJson a)
                          = Some (Json.VBool false))
        (attachments (Gmail.parseGmailMessage message)))
  /\ (forall cache (email : Jmap.JmapEmail) (folder : str),
      Forall (fun a => content a = None
                       /\ Json.field (lit "hasContent") (Json.attachmentToJson a)
                          = Some (Json.VBool false))
        (attachments (Jmap.convertJmapEmail cache email folder))).
Proof.
  split.
  - intros message. cbn [Gmail.parseGmailMessage attachments].
    unfold Gmail.extractAttachments.
    destruct (Gmail.m_payload message) as [p|]; [|constructor].
    eapply Forall_impl; [apply processPart_content|].
    intros a Ha. split; [done|by apply hasContent_None].
  - intros cache email folder. cbn [Jmap.convertJmapEmail attachments].
    apply List.Forall_map, Forall_forall. intros att _.
    split; [done|by apply hasContent_None].
Qed.

(** ** Providers: uploading *)

Section Uploads.
Context `{rt : Runtime.t}.

Lemma imap_uploadMessage_ok sv folder m s :
  truthyOpt (raw m) = true ->
  is_Some (Imap.imap s) ->
  succeeded (Imap.openBox sv folder false) = true ->
  Imap.append sv m folder = None ->
  Imap.uploadMessage sv folder m s
  = (Returned tt,
     {| Imap.imap := Imap.imap s; Imap.config := Imap.config s;
        Imap.connected := Imap.connected s;
        Imap.trace := Imap.trace s ++ uploadRequests folder |}).
Proof.
  intros Hraw Himap Hopen Happ. unfold Imap.uploadMessage. rewrite Hraw.
  cbn [negb]. rewrite run_imap_client by done. rewrite run_imap_request.
  destruct (Imap.openBox sv folder false) as [t|e] eqn:E; [|done].
  rewrite run_lift_returned. rewrite run_imap_client by done.
  rewrite run_imap_request. rewrite Happ. unfold Imap.rejectOn, ret.
  cbn [Imap.imap Imap.config Imap.connected Imap.trace].
  by rewrite <- app_assoc.
Qed.

Lemma imap_uploadMessage_noRaw sv folder m s :
  truthyOpt (raw m) = false ->
  Imap.uploadMessage sv folder m s = (Thrown noRawError, s).
Proof. intros Hraw. unfold Imap.uploadMessage. by rewrite Hraw. Qed.

Lemma imap_upload_loop sv folder pre m post s :
  is_Some (Imap.imap s) ->
  succeeded (Imap.openBox sv folder false) = true ->
  Forall (fun m' => truthyOpt (raw m') = true
                    /\ Imap.append sv m' folder = None) pre ->
  truthyOpt (raw m) = false ->
  forEach (pre ++ m :: post) (Imap.uploadMessage sv folder) s
  = (Thrown noRawError,
     {| Imap.imap := Imap.imap s; Imap.config := Imap.config s;
        Imap.connected := Imap.connected s;
        Imap.trace :=
          Imap.trace s ++ flat_map (fun _ => uploadRequests folder) pre |}).
Proof.
  intros Himap Hopen Hpre Hm. revert s Himap.
  induction Hpre as [|x pre [Hx1 Hx2] _ IH]; intros s Himap.
  - cbn [app forEach flat_map]. unfold bind.
    rewrite imap_uploadMessage_noRaw by done. rewrite app_nil_r.
    by destruct s.
  - cbn [app forEach flat_map]. unfold bind.
    rewrite imap_uploadMessage_ok by done. rewrite IH by done.
    cbn [Imap.imap Imap.config Imap.connected Imap.trace].
    by rewrite <- app_assoc.
Qed.
End Uploads.

(** X17.  An IMAP upload stops at the first message without raw text: the
    messages before it are appended to the folder (when the server accepts
    them), the call fails with "Message must have raw content for upload",
    and the messages after it are not attempted.  What was appended stays
    appended. *)
Theorem imap_upload_stops_at_message_without_raw `{rt : Runtime.t}
    (sv : Imap.Server) (folder : str) (pre post : list EmailMessage)
    (m : EmailMessage) (s : Imap.t) :
  Imap.connected s = true ->
  is_Some (Imap.imap s) ->
  succeeded (Imap.openBox sv folder false) = true ->
  Forall (fun m' => truthyOpt (raw m') = true
                    /\ Imap.append sv m' folder = None) pre ->
  truthyOpt (raw m) = false ->
  Imap.uploadMessages sv folder (pre ++ m :: post) s
  = (Thrown noRawError,
     {| Imap.imap := Imap.imap s; Imap.config := Imap.config s;
        Imap.connected := Imap.connected s;
        Imap.trace :=
          Imap.trace s ++ flat_map (fun _ => uploadRequests folder) pre |}).
Proof.
  intros Hc Himap Hopen Hpre Hm. unfold Imap.uploadMessages.
  rewrite run_ensureConnected by done. by apply imap_upload_loop.
Qed.

(** X18.  A message fetched through JMAP has no raw text, so no provider
    can upload it: on a connected IMAP, Gmail or JMAP provider an upload
    that starts with such a message fails with "Message must have raw
    content for upload" before anything is sent, and leaves the provider as
    it was. *)
Theorem jmap_message_cannot_be_uploaded `{rt : Runtime.t}
    (cache : gmap (list N) Jmap.JmapMailbox) (email : Jmap.JmapEmail)
    (from_ : str) (rest : list EmailMessage) (to_ : str) :
  let m := Jmap.convertJmapEmail cache email from_ in
  (forall (sv : Imap.Server) (s : Imap.t),
      Imap.connected s = true ->
      Imap.uploadMessages sv to_ (m :: rest) s = (Thrown noRawError, s))
  /\ (forall (api : Gmail.Api) (s : Gmail.t),
      Gmail.connected s = true ->
      Gmail.uploadMessages api to_ (m :: rest) s = (Thrown noRawError, s))
  /\ (forall (sv : Jmap.Server) (s : Jmap.t),
      Jmap.connected s = true ->
      Jmap.uploadMessages sv to_ (m :: rest) s = (Thrown noRawError, s)).
Proof.
  intros m. repeat split; intros sv s Hc.
  - unfold Imap.uploadMessages. by rewrite run_ensureConnected.
  - unfold Gmail.uploadMessages. by rewrite run_ensureConnected.
  - unfold Jmap.uploadMessages. by rewrite run_ensureConnected.
Qed.


(** ** Gmail: fetching a folder *)

Section GmailFetch.
Context `{rt : Runtime.t}.

Lemma gmail_getMessage_run api folder id s :
  Gmail.connected s = true -> Gmail.gmail s = true ->
  Gmail.getMessage api folder id s
  = (match Gmail.messagesGet api id with
     | Returned message => Returned (Gmail.parseGmailMessage message)
     | Thrown e =>
         Thrown (newError (lit "Failed to fetch message " ++ id ++ lit ": "
                             ++ errorToString e))
     end, s).
Proof.
  intros Hc Hg. unfold Gmail.getMessage. rewrite run_ensureConnected by done.
  unfold Gmail.wrap, tryCatch, bind, Gmail.client, lift, ret, throw.
  rewrite Hg. destruct (Gmail.messagesGet api id); [done|].
  by rewrite <- !app_assoc.
Qed.

Lemma gmail_fetchEach_run api folder ids messages s :
  Gmail.connected s = true -> Gmail.gmail s = true ->
  Gmail.fetchEach api folder ids messages s
  = (Returned (messages ++ flat_map (gmailFetched api) ids), s).
Proof.
  intros Hc Hg. revert messages.
  induction ids as [|oid ids IH]; intros messages.
  - cbn. by rewrite app_nil_r.
  - cbn [Gmail.fetchEach flat_map]. unfold gmailFetched at 1.
    destruct (truthyOpt oid); cbn [negb app]; [|apply IH].
    unfold bind at 1, tryCatch, bind at 1.
    rewrite gmail_getMessage_run by done.
    destruct (Gmail.messagesGet api (default [] oid)); unfold ret;
      rewrite IH; [by rewrite <- app_assoc|done].
Qed.
End GmailFetch.

(** X19.  Fetching a Gmail folder on a connected provider, once the list
    of ids is there: the call returns (it does not fail), with the parsed
    messages of the ids that are present and can be fetched, in the order
    listed; an id that cannot be fetched is left out.  At most the limit
    is asked for, and 500 when the limit is not positive; the provider
    itself is unchanged. *)
Theorem gmail_getMessages_skips_unfetchable `{rt : Runtime.t}
    (api : Gmail.Api) (folder : str) (limit : Z) (s : Gmail.t)
    (listed : option (list (option str))) :
  Gmail.connected s = true ->
  Gmail.gmail s = true ->
  Gmail.messagesList api folder (if (0 <? limit)%Z then limit else 500%Z)
    = Returned listed ->
  Gmail.getMessages api folder limit s
  = (Returned (flat_map (gmailFetched api) (default [] listed)), s).
Proof.
  intros Hc Hg Hl. unfold Gmail.getMessages.
  rewrite run_ensureConnected by done.
  unfold Gmail.wrap, tryCatch, bind at 1, Gmail.client. rewrite Hg.
  unfold bind at 1, lift. rewrite Hl.
  by rewrite gmail_fetchEach_run.
Qed.

(** ** Gmail: the base64url text of an upload *)

Lemma dropPadding_spec s :
  exists pad, s = pad ++ Gmail.dropPadding s
              /\ Forall (fun c => c = 61) pad
              /\ match Gmail.dropPadding s with
                 | c :: _ => c <> 61
                 | [] => True
                 end.
Proof.
  induction s as [|c s (pad & IH1 & IH2 & IH3)]; [by exists []|].
  cbn [Gmail.dropPadding]. destruct (N.eqb_spec c 61) as [->|Hc].
  - exists (61 :: pad). split; [by rewrite IH1 at 1|]. split; [|done].
    by constructor.
  - by exists [].
Qed.

(** X20.  The base64url text made for a Gmail upload is the base64 text
    with "+" turned into "-" and "/" into "_", cut before its trailing "="
    signs: what is cut off holds "=" only, and what is kept does not end
    with "=" and holds no "+" and no "/". *)
Theorem base64url_alphabet (b64 : str) :
  (exists padding,
      List.map urlSafe b64 = Gmail.base64url b64 ++ padding
      /\ Forall (fun c => c = 61) padding)
  /\ (43 ∉ Gmail.base64url b64) /\ (47 ∉ Gmail.base64url b64)
  /\ last (Gmail.base64url b64) <> Some 61.
Proof.
  unfold Gmail.base64url.
  change (fun c : N => if c =? 43 then 45 else if c =? 47 then 95 else c)
    with urlSafe.
  set (sw := List.map urlSafe b64).
  destruct (dropPadding_spec (rev sw)) as (pad & E & Hpad & Hhead).
  assert (sw = rev (Gmail.dropPadding (rev sw)) ++ rev pad) as Esw.
  { rewrite <- rev_app_distr, <- E. by rewrite rev_involutive. }
  assert (forall c, c ∈ sw -> c <> 43 /\ c <> 47) as Hsw.
  { intros c Hc. subst sw. apply list_elem_of_In, in_map_iff in Hc
      as (x & <- & _). unfold urlSafe. n_cases. }
  split; [|split; [|split]].
  - exists (rev pad). split; [done|]. by apply Forall_rev.
  - intros H. assert (43 ∈ sw) as H'
      by (rewrite Esw; apply elem_of_app; by left).
    by destruct (Hsw _ H') as [? _].
  - intros H. assert (47 ∈ sw) as H'
      by (rewrite Esw; apply elem_of_app; by left).
    by destruct (Hsw _ H') as [_ ?].
  - destruct (Gmail.dropPadding (rev sw)) as [|c t] eqn:Ed; [done|].
    cbn [rev]. rewrite last_snoc. congruence.
Qed.


(** ** IMAP: counting messages *)

Section ImapCount.
Context `{rt : Runtime.t}.

Lemma imap_getFolderMessageCount_run sv folder total s :
  Imap.connected s = true -> is_Some (Imap.imap s) ->
  Imap.openBox sv folder true = Returned total ->
  Imap.getFolderMessageCount sv folder s
  = (Returned total,
     {| Imap.imap := Imap.imap s; Imap.config := Imap.config s;
        Imap.connected := Imap.connected s;
        Imap.trace := Imap.trace s ++ [Imap.ReqOpenBox folder true] |}).
Proof.
  intros Hc Hi Ho. unfold Imap.getFolderMessageCount.
  rewrite run_ensureConnected by done. rewrite run_imap_client by done.
  rewrite run_imap_request. unfold lift. by rewrite Ho.
Qed.

Lemma parseBox_top name box : f_path (Imap.parseBox [] name box) = name.
Proof. by destruct box. Qed.

Lemma imap_countFolders_run sv (count : str -> Z) boxes total s :
  Imap.connected s = true -> is_Some (Imap.imap s) ->
  (forall nb, nb ∈ boxes ->
              Imap.openBox sv (fst nb) true = Returned (count (fst nb))) ->
  Imap.countFolders sv (Imap.parseBoxes boxes) total s
  = (Returned (total + foldr Z.add 0 (List.map (fun nb => count (fst nb)) boxes))%Z,
     {| Imap.imap := Imap.imap s; Imap.config := Imap.config s;
        Imap.connected := Imap.connected s;
        Imap.trace :=
          Imap.trace s
            ++ List.map (fun nb => Imap.ReqOpenBox (fst nb) true) boxes |}).
Proof.
  intros Hc Hi Ho. revert total s Hc Hi.
  induction boxes as [|[name box] boxes IH]; intros total s Hc Hi.
  - cbn. rewrite Z.add_0_r, app_nil_r. by destruct s.
  - cbn [Imap.parseBoxes List.map Imap.countFolders fst snd foldr].
    rewrite parseBox_top. unfold bind.
    rewrite (imap_getFolderMessageCount_run sv name (count name)); try done.
    + fold (Imap.parseBoxes boxes). rewrite IH; try done.
      * cbn [Imap.imap Imap.config Imap.connected Imap.trace].
        rewrite <- app_assoc. f_equal. f_equal. lia.
      * intros nb Hnb. apply Ho. by apply elem_of_cons; right.
    + apply (Ho (name, box)). by apply elem_of_cons; left.
Qed.
End ImapCount.

(** X21.  The total count of an IMAP account is the sum over the top-level
    folders only: after the folder list, one mailbox is opened per
    top-level folder, by its name, and the totals are added up; the
    folders below the top level are not opened and their messages are not
    counted. *)
Theorem imap_total_counts_top_level_only `{rt : Runtime.t}
    (sv : Imap.Server) (s : Imap.t) (boxes : list (str * Imap.Box))
    (count : str -> Z) :
  Imap.connected s = true ->
  is_Some (Imap.imap s) ->
  Imap.getBoxes sv = Returned boxes ->
  (forall nb, nb ∈ boxes ->
              Imap.openBox sv (fst nb) true = Returned (count (fst nb))) ->
  Imap.getTotalMessageCount sv s
  = (Returned (Int (foldr Z.add 0%Z
                      (List.map (fun nb => count (fst nb)) boxes))),
     {| Imap.imap := Imap.imap s; Imap.config := Imap.config s;
        Imap.connected := Imap.connected s;
        Imap.trace :=
          Imap.trace s
            ++ Imap.ReqGetBoxes
            :: List.map (fun nb => Imap.ReqOpenBox (fst nb) true) boxes |}).
Proof.
  intros Hc Hi Hb Ho. unfold Imap.getTotalMessageCount, Imap.getFolders.
  unfold bind at 1. rewrite run_ensureConnected by done.
  rewrite run_imap_client by done. rewrite run_imap_request.
  rewrite Hb, run_lift_returned. unfold ret at 1. unfold bind at 1.
  rewrite (imap_countFolders_run sv count); try done.
  cbn [Imap.imap Imap.config Imap.connected Imap.trace].
  unfold ret. rewrite <- app_assoc. done.
Qed.

(** ** JMAP: the mailbox cache *)

Section JmapCache.
Context `{rt : Runtime.t}.

Lemma jmap_cache_loop (mailboxes : list Jmap.JmapMailbox) s :
  forEach mailboxes
    (fun mailbox =>
       modify (fun s =>
         Jmap.setMailboxCache
           (<[Jmap.mb_id mailbox := mailbox]> (Jmap.mailboxCache s)) s)) s
  = (Returned tt,
     Jmap.setMailboxCache
       (foldl (fun c mb => <[Jmap.mb_id mb := mb]> c) (Jmap.mailboxCache s)
          mailboxes) s).
Proof.
  revert s. induction mailboxes as [|mb mbs IH]; intros s.
  - cbn. by destruct s.
  - cbn [forEach foldl]. unfold bind, modify at 1. rewrite IH.
    by destruct s.
Qed.

Lemma foldl_insert_other (mbs : list Jmap.JmapMailbox)
    (c : gmap (list N) Jmap.JmapMailbox) id :
  Forall (fun mb => Jmap.mb_id mb <> id) mbs ->
  foldl (fun c mb => <[Jmap.mb_id mb := mb]> c) c mbs !! id = c !! id.
Proof.
  intros H. revert c. induction H as [|mb mbs Hmb _ IH]; intros c; [done|].
  cbn [foldl]. by rewrite IH, lookup_insert_ne.
Qed.

Lemma foldl_insert_last (pre post : list Jmap.JmapMailbox)
    (mb : Jmap.JmapMailbox) (c : gmap (list N) Jmap.JmapMailbox) :
  Forall (fun mb' => Jmap.mb_id mb' <> Jmap.mb_id mb) post ->
  foldl (fun c mb => <[Jmap.mb_id mb := mb]> c) c (pre ++ mb :: post)
    !! Jmap.mb_id mb = Some mb.
Proof.
  intros H. rewrite foldl_app. cbn [foldl].
  by rewrite foldl_insert_other, lookup_insert_eq.
Qed.
End JmapCache.

(** X22.  Listing the JMAP folders rebuilds the mailbox cache from the
    answer: what was cached before is dropped, every listed mailbox is
    found under its id (the last one, when an id is listed more than
    once), and an id that is not listed is not found. *)
Theorem jmap_getFolders_rebuilds_cache `{rt : Runtime.t}
    (sv : Jmap.Server) (s : Jmap.t) (sess : Jmap.JmapSession)
    (response : Jmap.HttpResponse (list (str * Jmap.Result)))
    (name : str) (result : Jmap.Result) (others : list (str * Jmap.Result))
    (mailboxes : list Jmap.JmapMailbox) :
  Jmap.connected s = true ->
  Jmap.session s = Some sess ->
  Jmap.post sv Jmap.MailboxGet = Returned response ->
  Jmap.ok response = true ->
  Jmap.json response = Returned ((name, result) :: others) ->
  Jmap.r_mailboxes result = Some mailboxes ->
  let r := Jmap.getFolders sv s in
  fst r = Returned (Jmap.convertMailboxesToFolders sv mailboxes)
  /\ (forall pre mb post,
        mailboxes = pre ++ mb :: post ->
        Forall (fun mb' => Jmap.mb_id mb' <> Jmap.mb_id mb) post ->
        Jmap.mailboxCache (snd r) !! Jmap.mb_id mb = Some mb)
  /\ (forall id,
        Forall (fun mb => Jmap.mb_id mb <> id) mailboxes ->
        Jmap.mailboxCache (snd r) !! id = None).
Proof.
  intros Hc Hs Hp Hok Hj Hm r.
  assert (r = (Returned (Jmap.convertMailboxesToFolders sv mailboxes),
               Jmap.setMailboxCache
                 (foldl (fun c mb => <[Jmap.mb_id mb := mb]> c) ∅ mailboxes)
                 s)) as ->.
  { subst r. unfold Jmap.getFolders. rewrite run_ensureConnected by done.
    unfold bind at 1, Jmap.makeRequest. rewrite run_ensureConnected by done.
    unfold bind at 1, gets. rewrite Hs. unfold bind at 1, lift. rewrite Hp.
    rewrite Hok. cbn [negb]. unfold bind at 1. rewrite Hj. unfold ret at 1.
    cbn [snd]. rewrite Hm. cbn [default]. unfold bind at 1, modify at 1.
    unfold bind at 1. rewrite jmap_cache_loop. unfold ret.
    by destruct s. }
  cbn [fst snd Jmap.setMailboxCache Jmap.mailboxCache].
  split; [done|]. split.
  - intros pre mb post -> Hpost. by apply foldl_insert_last.
  - intros id Hid. by rewrite foldl_insert_other.
Qed.


(** ** The command line *)

Lemma split_nosep sep s : sep ∉ s -> split sep s = [s].
Proof.
  induction s as [|c s IH]; [done|]. intros H. cbn [split].
  destruct (N.eqb_spec c sep) as [->|Hc].
  - exfalso. apply H. by left.
  - rewrite IH; [done|]. intros Hin. apply H. by right.
Qed.

Lemma split_app_sep sep a b :
  split sep (a ++ sep :: b) = split sep a ++ split sep b.
Proof.
  induction a as [|c a IH].
  - cbn [app split]. by rewrite N.eqb_refl.
  - cbn [app split]. rewrite IH. destruct (c =? sep); [done|].
    destruct (split sep a) as [|l ls] eqn:E; [by destruct (split_nonempty sep a)|].
    done.
Qed.

Lemma join_split_sep sep s : join [sep] (split sep s) = s.
Proof.
  induction s as [|c s IH]; [done|]. cbn [split].
  destruct (split sep s) as [|l ls] eqn:E; [by destruct (split_nonempty sep s)|].
  destruct (N.eqb_spec c sep) as [->|Hc].
  - change (join [sep] ([] :: l :: ls))
      with ([] ++ [sep] ++ join [sep] (l :: ls)).
    cbn [app]. by rewrite IH.
  - destruct ls as [|l2 ls].
    + cbn [join] in *. by rewrite IH.
    + change (join [sep] ((c :: l) :: l2 :: ls))
        with ((c :: l) ++ [sep] ++ join [sep] (l2 :: ls)).
      change (join [sep] (l :: l2 :: ls))
        with (l ++ [sep] ++ join [sep] (l2 :: ls)) in IH.
      cbn [app] in *. by rewrite IH.
Qed.

Lemma startsWith_dashes arg :
  startsWith (lit "-") arg = false -> startsWith (lit "--") arg = false.
Proof.
  eval_lits. destruct arg as [|c arg]; [done|]. cbn [startsWith].
  by destruct (c =? 45).
Qed.

Section CommandLine.
Context (P : Cli.Prototypes).

Lemma parseLoop_commands args parsed :
  Forall plainArg args ->
  Cli.parseLoop P args parsed
  = {| Cli.command := Cli.command parsed ++ args;
       Cli.options := Cli.options parsed;
       Cli.flags := Cli.flags parsed |}.
Proof.
  intros H. revert parsed. induction H as [|arg args [Ha Hd] _ IH]; intros parsed.
  - cbn. rewrite app_nil_r. by destruct parsed.
  - cbn [Cli.parseLoop].
    assert (truthy arg = true) as -> by (by destruct arg).
    rewrite (startsWith_dashes arg Hd), Hd. cbn [negb andb].
    rewrite IH. unfold Cli.pushCommand. cbn [Cli.command Cli.options Cli.flags].
    by rewrite <- app_assoc.
Qed.

(** An argument that starts with "-" is read in the state the arguments
    before it leave, whatever they are. *)
Lemma parseLoop_snoc_le n pre arg parsed :
  (length pre <= n)%nat ->
  startsWith (lit "-") arg = true ->
  Cli.parseLoop P (pre ++ [arg]) parsed
  = Cli.parseLoop P [arg] (Cli.parseLoop P pre parsed).
Proof.
  intros Hn Harg. set (final := Cli.parseLoop P [arg]).
  assert (forall p, Cli.parseLoop P [arg] p = final p) as Hfinal by done.
  clearbody final. revert pre parsed Hn.
  induction n as [|n IH]; intros pre parsed Hn.
  { destruct pre; [by rewrite <- Hfinal|cbn in Hn; lia]. }
  destruct pre as [|a rest]; [by rewrite <- Hfinal|]. cbn [length] in Hn.
  cbn [app Cli.parseLoop].
  destruct (negb (truthy a)); [apply IH; lia|].
  destruct (startsWith (lit "--") a && bool_decide (61 ∈ a)).
  { destruct (split 61 (drop 2 a)) as [|key valueParts]; [apply IH; lia|].
    destruct (truthy key); apply IH; lia. }
  destruct (startsWith (lit "--") a).
  { destruct rest as [|nextArg rest'].
    - cbn [app]. rewrite Harg, andb_false_r. apply Hfinal.
    - cbn [app].
      destruct (truthy nextArg && negb (startsWith (lit "-") nextArg)).
      + apply IH. cbn [length] in Hn. lia.
      + apply (IH (nextArg :: rest')). lia. }
  destruct (startsWith (lit "-") a && (1 <? length a)%nat
            && negb false); apply IH; lia.
Qed.

Lemma parseLoop_snoc pre arg parsed :
  startsWith (lit "-") arg = true ->
  Cli.parseLoop P (pre ++ [arg]) parsed
  = Cli.parseLoop P [arg] (Cli.parseLoop P pre parsed).
Proof. by apply (parseLoop_snoc_le (length pre)). Qed.

Lemma get_set_fresh o key v :
  key <> Cli.protoName -> Cli.get P (Cli.set o key v) key = Some v.
Proof.
  intros Hk. unfold Cli.set, Cli.get. rewrite bool_decide_false by done.
  cbn [Cli.own]. by rewrite lookup_insert_eq.
Qed.
End CommandLine.

(** X23.  Arguments none of which is empty or starts with "-" are all
    commands: the parser returns them, in order, with no option and no
    flag. *)
Theorem parseArgs_commands (P : Cli.Prototypes) (args : list str) :
  Forall plainArg args ->
  Cli.parseArgs P args
  = {| Cli.command := args; Cli.options := noOptions; Cli.flags := ∅ |}.
Proof.
  intros H. unfold Cli.parseArgs. by rewrite parseLoop_commands.
Qed.

(** X24.  A last argument of the form --name=value sets the option: for a
    name that is not empty, holds no "=" and is not "__proto__", whatever
    the arguments before are, getOption gives the value, which is all of
    the text after the first "=" (it may be empty or hold "=" itself). *)
Theorem last_long_option_gives_its_value (P : Cli.Prototypes)
    (pre : list str) (key val : str) (defaultValue : option str) :
  key <> [] -> (61 ∉ key) -> key <> Cli.protoName ->
  Cli.getOption P
    (Cli.parseArgs P (pre ++ [lit "--" ++ key ++ lit "=" ++ val]))
    key defaultValue
  = Some (Cli.VStr val).
Proof.
  intros Hk He Hp. unfold Cli.parseArgs.
  rewrite parseLoop_snoc by (by eval_lits).
  set (parsed := Cli.parseLoop P pre _).
  cbn [Cli.parseLoop].
  assert (startsWith (lit "--") (lit "--" ++ key ++ lit "=" ++ val) = true)
    as -> by apply startsWith_refl_app.
  assert (truthy (lit "--" ++ key ++ lit "=" ++ val) = true) as ->
    by (by eval_lits).
  rewrite bool_decide_true.
  2:{ rewrite !elem_of_app. right. right. left. eval_lits. by left. }
  cbn [negb andb].
  assert (drop 2 (lit "--" ++ key ++ lit "=" ++ val) = key ++ 61 :: val) as ->
    by (by eval_lits).
  rewrite split_app_sep, split_nosep by done. cbn [app].
  assert (truthy key = true) as -> by (by destruct key).
  rewrite join_split_sep. unfold Cli.getOption, Cli.setOption, Cli.withOptions.
  cbn [Cli.options]. by rewrite get_set_fresh.
Qed.


Section CommandLineOptions.
Context (P : Cli.Prototypes).

Lemma parseLoop_values_array key vs c o fl l :
  key <> Cli.protoName -> (61 ∉ key) ->
  Forall plainArg vs ->
  Cli.own o !! key = Some (Cli.VArr l) ->
  Cli.parseLoop P (flat_map (fun x => [lit "--" ++ key; x]) vs)
    {| Cli.command := c; Cli.options := o; Cli.flags := fl |}
  = {| Cli.command := c;
       Cli.options :=
         {| Cli.own :=
              <[key := Cli.VArr (l ++ List.map Cli.VStr vs)]> (Cli.own o);
            Cli.chain := Cli.chain o |};
       Cli.flags := fl |}.
Proof.
  intros Hp He Hvs. revert o l.
  induction Hvs as [|x vs [Hx Hd] _ IH]; intros o l Ho.
  - cbn [flat_map Cli.parseLoop List.map]. rewrite app_nil_r.
    rewrite insert_id by done. by destruct o.
  - cbn [flat_map app Cli.parseLoop].
    assert (truthy (lit "--" ++ key) = true) as -> by (by eval_lits).
    rewrite startsWith_refl_app.
    rewrite (bool_decide_false (61 ∈ lit "--" ++ key)).
    2:{ rewrite elem_of_app. intros [H|H]; [|done]. revert H. eval_lits.
        rewrite !elem_of_cons, elem_of_nil. intuition discriminate. }
    assert (truthy x = true) as -> by (by destruct x).
    rewrite Hd. cbn [negb andb].
    assert (drop 2 (lit "--" ++ key) = key) as -> by (by eval_lits).
    unfold Cli.addValue, Cli.withOptions. cbn [Cli.options Cli.command Cli.flags].
    unfold Cli.get at 1. rewrite Ho. cbn [Cli.truthyValue].
    unfold Cli.push. rewrite Ho.
    rewrite (IH _ (l ++ [Cli.VStr x])).
    + cbn [Cli.own Cli.chain List.map]. rewrite insert_insert_eq.
      by rewrite <- app_assoc.
    + cbn [Cli.own]. by rewrite lookup_insert_eq.
Qed.

Lemma fold_setFlag_flags (cs : str) parsed :
  Cli.flags (fold_left (fun p flag => Cli.setFlag [flag] p) cs parsed)
  = list_to_set (List.map (fun c => [c]) cs) ∪ Cli.flags parsed.
Proof.
  revert parsed. induction cs as [|c cs IH]; intros parsed.
  - cbn. set_solver.
  - cbn [fold_left List.map list_to_set]. rewrite IH.
    unfold Cli.setFlag at 1. cbn [Cli.flags]. set_solver.
Qed.
End CommandLineOptions.

(** X25.  An option given several times with a value collects the values:
    for a name that the options object does not inherit and that holds no
    "=", and values that are not empty and do not start with "-", the
    arguments --name v1 --name v2 ... leave no command and no flag,
    getArrayOption gives the values in order, and getOption the first. *)
Theorem repeated_option_collects_values (P : Cli.Prototypes)
    (key v : str) (vs : list str) (defaultValue : option str) :
  freshName P key -> (61 ∉ key) -> Forall plainArg (v :: vs) ->
  let parsed :=
    Cli.parseArgs P (flat_map (fun x => [lit "--" ++ key; x]) (v :: vs)) in
  Cli.getArrayOption P parsed key = List.map Cli.VStr (v :: vs)
  /\ Cli.getOption P parsed key defaultValue = Some (Cli.VStr v)
  /\ Cli.command parsed = []
  /\ Cli.hasFlag P parsed key = false.
Proof.
  intros [Hp Ho] He Hvs parsed. inversion Hvs as [|? ? [Hv Hd] Hrest]; subst.
  assert (parsed
          = Cli.parseLoop P (flat_map (fun x => [lit "--" ++ key; x]) vs)
              {| Cli.command := [];
                 Cli.options :=
                   {| Cli.own := <[key := Cli.VStr v]> ∅;
                      Cli.chain := Cli.ObjectProto |};
                 Cli.flags := ∅ |}) as Hparsed.
  { subst parsed. unfold Cli.parseArgs. cbn [flat_map app Cli.parseLoop].
    assert (truthy (lit "--" ++ key) = true) as -> by (by eval_lits).
    rewrite startsWith_refl_app.
    rewrite (bool_decide_false (61 ∈ lit "--" ++ key)).
    2:{ rewrite elem_of_app. intros [H|H]; [|done]. revert H. eval_lits.
        rewrite !elem_of_cons, elem_of_nil. intuition discriminate. }
    assert (truthy v = true) as -> by (by destruct v).
    rewrite Hd. cbn [negb andb].
    assert (drop 2 (lit "--" ++ key) = key) as -> by (by eval_lits).
    unfold Cli.addValue, Cli.withOptions, Cli.get.
    cbn [Cli.options Cli.own Cli.chain Cli.command Cli.flags].
    rewrite lookup_empty, bool_decide_false, Ho by done.
    unfold Cli.set. by rewrite bool_decide_false. }
  destruct Hrest as [|x vs [Hx Hxd] Hvs'].
  - cbn [flat_map Cli.parseLoop] in Hparsed. rewrite Hparsed.
    unfold Cli.getArrayOption, Cli.getOption, Cli.hasFlag, Cli.get.
    cbn [Cli.options Cli.own Cli.flags Cli.command].
    rewrite lookup_insert_eq. by repeat split.
  - assert (parsed
            = {| Cli.command := [];
                 Cli.options :=
                   {| Cli.own :=
                        <[key := Cli.VArr ([Cli.VStr v; Cli.VStr x]
                                             ++ List.map Cli.VStr vs)]>
                          (<[key := Cli.VArr [Cli.VStr v; Cli.VStr x]]>
                             (<[key := Cli.VStr v]> ∅));
                      Cli.chain := Cli.ObjectProto |};
                 Cli.flags := ∅ |}) as ->.
    { rewrite Hparsed. cbn [flat_map app Cli.parseLoop].
      assert (truthy (lit "--" ++ key) = true) as -> by (by eval_lits).
      rewrite startsWith_refl_app.
      rewrite (bool_decide_false (61 ∈ lit "--" ++ key)).
      2:{ rewrite elem_of_app. intros [H|H]; [|done]. revert H. eval_lits.
          rewrite !elem_of_cons, elem_of_nil. intuition discriminate. }
      assert (truthy x = true) as -> by (by destruct x).
      rewrite Hxd. cbn [negb andb].
      assert (drop 2 (lit "--" ++ key) = key) as -> by (by eval_lits).
      unfold Cli.addValue, Cli.withOptions, Cli.get.
      cbn [Cli.options Cli.own Cli.chain Cli.command Cli.flags].
      rewrite lookup_insert_eq. cbn [Cli.truthyValue].
      assert (truthy v = true) as -> by (by destruct v).
      unfold Cli.set at 1. rewrite bool_decide_false by done.
      cbn [Cli.own Cli.chain].
      rewrite (parseLoop_values_array P key vs [] _ ∅ [Cli.VStr v; Cli.VStr x]);
        try done.
      cbn [Cli.own]. by rewrite lookup_insert_eq. }
    unfold Cli.getArrayOption, Cli.getOption, Cli.hasFlag, Cli.get.
    cbn [Cli.options Cli.own Cli.flags Cli.command].
    rewrite lookup_insert_eq. by repeat split.
Qed.

(** X26.  Flags at the end of the command line, whatever the arguments
    before are: after a last argument -abc (one "-", then at least one
    code unit, the first not "-") hasFlag holds for each of its code
    units, and after a last argument --name (without "=") hasFlag holds
    for the name. *)
Theorem last_flags_are_set (P : Cli.Prototypes) (pre : list str)
    (cs key : str) (c : N) :
  cs <> [] -> head cs <> Some 45 -> c ∈ cs -> (61 ∉ key) ->
  Cli.hasFlag P (Cli.parseArgs P (pre ++ [45 :: cs])) [c] = true
  /\ Cli.hasFlag P (Cli.parseArgs P (pre ++ [lit "--" ++ key])) key = true.
Proof.
  intros Hcs Hhead Hc He. split.
  - unfold Cli.parseArgs.
    rewrite parseLoop_snoc by (by eval_lits).
    set (parsed := Cli.parseLoop P pre _).
    destruct cs as [|c0 cs]; [done|].
    assert (c0 <> 45) as Hc0 by (by intros ->).
    cbn [Cli.parseLoop truthy negb]. eval_lits.
    cbn [startsWith length Nat.ltb Nat.leb drop].
    rewrite N.eqb_refl. apply N.eqb_neq in Hc0. rewrite Hc0.
    cbn [andb negb]. unfold Cli.hasFlag.
    rewrite fold_setFlag_flags.
    rewrite bool_decide_true; [done|].
    apply elem_of_union. left. apply elem_of_list_to_set.
    apply list_elem_of_In, in_map_iff. exists c. split; [done|].
    by apply list_elem_of_In.
  - unfold Cli.parseArgs.
    rewrite parseLoop_snoc by (by eval_lits).
    set (parsed := Cli.parseLoop P pre _).
    cbn [Cli.parseLoop].
    assert (truthy (lit "--" ++ key) = true) as -> by (by eval_lits).
    rewrite startsWith_refl_app.
    rewrite (bool_decide_false (61 ∈ lit "--" ++ key)).
    2:{ rewrite elem_of_app. intros [H|H]; [|done]. revert H. eval_lits.
        rewrite !elem_of_cons, elem_of_nil. intuition discriminate. }
    cbn [negb andb].
    assert (drop 2 (lit "--" ++ key) = key) as -> by (by eval_lits).
    unfold Cli.hasFlag, Cli.setFlag. cbn [Cli.flags].
    rewrite bool_decide_true; [done|set_solver].
Qed.

(** ** JMAP labels and the mailbox cache *)

Section JmapLabels.
Context `{rt : Runtime.t}.

Lemma jmap_connect_cache sv s :
  Jmap.mailboxCache (snd (Jmap.connect sv s)) = Jmap.mailboxCache s.
Proof.
  unfold Jmap.connect. cbv [tryCatch bind ret throw lift modify gets].
  destruct (Jmap.fetchSession sv) as [response|e]; [|done].
  destruct (negb (Jmap.ok response)); [done|].
  destruct (Jmap.json response) as [sess|e]; [|done].
  destruct (Jmap.primaryAccounts sess) as [accounts|]; [|done].
  destruct (get Jmap.mailCapability accounts) as [accountId|]; [|done].
  by destruct (truthy accountId).
Qed.

Lemma jmap_makeRequest_state sv c s : snd (Jmap.makeRequest sv c s) = s.
Proof.
  unfold Jmap.makeRequest.
  destruct (Jmap.connected s) eqn:Hc;
    [|by unfold bind at 1, ensureConnected; rewrite Hc].
  rewrite run_ensureConnected by done. cbv [bind ret throw lift gets].
  destruct (Jmap.session s); [|done].
  destruct (Jmap.post sv c) as [response|e]; [|done].
  destruct (negb (Jmap.ok response)); [done|].
  destruct (Jmap.json response) as [[|first rest]|e]; done.
Qed.

Lemma jmap_getMessages_returned sv folder limit s ms :
  fst (Jmap.getMessages sv folder limit s) = Returned ms ->
  exists emails,
    ms = List.map
           (fun email => Jmap.convertJmapEmail (Jmap.mailboxCache s) email folder)
           emails.
Proof.
  unfold Jmap.getMessages.
  destruct (Jmap.connected s) eqn:Hc;
    [|by unfold bind at 1, ensureConnected; rewrite Hc].
  rewrite run_ensureConnected by done. unfold bind at 1.
  pose proof (jmap_makeRequest_state sv
                (Jmap.EmailQuery folder
                   (if (0 <? limit)%Z then Some limit else None)) s) as Hq.
  destruct (Jmap.makeRequest sv _ s) as [[q|e] s1]; [|done].
  cbn [snd] in Hq. subst s1.
  destruct (default [] (Jmap.r_ids (snd q))) as [|i ids].
  { intros [= <-]. by exists []. }
  unfold bind at 1.
  pose proof (jmap_makeRequest_state sv (Jmap.EmailGet (i :: ids)) s) as Hg.
  destruct (Jmap.makeRequest sv _ s) as [[g|e] s1]; [|done].
  cbn [snd] in Hg. subst s1.
  unfold Jmap.convertAll, bind, gets, ret. cbn [fst].
  intros [= <-]. by eexists.
Qed.

Lemma jmap_getMessage_returned sv folder id s m :
  fst (Jmap.getMessage sv folder id s) = Returned m ->
  exists email,
    m = Jmap.convertJmapEmail (Jmap.mailboxCache s) email folder.
Proof.
  unfold Jmap.getMessage.
  destruct (Jmap.connected s) eqn:Hc;
    [|by unfold bind at 1, ensureConnected; rewrite Hc].
  rewrite run_ensureConnected by done. unfold bind at 1.
  pose proof (jmap_makeRequest_state sv (Jmap.EmailGet [id]) s) as Hg.
  destruct (Jmap.makeRequest sv _ s) as [[g|e] s1]; [|done].
  cbn [snd] in Hg. subst s1.
  destruct (default [] (Jmap.r_emails (snd g))) as [|email rest]; [done|].
  unfold Jmap.convertAll, bind, gets, ret. cbn [fst List.map].
  intros [= <-]. by eexists.
Qed.

Lemma jmap_labels_empty_cache email folder :
  labels (Jmap.convertJmapEmail ∅ email folder) = Some [].
Proof.
  unfold Jmap.convertJmapEmail. cbn [labels].
  destruct (Jmap.e_mailboxIds email) as [ids|]; [|done].
  f_equal. induction ids as [|i ids IH]; [done|].
  cbn [List.map flat_map]. by rewrite lookup_empty, IH.
Qed.
End JmapLabels.

(** X27.  A JMAP provider knows mailbox names only from getFolders: on a
    new provider that has connected, every message that getMessages or
    getMessage returns has an empty list of labels, whatever mailboxes
    the server says the message is in; its folder is the one asked for. *)
Theorem jmap_no_labels_before_getFolders `{rt : Runtime.t}
    (sv1 sv2 : Jmap.Server) (folder id : str) (limit : Z)
    (ms : list EmailMessage) (m : EmailMessage) :
  let s := snd (Jmap.connect sv1 Jmap.create) in
  (fst (Jmap.getMessages sv2 folder limit s) = Returned ms ->
   Forall (fun m => labels m = Some [] /\ Types.folder m = Some folder) ms)
  /\ (fst (Jmap.getMessage sv2 folder id s) = Returned m ->
      labels m = Some [] /\ Types.folder m = Some folder).
Proof.
  intros s.
  assert (Jmap.mailboxCache s = ∅) as Hcache
    by (subst s; by rewrite jmap_connect_cache).
  split.
  - intros H. apply jmap_getMessages_returned in H as [emails ->].
    rewrite Hcache. apply List.Forall_map, Forall_forall. intros email _.
    split; [apply jmap_labels_empty_cache|done].
  - intros H. apply jmap_getMessage_returned in H as [email ->].
    rewrite Hcache. split; [apply jmap_labels_empty_cache|done].
Qed.


(** ** Empty answers of a JMAP server *)

Section JmapAnswers.
Context `{rt : Runtime.t}.

Lemma run_jmap_makeRequest {A} sv c (k : str * Jmap.Result -> M Jmap.t A)
    s sess response first others :
  Jmap.connected s = true ->
  Jmap.session s = Some sess ->
  Jmap.post sv c = Returned response ->
  Jmap.ok response = true ->
  Jmap.json response = Returned (first :: others) ->
  bind (Jmap.makeRequest sv c) k s = k first s.
Proof.
  intros Hc Hs Hp Hok Hj. unfold bind at 1, Jmap.makeRequest.
  rewrite run_ensureConnected by done.
  unfold bind at 1, gets. rewrite Hs. unfold bind at 1, lift. rewrite Hp.
  rewrite Hok. cbn [negb]. unfold bind at 1. rewrite Hj. by unfold ret at 1.
Qed.
End JmapAnswers.

(** X28.  What a connected JMAP provider does with empty answers.  When
    the query for a folder answers with no ids (or without an id list),
    getMessages returns the empty list, whatever the server would answer
    to a request for emails; when the answer to the request for one email
    has no email (or no list), getMessage fails with 'Email <id> not
    found'.  The provider is left as it was. *)
Theorem jmap_empty_answers `{rt : Runtime.t}
    (sv : Jmap.Server) (s : Jmap.t) (sess : Jmap.JmapSession)
    (folder id : str) (limit : Z)
    (response : Jmap.HttpResponse (list (str * Jmap.Result)))
    (name : str) (result : Jmap.Result) (others : list (str * Jmap.Result)) :
  Jmap.connected s = true ->
  Jmap.session s = Some sess ->
  Jmap.ok response = true ->
  Jmap.json response = Returned ((name, result) :: others) ->
  (Jmap.post sv
     (Jmap.EmailQuery folder (if (0 <? limit)%Z then Some limit else None))
   = Returned response ->
   default [] (Jmap.r_ids result) = [] ->
   Jmap.getMessages sv folder limit s = (Returned [], s))
  /\ (Jmap.post sv (Jmap.EmailGet [id]) = Returned response ->
      default [] (Jmap.r_emails result) = [] ->
      Jmap.getMessage sv folder id s
      = (Thrown (newError (lit "Email " ++ id ++ lit " not found")), s)).
Proof.
  intros Hc Hs Hok Hj. split; intros Hp He.
  - unfold Jmap.getMessages. rewrite run_ensureConnected by done.
    rewrite (run_jmap_makeRequest _ _ _ _ _ _ _ _ Hc Hs Hp Hok Hj).
    cbn [snd]. by rewrite He.
  - unfold Jmap.getMessage. rewrite run_ensureConnected by done.
    rewrite (run_jmap_makeRequest _ _ _ _ _ _ _ _ Hc Hs Hp Hok Hj).
    cbn [snd]. by rewrite He.
Qed.


(** ** Gmail address lists *)

Lemma trimStart_headOk s : headOk (trimStart s).
Proof.
  induction s as [|c s IH]; [done|]. cbn [trimStart].
  by destruct (isWhiteSpace c) eqn:E.
Qed.

Lemma trimStart_fixed s : headOk s -> trimStart s = s.
Proof. destruct s as [|c s]; [done|]. cbn. by intros ->. Qed.

Lemma trimStart_snoc s c :
  isWhiteSpace c = false -> exists s', trimStart (s ++ [c]) = s' ++ [c].
Proof.
  intros Hc. induction s as [|d s IH]; cbn [app trimStart].
  - rewrite Hc. by exists [].
  - destruct (isWhiteSpace d); [done|]. by exists (d :: s).
Qed.

Lemma trimEnd_headOk s : headOk s -> headOk (trimEnd s).
Proof.
  destruct s as [|c s]; [done|]. cbn [headOk]. intros Hc.
  unfold trimEnd. cbn [rev].
  destruct (trimStart_snoc (rev s) c Hc) as [s' ->].
  by rewrite rev_app_distr.
Qed.

Lemma trim_idemp s : trim (trim s) = trim s.
Proof.
  unfold trim.
  rewrite (trimStart_fixed (trimEnd (trimStart s)))
    by apply trimEnd_headOk, trimStart_headOk.
  unfold trimEnd. rewrite rev_involutive.
  by rewrite (trimStart_fixed (trimStart _)) by apply trimStart_headOk.
Qed.

Lemma split_join_sep sep (L : list str) :
  L <> [] -> Forall (fun x => sep ∉ x) L -> split sep (join [sep] L) = L.
Proof.
  intros HL H. induction H as [|x L Hx H IH]; [done|].
  destruct L as [|y L]; [by apply split_nosep|].
  change (join [sep] (x :: y :: L)) with (x ++ sep :: join [sep] (y :: L)).
  rewrite split_app_sep, IH by done. by rewrite split_nosep.
Qed.

Lemma gmail_matchAt_reAddress_needs_angle pv t y :
  matchAt Gmail.reAddress pv t = Some y -> 60 ∈ t.
Proof.
  intros H%matchAt_sound. unfold Gmail.reAddress in H.
  destruct H as (z1 & H1 & z2 & H2 & z3 & H3 & _).
  apply den_suffix in H1 as [a1 E1], H2 as [a2 E2].
  destruct H3 as (c & E3 & ->%N.eqb_eq & _).
  cbn [rest] in E1. rewrite E1, E2, E3.
  rewrite !elem_of_app. do 2 right. apply elem_of_cons. by left.
Qed.

Lemma gmail_exec_reAddress_bare addr :
  60 ∉ addr -> exec Gmail.reAddress addr = None.
Proof.
  intros Hno. unfold exec. apply search_None. intros pv t.
  destruct (matchAt Gmail.reAddress pv t) as [y|] eqn:E; [|by left].
  right. intros [a ->]. apply gmail_matchAt_reAddress_needs_angle in E.
  apply Hno. apply elem_of_app. by right.
Qed.

(** X29.  A Gmail address header that lists addresses without display
    names: for a comma-separated list of texts holding neither "," nor
    "<", GmailProvider's parseAddresses returns one address per text, in
    order, without a name, the address being the text with the white
    space around it removed; a text of white space only gives an entry
    with the empty address. *)
Theorem gmail_bare_address_list `{rt : Runtime.t} (addrs : list str) :
  join [44] addrs <> [] ->
  Forall (fun a => (44 ∉ a) /\ (60 ∉ a)) addrs ->
  Gmail.parseAddresses (join [44] addrs)
  = List.map (fun a => {| name := None; address := trim a |}) addrs.
Proof.
  intros Hne H. unfold Gmail.parseAddresses.
  destruct (join [44] addrs) as [|c rest] eqn:E; [done|]. cbn [truthy negb].
  rewrite <- E. rewrite split_join_sep.
  - apply map_ext_Forall. eapply Forall_impl; [exact H|].
    intros a [_ Ha]. cbn beta. rewrite gmail_exec_reAddress_bare by done.
    f_equal. rewrite trim_idemp. unfold orStr. by destruct (truthy (trim a)).
  - by intros ->.
  - eapply Forall_impl; [exact H|]. by intros a [Ha _].
Qed.


(* ================================================================== *)
(** * Part III: worked examples                                        *)
(* ================================================================== *)

Section Examples.
#[local] Existing Instance Sample.runtime.

(** Witness of C4: an IMAP instance that connected and disconnected. *)
Lemma C4_witness :
let s := snd (connect (Sample.imapServer None 2) (Imap.create Sample.imapConfig)) in
fst (call (Sample.imapServer None 2) CallGetFolders
       (snd (disconnect (Sample.imapServer None 2) s)))
  = Thrown notConnectedError.
Proof.
intros s.
apply (proj1 (C4_data_calls_rejected_when_disconnected (rt:=Sample.runtime))
         Sample.imapConfig s (Sample.imapServer None 2)
         (Sample.imapServer None 2) CallGetFolders).
apply reach_connect, reach_new.
Defined.

(** Witness of C5: the three tests against servers that accept. *)
Lemma C5_witness :
isConnected (snd (testConnection (Sample.imapServer None 2)
                    (Imap.create Sample.imapConfig))) = false
/\ isConnected (snd (testConnection (Sample.gmailApi (Returned (Some 2%Z)))
                       Gmail.create)) = true
/\ isConnected (snd (testConnection Sample.jmapUp Jmap.create)) = false.
Proof.
pose proof (C5_testConnection_reports_and_never_throws (rt:=Sample.runtime))
  as (Hi & Hg & Hj).
split; [|split].
- apply (Hi (Sample.imapServer None 2)). reflexivity.
- apply (Hg (Sample.gmailApi (Returned (Some 2%Z)))). reflexivity.
- apply (Hj Sample.jmapUp). reflexivity.
Defined.

(** Witness of C10: a refused IMAP connection. *)
Lemma C10_witness :
isConnected (snd (connect (Sample.imapServer (Some Sample.refused) 2)
                    (Imap.create Sample.imapConfig))) = false.
Proof.
apply (proj1 (C10_failed_connect_leaves_disconnected (rt:=Sample.runtime))
         (Sample.imapServer (Some Sample.refused) 2)
         (Imap.create Sample.imapConfig) Sample.refused).
reflexivity.
Defined.

Lemma C6_witness :
Imap.trace
  (snd (Imap.getMessages (Sample.imapServer None 10) (lit "INBOX") 3
          (snd (Imap.connect (Sample.imapServer None 10)
                  (Imap.create Sample.imapConfig)))))
= [Imap.ReqConnect; Imap.ReqOpenBox (lit "INBOX") true;
   Imap.ReqSeqFetch (lit "8:10")].
Proof.
apply (proj2 (C6_imap_fetch_range (rt:=Sample.runtime)
                (Sample.imapServer None 10)
                (snd (Imap.connect (Sample.imapServer None 10)
                        (Imap.create Sample.imapConfig)))
                (lit "INBOX") 3 10 eq_refl
                (ex_intro _ Sample.imapConfig eq_refl) eq_refl
                ltac:(lia))).
lia.
Defined.

Lemma C7_witness :
flags (Jmap.convertJmapEmail ∅
         (Spec.withKeywords
            (Some (<[lit "$forwarded" := false]>
                     (<[lit "$seen" := true]> (<[lit "$forwarded" := true]> ∅))))
            Sample.jmapEmail) (lit "INBOX"))
= flags (Jmap.convertJmapEmail ∅ Sample.jmapEmail (lit "INBOX")).
Proof.
apply (proj2 (C7_jmap_flags_from_keywords (rt:=Sample.runtime) ∅
                Sample.jmapEmail (lit "INBOX"))); [reflexivity|].
vm_compute. intros H.
repeat (apply elem_of_cons in H as [H|H]; [discriminate|]).
by apply elem_of_nil in H.
Defined.


Lemma C8_witness :
  Mbox.sanitizeFolderName (lit "Sent Items") = Spec.sanitize (lit "Sent Items").
Proof.
  apply (C8_sanitizeFolderName_same_everywhere sample_runtime_laws
           (lit "Sent Items")).
Defined.

Lemma C9_witness :
  exists objs : list Json.value,
    Json.messagesToJson [Sample.withAttachment true] = Returned objs /\
    Forall2 serialises [Sample.withAttachment true] objs.
Proof.
  apply (C9_json_export_marks_attachment_content [Sample.withAttachment true]).
  repeat constructor. by eexists.
Defined.

Lemma C2_witness :
  let messages :=
    [Sample.plainMessage (lit "Hi") Sample.alice
       (Some (lit "hello" ++ [LF] ++ lit "From here on")) None;
     Sample.withAttachment true;
     Sample.plainMessage (lit "Hi") Sample.quoted (Some (lit "bye")) None] in
  Forall roundTripSafe messages
  /\ (let imported := Mbox.parseMbox (fst (Mbox.messagesToMbox messages 0)) in
      length imported = length messages
      /\ List.map subject imported = List.map subject messages
      /\ List.map (fun m => address (from m)) imported
         = List.map (fun m => address (from m)) messages).
Proof.
  intros messages.
  assert (Forall roundTripSafe messages) as H.
  { subst messages.
    constructor; [|constructor; [|constructor; [|constructor]]];
      unfold roundTripSafe, cleanText, safeSender, safeBody, safeAttachment;
      cbn [Sample.plainMessage Sample.withAttachment raw attachments subject
             from to cc id headers Sample.alice Sample.bob Sample.quoted
             Sample.report name address truthyOpt default];
      repeat split; try lit_forall;
      try (left; rewrite list_elem_of_In; vm_compute; intuition discriminate);
      try (right; rewrite list_elem_of_In; vm_compute; intuition discriminate);
      try (vm_compute; repeat constructor).
     }
  split; [exact H|].
  exact (C2_mbox_round_trip sample_runtime_laws sample_mime_laws messages 0 H).
Defined.



(** Witnesses of the further properties. *)
Lemma import_keeps_count_and_escaped_raw_witness :
  let messages :=
    [Sample.plainMessage (lit "Hi") Sample.bob None
       (Some (lit "From here" ++ [LF] ++ lit "Subject: x"));
     Sample.withAttachment true] in
  Forall envelopeSafe messages
  /\ (let imported := Mbox.parseMbox (fst (Mbox.messagesToMbox messages 0)) in
      length imported = length messages
      /\ List.map raw imported
         = List.map (fun c => Some (Mbox.escapeFromLines c ++ [LF; LF]))
             (contentsFrom messages 0)).
Proof.
  intros messages.
  assert (Forall envelopeSafe messages) as H.
  { subst messages. repeat constructor; lit_forall. }
  split; [exact H|].
  exact (import_keeps_count_and_escaped_raw sample_runtime_laws messages 0 H).
Defined.

Lemma imported_text_is_whole_entry_without_blank_line_witness :
  let content := lit "Subject: Hi" ++ [LF; LF] ++ lit "body" in
  Forall (fun l => blank l = false) (split LF content)
  /\ text (Mbox.parseMessage content 1) = Some content.
Proof.
  intros content.
  assert (Forall (fun l => blank l = false) (split LF content)) as H.
  { subst content. vm_compute. repeat constructor. }
  split; [exact H|].
  exact (proj1 (imported_text_is_whole_entry_without_blank_line content 1) H).
Defined.

Lemma entry_without_colon_gets_defaults_witness :
  (58 ∉ lit "hello")
  /\ subject (Mbox.parseMessage (lit "hello") 7) = lit "(No Subject)".
Proof.
  assert (58 ∉ lit "hello") as H.
  { rewrite list_elem_of_In. vm_compute. intuition discriminate. }
  split; [exact H|].
  exact (proj1 (proj2 (entry_without_colon_gets_defaults (lit "hello") 7 H))).
Defined.

Lemma text_without_envelope_is_one_message_witness :
  let content := lit "Subject: Hi" ++ [LF] ++ lit "no envelope" in
  Forall (fun l => startsWith (lit "From ") l = false)
    (Spec.linesOf content)
  /\ Mbox.parseMbox content
     = if truthy (trim content)
       then [Mbox.parseMessage
               (substring (indexOf LF content + 1) content) 1]
       else [].
Proof.
  intros content.
  assert (Forall (fun l => startsWith (lit "From ") l = false)
            (Spec.linesOf content)) as H.
  { subst content. vm_compute. repeat constructor. }
  split; [exact H|].
  exact (text_without_envelope_is_one_message content H).
Defined.

Lemma sanitized_folder_name_is_safe_and_stable_witness :
  Mbox.sanitizeFolderName (Mbox.sanitizeFolderName (lit "Sent  Items/2024"))
  = Mbox.sanitizeFolderName (lit "Sent  Items/2024").
Proof.
  exact (proj2 (proj2 (proj2
    (sanitized_folder_name_is_safe_and_stable sample_runtime_laws
       (lit "Sent  Items/2024"))))).
Defined.

Lemma parseAddress_formatAddress_witness :
  plainAddress Sample.alice
  /\ Mbox.parseAddress (Mbox.formatAddress Sample.alice) = Sample.alice.
Proof.
  assert (plainAddress Sample.alice) as H.
  { unfold plainAddress. cbn [Sample.alice name address].
    repeat split; try lit_forall; try (by vm_compute).
    rewrite list_elem_of_In. vm_compute. intuition discriminate. }
  split; [exact H|].
  exact (parseAddress_formatAddress Sample.alice H).
Defined.

Lemma multipart_boundaries_are_two_draws_witness :
  truthyOpt (raw (Sample.withAttachment true)) = false
  /\ attachments (Sample.withAttachment true) <> []
  /\ exists hs,
       Mbox.buildHeaders (Sample.withAttachment true) 0 = (hs, 1%nat)
       /\ (lit "Content-Type: multipart/mixed; boundary=" ++ [QUOTE]
             ++ fst (Mbox.generateBoundary 0) ++ [QUOTE]) ∈ hs
       /\ Mbox.messageContent (Sample.withAttachment true) 0
          = (join [LF]
               (hs ++ [[]]
                  ++ Mbox.buildMultipartBody (Sample.withAttachment true)
                       (fst (Mbox.generateBoundary 1))),
             2%nat)
       /\ (fst (Mbox.generateBoundary 0) = fst (Mbox.generateBoundary 1)
           <-> boundaryStamp 0 = boundaryStamp 1).
Proof.
  assert (truthyOpt (raw (Sample.withAttachment true)) = false) as H1
    by reflexivity.
  assert (attachments (Sample.withAttachment true) <> []) as H2
    by discriminate.
  split; [exact H1|]. split; [exact H2|].
  exact (multipart_boundaries_are_two_draws (Sample.withAttachment true) 0
           H1 H2).
Defined.


Lemma mbox_content_is_eml_content_witness :
  let m := Sample.plainMessage (lit "Hi") Sample.alice (Some (lit "hello")) None in
  attachments m = []
  /\ Forall (fun kv => toLowerCase (fst kv) ∈ Mbox.skippedHeaders) (headers m)
  /\ Mbox.messageContent m 3 = (EmlExporter.emlContent m, 3%nat).
Proof.
  intros m.
  assert (attachments m = []) as H1 by reflexivity.
  assert (Forall (fun kv => toLowerCase (fst kv) ∈ Mbox.skippedHeaders)
            (headers m)) as H2 by constructor.
  split; [exact H1|]. split; [exact H2|].
  exact (mbox_content_is_eml_content m 3 H1 H2).
Defined.

Lemma mbox_exportByFolder_last_folder_wins_witness :
  let m1 := Sample.plainMessage (lit "One") Sample.alice (Some (lit "a")) None in
  let m2 := Sample.plainMessage (lit "Two") Sample.bob (Some (lit "b")) None in
  let r := MboxExporter.exportByFolder Sample.host
             ([(lit "Inbox/Archive", [m1])]
                ++ (lit "Inbox\Archive", [m2]) :: [])
             (lit "out") Sample.emptyDisk in
  (forall fs path content,
      Host.writeError Sample.host fs path content = None)
  /\ Forall (fun fm : str * list EmailMessage =>
                mboxPath Sample.host (lit "out") (fst fm)
                <> mboxPath Sample.host (lit "out") (lit "Inbox\Archive"))
       []
  /\ fst r = Returned tt
  /\ exists n,
       Host.files (snd r) !! mboxPath Sample.host (lit "out") (lit "Inbox\Archive")
       = Some (fst (Mbox.messagesToMbox [m2] n)).
Proof.
  intros m1 m2 r.
  assert (forall fs path content,
             Host.writeError Sample.host fs path content = None) as H1
    by reflexivity.
  assert (Forall (fun fm : str * list EmailMessage =>
                    mboxPath Sample.host (lit "out") (fst fm)
                    <> mboxPath Sample.host (lit "out") (lit "Inbox\Archive"))
            []) as H2 by constructor.
  split; [exact H1|]. split; [exact H2|].
  exact (mbox_exportByFolder_last_folder_wins Sample.host
           [(lit "Inbox/Archive", [m1])] [] (lit "Inbox\Archive") [m2]
           (lit "out") Sample.emptyDisk H1 H2).
Defined.

Lemma eml_export_last_message_wins_witness :
  let m1 := Sample.plainMessage (lit "Hi") Sample.alice (Some (lit "first")) None in
  let m2 := Sample.plainMessage (lit "Hi") Sample.bob (Some (lit "second")) None in
  let fn := lit "2024-01-01_000001_Hi.eml" in
  let r := EmlExporter.export Sample.host ([m1] ++ m2 :: []) (lit "out")
             Sample.emptyDisk in
  EmlExporter.generateFilename m1 = Returned fn
  /\ EmlExporter.generateFilename m2 = Returned fn
  /\ fst r = Returned tt
  /\ Host.files (snd r) !! Host.pathJoin Sample.host (lit "out") fn
     = Some (EmlExporter.emlContent m2).
Proof.
  intros m1 m2 fn r.
  assert (EmlExporter.generateFilename m2 = Returned fn) as H by (by vm_compute).
  split; [by vm_compute|]. split; [exact H|].
  apply (eml_export_last_message_wins Sample.host [m1] [] m2 fn (lit "out")
           Sample.emptyDisk).
  - reflexivity.
  - repeat constructor; by eexists.
  - exact H.
  - constructor.
Defined.

Lemma eml_export_stops_at_invalid_date_witness :
  let m1 := Sample.plainMessage (lit "Hi") Sample.alice (Some (lit "first")) None in
  EmlExporter.export Sample.host
    ([m1] ++ Sample.withAttachment false :: [Sample.withAttachment true])
    (lit "out") Sample.emptyDisk
  = (Thrown (rangeError (lit "Invalid Date")),
     snd (EmlExporter.export Sample.host [m1] (lit "out") Sample.emptyDisk)).
Proof.
  intros m1.
  apply (eml_export_stops_at_invalid_date Sample.host [m1]
           [Sample.withAttachment true] (Sample.withAttachment false)
           (lit "out") Sample.emptyDisk).
  - reflexivity.
  - repeat constructor. by eexists.
  - reflexivity.
Defined.

Lemma json_export_all_or_nothing_witness :
  let messages := [Sample.withAttachment true; Sample.withAttachment false] in
  Exists (fun m => Date_toISOString (date m) = None) messages
  /\ JsonExporter.export Sample.host messages (lit "out.json") Sample.emptyDisk
     = (Thrown (rangeError (lit "Invalid Date")), Sample.emptyDisk).
Proof.
  intros messages.
  assert (Exists (fun m => Date_toISOString (date m) = None) messages) as H.
  { subst messages. apply Exists_cons_tl, Exists_cons_hd. reflexivity. }
  split; [exact H|].
  exact (proj1 (json_export_all_or_nothing Sample.host messages
                  (lit "out.json") Sample.emptyDisk) H).
Defined.


Lemma generateFilename_shape_witness :
  (Date_toISOString (date (Sample.withAttachment false)) = None
   /\ EmlExporter.generateFilename (Sample.withAttachment false)
      = Thrown (rangeError (lit "Invalid Date")))
  /\ (let message :=
        Sample.plainMessage (lit "Re: plan / notes") Sample.bob None None in
      exists subj,
        EmlExporter.generateFilename message
        = Returned (lit "2024-01-01" ++ lit "_" ++ lit "000001" ++ lit "_"
                      ++ subj ++ lit ".eml")
        /\ (length subj <= 50)%nat
        /\ Forall (fun c => Spec.isFolderSafe c = true) subj
        /\ (forall a b : str, subj <> a ++ 95 :: 95 :: b)).
Proof.
  split.
  - assert (Date_toISOString (date (Sample.withAttachment false)) = None)
      as H by reflexivity.
    split; [exact H|].
    exact (proj1 (generateFilename_shape (Sample.withAttachment false)) H).
  - intros message.
    exact (proj2 (generateFilename_shape message)
             (lit "2024-01-01T00:00:00.000Z") eq_refl).
Defined.

Lemma imap_upload_stops_at_message_without_raw_witness :
  let m1 := Sample.plainMessage (lit "Hi") Sample.bob None (Some (lit "raw text")) in
  let m2 := Sample.plainMessage (lit "Yo") Sample.bob (Some (lit "no raw")) None in
  Imap.uploadMessages (Sample.imapAccount 3) (lit "INBOX")
    ([m1] ++ m2 :: [m1]) Sample.imapConnected
  = (Thrown noRawError,
     {| Imap.imap := Some Sample.imapConfig;
        Imap.config := Sample.imapConfig;
        Imap.connected := true;
        Imap.trace :=
          [] ++ flat_map (fun _ => uploadRequests (lit "INBOX")) [m1] |}).
Proof.
  intros m1 m2.
  apply (imap_upload_stops_at_message_without_raw (Sample.imapAccount 3)
           (lit "INBOX") [m1] [m1] m2 Sample.imapConnected).
  - reflexivity.
  - by eexists.
  - reflexivity.
  - repeat constructor.
  - reflexivity.
Defined.

Lemma jmap_message_cannot_be_uploaded_witness :
  Imap.connected Sample.imapConnected = true
  /\ Imap.uploadMessages (Sample.imapAccount 3) (lit "INBOX")
       [Jmap.convertJmapEmail ∅ Sample.jmapEmail (lit "mb1")]
       Sample.imapConnected
     = (Thrown noRawError, Sample.imapConnected).
Proof.
  assert (Imap.connected Sample.imapConnected = true) as H by reflexivity.
  split; [exact H|].
  exact (proj1 (jmap_message_cannot_be_uploaded ∅ Sample.jmapEmail (lit "mb1")
                  [] (lit "INBOX"))
           (Sample.imapAccount 3) Sample.imapConnected H).
Defined.

Lemma gmail_getMessages_skips_unfetchable_witness :
  let s := {| Gmail.gmail := true; Gmail.connected := true |} in
  Gmail.getMessages Sample.gmailListing (lit "INBOX") 0 s
  = (Returned [Gmail.parseGmailMessage Sample.gmailNoSubject], s).
Proof.
  intros s.
  exact (gmail_getMessages_skips_unfetchable Sample.gmailListing (lit "INBOX")
           0 s (Some [Some (lit "18c5"); None; Some (lit "18c6")])
           eq_refl eq_refl eq_refl).
Defined.

Lemma imap_total_counts_top_level_only_witness :
  Imap.getTotalMessageCount (Sample.imapAccount 3) Sample.imapConnected
  = (Returned (Int 6),
     {| Imap.imap := Some Sample.imapConfig;
        Imap.config := Sample.imapConfig;
        Imap.connected := true;
        Imap.trace :=
          [Imap.ReqGetBoxes; Imap.ReqOpenBox (lit "INBOX") true;
           Imap.ReqOpenBox (lit "Sent") true] |}).
Proof.
  apply (imap_total_counts_top_level_only (Sample.imapAccount 3)
           Sample.imapConnected Sample.imapBoxes (fun _ => 3%Z)).
  - reflexivity.
  - by eexists.
  - reflexivity.
  - intros nb _. reflexivity.
Defined.

Lemma jmap_getFolders_rebuilds_cache_witness :
  let s := {| Jmap.session := Some Sample.jmapSession;
              Jmap.primaryAccountId := Some (lit "u1");
              Jmap.mailboxCache := ∅; Jmap.connected := true |} in
  Jmap.mailboxCache (snd (Jmap.getFolders Sample.jmapListing s))
    !! lit "mb2" = Some Sample.archive.
Proof.
  intros s.
  apply (proj1 (proj2
    (jmap_getFolders_rebuilds_cache Sample.jmapListing s Sample.jmapSession
       Sample.mailboxAnswer (lit "Mailbox/get") Sample.mailboxList []
       [Sample.inbox; Sample.archive]
       eq_refl eq_refl eq_refl eq_refl eq_refl eq_refl))
    [Sample.inbox] Sample.archive []).
  - reflexivity.
  - constructor.
Defined.

Lemma parseArgs_commands_witness :
  Cli.parseArgs Sample.prototypes [lit "backup"; lit "inbox"]
  = {| Cli.command := [lit "backup"; lit "inbox"];
       Cli.options := noOptions; Cli.flags := ∅ |}.
Proof.
  apply (parseArgs_commands Sample.prototypes [lit "backup"; lit "inbox"]).
  constructor; [|constructor; [|constructor]]; split;
    solve [by eval_lits | reflexivity].
Defined.

Lemma last_long_option_gives_its_value_witness :
  Cli.getOption Sample.prototypes
    (Cli.parseArgs Sample.prototypes
       ([lit "export"; lit "-v"] ++ [lit "--" ++ lit "format" ++ lit "=" ++ lit "a=b"]))
    (lit "format") None
  = Some (Cli.VStr (lit "a=b")).
Proof.
  apply (last_long_option_gives_its_value Sample.prototypes
           [lit "export"; lit "-v"] (lit "format") (lit "a=b") None).
  - by eval_lits.
  - rewrite list_elem_of_In; vm_compute; intuition discriminate.
  - by eval_lits.
Defined.

Lemma repeated_option_collects_values_witness :
  let parsed :=
    Cli.parseArgs Sample.prototypes
      (flat_map (fun x => [lit "--" ++ lit "folder"; x])
         [lit "INBOX"; lit "Sent"; lit "Work"]) in
  Cli.getArrayOption Sample.prototypes parsed (lit "folder")
  = List.map Cli.VStr [lit "INBOX"; lit "Sent"; lit "Work"]
  /\ Cli.getOption Sample.prototypes parsed (lit "folder") None
     = Some (Cli.VStr (lit "INBOX"))
  /\ Cli.command parsed = []
  /\ Cli.hasFlag Sample.prototypes parsed (lit "folder") = false.
Proof.
  apply (repeated_option_collects_values Sample.prototypes (lit "folder")
           (lit "INBOX") [lit "Sent"; lit "Work"] None).
  - split; [by eval_lits|]. vm_compute. reflexivity.
  - rewrite list_elem_of_In; vm_compute; intuition discriminate.
  - constructor; [|constructor; [|constructor; [|constructor]]]; split;
      solve [by eval_lits | reflexivity].
Defined.

Lemma last_flags_are_set_witness :
  Cli.hasFlag Sample.prototypes
    (Cli.parseArgs Sample.prototypes ([lit "export"] ++ [45 :: lit "vq"]))
    [113] = true
  /\ Cli.hasFlag Sample.prototypes
       (Cli.parseArgs Sample.prototypes
          ([lit "export"] ++ [lit "--" ++ lit "dry-run"]))
       (lit "dry-run") = true.
Proof.
  apply (last_flags_are_set Sample.prototypes [lit "export"] (lit "vq")
           (lit "dry-run") 113).
  - by eval_lits.
  - by eval_lits.
  - rewrite list_elem_of_In; vm_compute; intuition.
  - rewrite list_elem_of_In; vm_compute; intuition discriminate.
Defined.


Lemma jmap_no_labels_before_getFolders_witness :
  let s := snd (Jmap.connect Sample.jmapUp Jmap.create) in
  let m := Jmap.convertJmapEmail ∅ Sample.filedEmail (lit "mb1") in
  Forall (fun m => labels m = Some [] /\ Types.folder m = Some (lit "mb1"))
    [m]
  /\ labels m = Some [] /\ Types.folder m = Some (lit "mb1").
Proof.
  intros s m.
  destruct (jmap_no_labels_before_getFolders Sample.jmapUp Sample.jmapMail
              (lit "mb1") (lit "M2") 10 [m] m) as [Hall Hone].
  split; [apply Hall|apply Hone]; reflexivity.
Defined.


Lemma jmap_empty_answers_witness :
  let s := {| Jmap.session := Some Sample.jmapSession;
              Jmap.primaryAccountId := Some (lit "u1");
              Jmap.mailboxCache := ∅; Jmap.connected := true |} in
  Jmap.getMessages Sample.jmapListing (lit "mb1") 0 s = (Returned [], s)
  /\ Jmap.getMessage Sample.jmapListing (lit "mb1") (lit "M9") s
     = (Thrown (newError (lit "Email " ++ lit "M9" ++ lit " not found")), s).
Proof.
  intros s.
  destruct (jmap_empty_answers Sample.jmapListing s Sample.jmapSession
              (lit "mb1") (lit "M9") 0 Sample.mailboxAnswer
              (lit "Mailbox/get") Sample.mailboxList []
              eq_refl eq_refl eq_refl eq_refl) as [Hlist Hone].
  split; [apply Hlist|apply Hone]; reflexivity.
Defined.


Lemma gmail_bare_address_list_witness :
  Gmail.parseAddresses (join [44] [lit "ann@example.org"; lit " bob@example.org"])
  = List.map (fun a => {| name := None; address := trim a |})
      [lit "ann@example.org"; lit " bob@example.org"].
Proof.
  apply (gmail_bare_address_list [lit "ann@example.org"; lit " bob@example.org"]).
  - by eval_lits.
  - constructor; [|constructor; [|constructor]]; split;
      rewrite list_elem_of_In; vm_compute; intuition discriminate.
Defined.


End Examples.
